(** * Verification of kopia's local caching layer

    Two components are embedded here:

    - [Fscache]: the in-memory directory-listing cache (package [fscache]):
      the [Cache] struct, its doubly-linked access-order list threaded
      through [cacheEntry] objects, [GetEntries], [Readdir] and [NewCache].
    - [Block]: the constructor [newBlockCache] of the block cache engine
      (package [block], file [block_cache.go]).

    Go pointers to [cacheEntry] objects are indices into an arena (the
    [heap] of the cache); [nil] is [None].  Go's [int] is a 64-bit
    two's-complement integer: arithmetic on the counter wraps.  Times and
    durations are integers (nanoseconds).  The [debug] flag of the cache
    only switches log lines on and is left out. *)

From stdpp Require Import gmap strings list fin_maps.
From Stdlib Require Import ZArith Lia.

(** ** Machine integers and outcomes of a call *)

Definition wrap64 (z : Z) : Z := ((z + 2 ^ 63) `mod` 2 ^ 64 - 2 ^ 63)%Z.

Definition len {A} (l : list A) : Z := Z.of_nat (length l).

(** A call either returns, panics (nil pointer dereference), blocks for
    ever on the mutex, or is still running when the loop budget of the
    model is used up. *)
Inductive outcome (A : Type) : Type :=
| Returned (a : A)
| Panicked
| Blocked
| OutOfFuel.
Arguments Returned {A} a.
Arguments Panicked {A}.
Arguments Blocked {A}.
Arguments OutOfFuel {A}.

Definition obind {A B} (m : outcome A) (k : A → outcome B) : outcome B :=
  match m with
  | Returned a => k a
  | Panicked => Panicked
  | Blocked => Blocked
  | OutOfFuel => OutOfFuel
  end.

(** A nil dereference inside a helper turns into a panic of the caller. *)
Definition orPanic {A} (m : option A) : outcome A :=
  match m with Some a => Returned a | None => Panicked end.

Module Fscache.

(** ** Data model *)

Abbreviation addr := nat.
Abbreviation ptr := (option nat).

Section Model.
(** [Entry] is [fs.Entry], [Err] is Go's [error], [World] is everything
    outside the cache: what the loader reads and changes, and the clock
    that [time.Now()] reads. *)
Context {Entry Err World : Type}.
Variable Now : World → Z.

Record cacheEntry := mkCacheEntry {
  id : string;
  prev : ptr;
  next : ptr;
  expireAfter : Z;
  entries : list Entry
}.

#[export] Instance cacheEntry_inhabited : Inhabited cacheEntry :=
  populate (mkCacheEntry "" None None 0 []).

Record Cache := mkCache {
  locked : bool;                  (* the embedded sync.Mutex *)
  totalDirectoryEntries : Z;
  maxDirectories : Z;
  maxDirectoryEntries : Z;
  data : gmap string addr;
  head : ptr;
  tail : ptr;
  heap : list cacheEntry          (* the cacheEntry objects pointers refer to *)
}.

Definition set_prev (p : ptr) (e : cacheEntry) : cacheEntry :=
  mkCacheEntry (id e) p (next e) (expireAfter e) (entries e).
Definition set_next (n : ptr) (e : cacheEntry) : cacheEntry :=
  mkCacheEntry (id e) (prev e) n (expireAfter e) (entries e).

Definition set_locked (b : bool) (c : Cache) : Cache :=
  mkCache b (totalDirectoryEntries c) (maxDirectories c)
          (maxDirectoryEntries c) (data c) (head c) (tail c) (heap c).
Definition set_total (t : Z) (c : Cache) : Cache :=
  mkCache (locked c) t (maxDirectories c)
          (maxDirectoryEntries c) (data c) (head c) (tail c) (heap c).
Definition set_maxDirectories (n : Z) (c : Cache) : Cache :=
  mkCache (locked c) (totalDirectoryEntries c) n
          (maxDirectoryEntries c) (data c) (head c) (tail c) (heap c).
Definition set_maxDirectoryEntries (n : Z) (c : Cache) : Cache :=
  mkCache (locked c) (totalDirectoryEntries c) (maxDirectories c)
          n (data c) (head c) (tail c) (heap c).
Definition set_data (d : gmap string addr) (c : Cache) : Cache :=
  mkCache (locked c) (totalDirectoryEntries c) (maxDirectories c)
          (maxDirectoryEntries c) d (head c) (tail c) (heap c).
Definition set_head (p : ptr) (c : Cache) : Cache :=
  mkCache (locked c) (totalDirectoryEntries c) (maxDirectories c)
          (maxDirectoryEntries c) (data c) p (tail c) (heap c).
Definition set_tail (p : ptr) (c : Cache) : Cache :=
  mkCache (locked c) (totalDirectoryEntries c) (maxDirectories c)
          (maxDirectoryEntries c) (data c) (head c) p (heap c).
Definition set_heap (h : list cacheEntry) (c : Cache) : Cache :=
  mkCache (locked c) (totalDirectoryEntries c) (maxDirectories c)
          (maxDirectoryEntries c) (data c) (head c) (tail c) h.

(** [c.Lock()] is handled by the caller of these two: a held mutex blocks. *)
Definition Lock (c : Cache) : Cache := set_locked true c.
Definition Unlock (c : Cache) : Cache := set_locked false c.

(** Field reads and writes through a non-nil pointer. *)
Definition deref (c : Cache) (a : addr) : cacheEntry := heap c !!! a.
Definition store_prev (a : addr) (p : ptr) (c : Cache) : Cache :=
  set_heap (alter (set_prev p) a (heap c)) c.
Definition store_next (a : addr) (n : ptr) (c : Cache) : Cache :=
  set_heap (alter (set_next n) a (heap c)) c.

(** ** The access-order list *)

(** [func (c *Cache) addToHead(e *cacheEntry)] *)
Definition addToHead (e : ptr) (c : Cache) : option Cache :=
  match e with
  | None => None
  | Some a =>
    match head c with
    | Some h =>
      let c := store_next a (head c) c in      (* e.next = c.head *)
      let c := store_prev h e c in             (* c.head.prev = e *)
      Some (set_head e c)                      (* c.head = e *)
    | None =>
      Some (set_tail e (set_head e c))
    end
  end.

(** [func (c *Cache) remove(e *cacheEntry)] *)
Definition remove (e : ptr) (c : Cache) : option Cache :=
  match e with
  | None => None
  | Some a =>
    let c :=
      match prev (deref c a) with
      | None => set_head (next (deref c a)) c          (* c.head = e.next *)
      | Some p => store_next p (next (deref c a)) c    (* e.prev.next = e.next *)
      end in
    Some
      match next (deref c a) with
      | None => set_tail (prev (deref c a)) c          (* c.tail = e.prev *)
      | Some n => store_prev n (prev (deref c a)) c    (* e.next.prev = e.prev *)
      end
  end.

(** [func (c *Cache) moveToHead(e *cacheEntry)] *)
Definition moveToHead (e : ptr) (c : Cache) : option Cache :=
  if decide (e = head c) then Some c
  else c ← remove e c; addToHead e c.

(** [func (c *Cache) removeEntryLocked(toremove *cacheEntry)] *)
Definition removeEntryLocked (toremove : ptr) (c : Cache) : option Cache :=
  c ← remove toremove c;
  a ← toremove;
  let c := set_total (wrap64 (totalDirectoryEntries c
                              - len (entries (deref c a)))) c in
  Some (set_data (delete (id (deref c a)) (data c)) c).

(** ** GetEntries *)

(** [type Loader func() (fs.Entries, error)] *)
Definition Loader : Type := World → (list Entry * option Err) * World.

Definition overBudget (c : Cache) : bool :=
  (maxDirectoryEntries c <? totalDirectoryEntries c)%Z
  || (maxDirectories c <? Z.of_nat (size (data c)))%Z.

(** The eviction loop of [GetEntries]:
    [for c.totalDirectoryEntries > c.maxDirectoryEntries ||
         len(c.data) > c.maxDirectories { c.removeEntryLocked(c.tail) }].
    [fuel] bounds the number of iterations the model follows. *)
Fixpoint evict (fuel : nat) (c : Cache) : outcome Cache :=
  if overBudget c then
    match fuel with
    | O => OutOfFuel
    | S fuel =>
      match removeEntryLocked (tail c) c with
      | None => Panicked
      | Some c => evict fuel c
      end
    end
  else Returned c.

Definition Result : Type := (list Entry * option Err) * option Cache * World.

(** The part of [GetEntries] after the lookup: the loader call and the
    insertion.  The mutex is held on entry. *)
Definition GetEntries_miss (fuel : nat) (c : Cache) (id : string)
    (expirationTime : Z) (cb : Loader) (w : World) : outcome Result :=
  let '((raw, err), w) := cb w in
  match err with
  | Some e => Returned (([], Some e), Some c, w)
  | None =>
    if (maxDirectoryEntries c <? len raw)%Z then
      Returned ((raw, None), Some (Unlock c), w)
    else
      let a := length (heap c) in
      let entry := mkCacheEntry id None None (Now w + expirationTime) raw in
      let c := set_heap (heap c ++ [entry]) c in
      obind (orPanic (addToHead (Some a) c)) (λ c,
      let c := set_data (<[id := a]> (data c)) c in
      let c := set_total (wrap64 (totalDirectoryEntries c + len raw)) c in
      obind (evict fuel c) (λ c,
      Returned ((raw, None), Some (Unlock c), w)))
  end.

(** [v, ok := c.data[id]; id != "" && ok] *)
Definition lookupEntry (c : Cache) (id : string) : option addr :=
  if decide (id = "") then None else data c !! id.

(** [func (c *Cache) GetEntries(id string, expirationTime time.Duration,
    cb Loader) (fs.Entries, error)] *)
Definition GetEntries (fuel : nat) (c : option Cache) (id : string)
    (expirationTime : Z) (cb : Loader) (w : World) : outcome Result :=
  match c with
  | None => let '(r, w) := cb w in Returned (r, None, w)
  | Some c =>
    if locked c then Blocked else
    let c := Lock c in
    match lookupEntry c id with
    | Some v =>
      if (Now w <? expireAfter (deref c v))%Z then
        obind (orPanic (moveToHead (Some v) c)) (λ c,
        Returned ((entries (deref c v), None), Some (Unlock c), w))
      else
        obind (orPanic (removeEntryLocked (Some v) c)) (λ c,
        GetEntries_miss fuel c id expirationTime cb w)
    | None => GetEntries_miss fuel c id expirationTime cb w
    end
  end.

(** [Readdir]: a directory is an [fs.Directory]; [objectID] is present
    when it implements [repo.HasObjectID] and holds
    [ObjectID().String()]. *)
Record Directory := mkDirectory {
  objectID : option string;
  dirReaddir : Loader
}.

Definition hour : Z := 3600 * 1000000000.

Definition Readdir (fuel : nat) (c : option Cache) (d : Directory) (w : World)
    : outcome Result :=
  match objectID d with
  | Some cacheID =>
    let cacheExpiration := (24 * hour)%Z in
    GetEntries fuel c cacheID cacheExpiration (dirReaddir d) w
  | None => let '(r, w) := dirReaddir d w in Returned (r, c, w)
  end.

(** ** Construction *)

Definition CacheOption : Type := Cache → Cache.

Definition MaxCachedDirectories (count : Z) : CacheOption :=
  set_maxDirectories count.

Definition MaxCachedDirectoryEntries (count : Z) : CacheOption :=
  set_maxDirectoryEntries count.

Definition NewCache (options : list CacheOption) : Cache :=
  foldl (λ c o, o c) (mkCache false 0 1000 100000 ∅ None None []) options.

(** ** Observations and invariants *)

(** The entry a call for [id] at world [w] is served from, if any. *)
Definition hit (c : Cache) (id : string) (w : World) : option addr :=
  v ← lookupEntry c id;
  if (Now w <? expireAfter (deref c v))%Z then Some v else None.

(** The entry a call for [id] at world [w] finds expired, if any. *)
Definition expired (c : Cache) (id : string) (w : World) : option addr :=
  v ← lookupEntry c id;
  if (Now w <? expireAfter (deref c v))%Z then None else Some v.

(** The access-order list as [next] pointers give it, from [p] on, at
    most [n] entries long. *)
Fixpoint walk (n : nat) (c : Cache) (p : ptr) : list addr :=
  match n, p with
  | S n, Some a => a :: walk n c (next (deref c a))
  | _, _ => []
  end.

Definition order (c : Cache) : list addr :=
  walk (length (heap c)) c (head c).

Definition ids (c : Cache) (l : list addr) : list string :=
  (λ a, id (deref c a)) <$> l.

(** Number of directory entries held by the cache entries [l]. *)
Definition cost (c : Cache) (l : list addr) : Z :=
  foldr (λ a s, (len (entries (deref c a)) + s)%Z) 0%Z l.

(** The same sum over the values of the map. *)
Definition cachedCost (c : Cache) : Z :=
  cost c (snd <$> map_to_list (data c)).

(** Both bounds hold for the entries [l]. *)
Definition fits (c : Cache) (l : list addr) : Prop :=
  (cost c l ≤ maxDirectoryEntries c)%Z
  ∧ (Z.of_nat (length l) ≤ maxDirectories c)%Z.

(** Every map record points at an allocated entry that carries the key
    it is stored under. *)
Definition Keyed (c : Cache) : Prop :=
  ∀ k v, data c !! k = Some v →
         v < length (heap c) ∧ id (deref c v) = k.

(** List surgery touches links only: identifiers, payloads and
    expiration times of all entries stay as they are, and no entry is
    allocated. *)
Definition samePayload (c c' : Cache) : Prop :=
  length (heap c') = length (heap c)
  ∧ ∀ x, id (deref c' x) = id (deref c x)
         ∧ entries (deref c' x) = entries (deref c x)
         ∧ expireAfter (deref c' x) = expireAfter (deref c x).

(** The first entry of [l], or [q] past its end; the last entry of [l], or
    [p] before its start. *)
Definition firstOr (l : list addr) (q : ptr) : ptr :=
  match l with [] => q | b :: _ => Some b end.
Definition lastOr (l : list addr) (p : ptr) : ptr :=
  match last l with Some b => Some b | None => p end.

(** A doubly-linked segment: the entries [l] are allocated and chained
    through [next] and [prev]; the first one's [prev] is [p], the last
    one's [next] is [q]. *)
Fixpoint seg (h : list cacheEntry) (p : ptr) (l : list addr) (q : ptr) : Prop :=
  match l with
  | [] => True
  | a :: l' =>
    a < length h
    ∧ prev (h !!! a) = p
    ∧ next (h !!! a) = firstOr l' q
    ∧ seg h (Some a) l' q
  end.

(** [l] is the access-order list of [c], most recently used first.  [p]
    is the [prev] pointer of the first entry: nil after an insertion, the
    old neighbour after [moveToHead]. *)
Record Chain (c : Cache) (p : ptr) (l : list addr) : Prop := mkChain {
  chain_nodup : NoDup l;
  chain_head : head c = l !! 0;
  chain_tail : tail c = last l;
  chain_seg : seg (heap c) p l None
}.

(** Map, list and counter agree. *)
Record Linked (c : Cache) (p : ptr) (l : list addr) : Prop := mkLinked {
  linked_chain : Chain c p l;
  linked_data : ∀ k a, data c !! k = Some a ↔ a ∈ l ∧ id (deref c a) = k;
  linked_size : size (data c) = length l;
  linked_total : totalDirectoryEntries c = cost c l
}.

(** The invariant of the cache between calls. *)
Record Inv (c : Cache) (l : list addr) : Prop := mkInv {
  inv_linked : ∃ p, Linked c p l;
  inv_fits : fits c l;
  inv_unlocked : locked c = false;
  inv_maxDirectories : (0 ≤ maxDirectories c)%Z;
  inv_maxDirectoryEntries : (maxDirectoryEntries c < 2 ^ 62)%Z
}.

(** What an insertion of [raw] into [c] leaves behind, [c']: of "new
    entry, then the old access order" the first [k] entries are kept, the
    longest prefix that fits both bounds, and counter, map and list agree
    on it. *)
Definition Inserted (maxEntries maxDirs : Z) (c : Cache) (raw : list Entry)
    (c' : Cache) (k : nat) : Prop :=
  let new := length (heap c) in
  order c' = take k (new :: order c)
  ∧ (totalDirectoryEntries c' ≤ maxEntries)%Z
  ∧ (Z.of_nat (size (data c')) ≤ maxDirs)%Z
  ∧ totalDirectoryEntries c' = cost c' (order c')
  ∧ size (data c') = length (order c')
  ∧ (∀ key a, data c' !! key = Some a
              ↔ a ∈ order c' ∧ id (deref c' a) = key)
  ∧ (k = S (length (order c)) ∨ ¬ fits c' (take (S k) (new :: order c)))
  ∧ ((0 < maxDirs)%Z → 0 < k)
  ∧ entries (deref c' new) = raw
  ∧ (∀ x, x < new → entries (deref c' x) = entries (deref c x)).

(** A cache constructed with the two bounds given as options. *)
Definition NewCacheWith (maxEntries maxDirs : Z) : Cache :=
  NewCache [MaxCachedDirectoryEntries maxEntries;
            MaxCachedDirectories maxDirs].

(** States reached from a new cache by calls of [GetEntries] that
    return. *)
Inductive Reachable (maxEntries maxDirs : Z) : Cache → Prop :=
| reachable_new : Reachable maxEntries maxDirs (NewCacheWith maxEntries maxDirs)
| reachable_call c fuel id expirationTime cb w r c' w' :
    Reachable maxEntries maxDirs c →
    GetEntries fuel (Some c) id expirationTime cb w
      = Returned (r, Some c', w') →
    Reachable maxEntries maxDirs c'.

(** The calls that the access-order list survives: the identifier has no
    map record that the lookup finds and none at all; or its entry is
    still valid; or its entry has expired and is not a first entry that
    [moveToHead] left with a [prev] pointer. *)
Definition Regular (c : Cache) (id : string) (w : World) : Prop :=
  match lookupEntry c id with
  | Some v =>
    (Now w < expireAfter (deref c v))%Z
    ∨ (head c = Some v → prev (deref c v) = None)
  | None => data c !! id = None
  end.

(** States reached from a new cache by regular calls whose loader, when
    it runs, succeeds: lookups served from the cache, insertions of
    identifiers that are not cached, reloads of expired entries. *)
Inductive Filled (maxEntries maxDirs : Z) : Cache → Prop :=
| filled_new : Filled maxEntries maxDirs (NewCacheWith maxEntries maxDirs)
| filled_call c fuel id expirationTime cb w raw c' w' :
    Filled maxEntries maxDirs c →
    Regular c id w →
    GetEntries fuel (Some c) id expirationTime cb w
      = Returned ((raw, None), Some c', w') →
    Filled maxEntries maxDirs c'.

End Model.

(** Concrete loaders and clocks for examples: the world is the time and
    the number of loader calls made so far; entries are numbers. *)
Module Example.
Definition W : Type := Z * nat.
Definition now (w : W) : Z := w.1.

(** A loader that yields [n] entries. *)
Definition load (n : nat) : @Loader nat string W :=
  λ w, ((seq 0 n, None), (w.1, S w.2)).
(** A loader that fails. *)
Definition failing (e : string) : @Loader nat string W :=
  λ w, (([], Some e), (w.1, S w.2)).

(** One call of [GetEntries] at a time of day, with a time to live. *)
Record request := mkRequest {
  req_id : string;
  req_ttl : Z;
  req_cb : @Loader nat string W;
  req_time : Z
}.

(** What a caller sees of a call: the returned pair. *)
Definition reply : Type := list nat * option string.

(** Plays a request on a cache; keeps the cache, the number of loader
    calls and the replies so far. *)
Definition play (fuel : nat)
    (s : outcome (@Cache nat * nat * list reply)) (q : request)
    : outcome (@Cache nat * nat * list reply) :=
  obind s (λ '(c, n, rs),
  obind (GetEntries now fuel (Some c) (req_id q) (req_ttl q) (req_cb q)
           (req_time q, n)) (λ '(r, c', w'),
  match c' with
  | Some c' => Returned (c', w'.2, rs ++ [r])
  | None => Panicked
  end)).

Definition script (fuel : nat) (c : @Cache nat) (qs : list request)
    : outcome (@Cache nat * nat * list reply) :=
  foldl (play fuel) (Returned (c, 0, [])) qs.

Definition cache (maxEntries maxDirs : Z) : @Cache nat :=
  NewCacheWith maxEntries maxDirs.

(** A request at time [t] for [id], time to live 10, whose loader would
    yield [n] entries; and one whose loader would fail. *)
Definition get (id : string) (n : nat) (t : Z) : request :=
  mkRequest id 10 (load n) t.
Definition getFailing (id : string) (t : Z) : request :=
  mkRequest id 10 (failing "boom") t.

(** The script returned, and [P] holds of the cache, the number of
    loader calls and the replies. *)
Definition holds (s : outcome (@Cache nat * nat * list reply))
    (P : @Cache nat → nat → list reply → Prop) : Prop :=
  match s with
  | Returned (c, n, rs) => P c n rs
  | _ => False
  end.

(** The cache a script leaves behind (the starting cache if it does not
    return). *)
Definition after (fuel : nat) (c : @Cache nat) (qs : list request)
    : @Cache nat :=
  match script fuel c qs with
  | Returned (c', _, _) => c'
  | _ => c
  end.
End Example.

End Fscache.

Module Block.

(** ** The block cache constructor

    [newBlockCache] talks to the operating system, to the [filesystem]
    storage package and to methods of [localStorageCache].  Those calls are
    the nodes of a program tree; an environment answers them, and running a
    program records the calls in the order they were made. *)

Section Model.
(** [Storage] is [storage.Storage], [IndexInfo] the index-block metadata,
    [Err] Go's [error]. *)
Context {Storage IndexInfo Err : Type}.
(** [filepath.Join] and [os.IsNotExist] (on a non-nil error) belong to
    Go's standard library. *)
Variable filepath_Join : string → string → string.
Variable os_IsNotExist : Err → bool.

Record CachingOptions := mkCachingOptions {
  CacheDirectory : string;
  MaxCacheSizeBytes : Z;
  MaxListCacheDurationSec : Z;
  IgnoreListCache : bool;
  HMACSecret : list Z
}.

(** [filesystem.Options], the two fields the constructor sets. *)
Record filesystemOptions := mkFilesystemOptions {
  Path : string;
  DirectoryShards : list Z
}.

(** The fields of [localStorageCache] that the constructor fills in; the
    channel [closed] is created empty and carries no data. *)
Record localStorageCache := mkLocalStorageCache {
  st : Storage;
  cacheStorage : Storage;
  maxSizeBytes : Z;
  hmacSecret : list Z;
  listCacheDuration : Z
}.

(** The two implementations of the [blockCache] interface. *)
Inductive blockCache :=
| nullBlockCache (st : Storage)
| localCache (c : localStorageCache).

Inductive Call :=
| os_Stat (name : string)
| os_MkdirAll (path : string) (perm : Z)
| filesystem_New (o : filesystemOptions)
| deleteListCache (c : localStorageCache)
| sweepDirectory (c : localStorageCache)
| go_sweepDirectoryPeriodically (c : localStorageCache)
| st_GetBlock (s : Storage) (id : string) (offset length : Z)
| listIndexBlocksFromStorage (s : Storage).

(** What each call hands back; [None] is a nil error. *)
Definition Resp (c : Call) : Type :=
  match c with
  | os_Stat _ => option Err
  | os_MkdirAll _ _ => option Err
  | filesystem_New _ => Err + Storage
  | deleteListCache _ => unit
  | sweepDirectory _ => option Err
  | go_sweepDirectoryPeriodically _ => unit
  | st_GetBlock _ _ _ _ => Err + list Z
  | listIndexBlocksFromStorage _ => Err + list IndexInfo
  end.

Inductive Prog (R : Type) : Type :=
| Ret (r : R)
| Vis (c : Call) (k : Resp c → Prog R).
Arguments Ret {R} r.
Arguments Vis {R} c k.

Fixpoint bind {A B} (f : A → Prog B) (m : Prog A) : Prog B :=
  match m with
  | Ret a => f a
  | Vis c k => Vis c (λ x, bind f (k x))
  end.

#[export] Instance Prog_ret : MRet Prog := @Ret.
#[export] Instance Prog_bind : MBind Prog := @bind.

Definition call (c : Call) : Prog (Resp c) := Vis c Ret.

(** [os.IsNotExist(err)]: false on a nil error. *)
Definition isNotExist (err : option Err) : bool :=
  match err with Some e => os_IsNotExist e | None => false end.

Definition when (b : bool) (p : Prog unit) : Prog unit :=
  if b then p else Ret tt.

Definition second : Z := 1000000000.

(** [func newBlockCache(ctx, st storage.Storage, caching CachingOptions)
    (blockCache, error)] *)
Definition newBlockCache (st : Storage) (caching : CachingOptions)
    : Prog (Err + blockCache) :=
  if bool_decide (MaxCacheSizeBytes caching = 0%Z)
     || bool_decide (CacheDirectory caching = "") then
    Ret (inr (nullBlockCache st))
  else
    let blockCacheDir := filepath_Join (CacheDirectory caching) "blocks" in
    statErr ← call (os_Stat blockCacheDir);
    mkdirErr ← (if isNotExist statErr
                then call (os_MkdirAll blockCacheDir 448)     (* 0700 *)
                else Ret None);
    match mkdirErr with
    | Some err => Ret (inl err)
    | None =>
      opened ← call (filesystem_New
                       (mkFilesystemOptions blockCacheDir [2%Z]));
      match opened with
      | inl err => Ret (inl err)
      | inr cacheStorage =>
        let c := mkLocalStorageCache st cacheStorage
                   (MaxCacheSizeBytes caching)
                   (HMACSecret caching)
                   (wrap64 (MaxListCacheDurationSec caching * second)) in
        when (IgnoreListCache caching) (call (deleteListCache c));;
        sweepErr ← call (sweepDirectory c);
        match sweepErr with
        | Some err => Ret (inl err)
        | None =>
          call (go_sweepDirectoryPeriodically c);;
          Ret (inr (localCache c))
        end
      end
    end.

(** *** The disabled variant *)

(** Modelled from the spec: the methods of [nullBlockCache] are not part
    of the sources at hand.  Section 4.1: "every operation delegates
    directly to the remote storage backend; no local state, no background
    task; close is a no-op". *)
Definition null_getContentBlock (s : Storage) (cacheKey physicalBlockID : string)
    (offset length : Z) : Prog (Err + list Z) :=
  call (st_GetBlock s physicalBlockID offset length).

(** Modelled from the spec: see [null_getContentBlock]. *)
Definition null_listIndexBlocks (s : Storage) : Prog (Err + list IndexInfo) :=
  call (listIndexBlocksFromStorage s).

(** Modelled from the spec: see [null_getContentBlock]. *)
Definition null_deleteListCache (s : Storage) : Prog unit := Ret tt.

(** Modelled from the spec: see [null_getContentBlock]. *)
Definition null_close (s : Storage) : Prog (option Err) := Ret None.

(** *** Running a program *)

(** A call together with the answer it received. *)
Definition Event : Type := sigT Resp.
Definition ev (c : Call) (x : Resp c) : Event := existT c x.

Section Run.
Context {Sys : Type}.
(** The environment answers a call in a system state and moves the
    system on. *)
Variable env : ∀ c : Call, Sys → Resp c * Sys.

Fixpoint run {R} (p : Prog R) (s : Sys) : R * Sys * list Event :=
  match p with
  | Ret r => (r, s, [])
  | Vis c k =>
    let '(x, s) := env c s in
    let '(r, s, t) := run (k x) s in
    (r, s, ev c x :: t)
  end.
End Run.

(** *** The construction protocol

    The protocol of section 4.2 of the specification, as the set of
    traces (calls with their answers) and results it allows, for a remote
    store [st0] and options [caching] that enable the cache. *)
Section Protocol.
Variables (st0 : Storage) (caching : CachingOptions).

Definition blocksDir : string :=
  filepath_Join (CacheDirectory caching) "blocks".

Definition blocksOptions : filesystemOptions :=
  mkFilesystemOptions blocksDir [2%Z].

Definition engine (cacheStorage : Storage) : localStorageCache :=
  mkLocalStorageCache st0 cacheStorage (MaxCacheSizeBytes caching)
    (HMACSecret caching)
    (wrap64 (MaxListCacheDurationSec caching * second)).

(** Step 1: ensure the directory exists.  [Some err]: creation failed. *)
Inductive EnsureDir : list Event → option Err → Prop :=
| ensure_present statErr :
    isNotExist statErr = false →
    EnsureDir [ev (os_Stat blocksDir) statErr] None
| ensure_create statErr mkdirErr :
    isNotExist statErr = true →
    EnsureDir [ev (os_Stat blocksDir) statErr;
               ev (os_MkdirAll blocksDir 448) mkdirErr] mkdirErr.

(** Step 3: drop the cached index listing when asked to. *)
Definition purge (c : localStorageCache) : list Event :=
  if IgnoreListCache caching then [ev (deleteListCache c) tt] else [].

Inductive Construction : list Event → Err + blockCache → Prop :=
| construction_mkdir_fails t err :
    EnsureDir t (Some err) →
    Construction t (inl err)
| construction_open_fails t err :
    EnsureDir t None →
    Construction (t ++ [ev (filesystem_New blocksOptions) (inl err)])
                 (inl err)
| construction_sweep_fails t cacheStorage err :
    EnsureDir t None →
    Construction
      (t ++ [ev (filesystem_New blocksOptions) (inr cacheStorage)]
         ++ purge (engine cacheStorage)
         ++ [ev (sweepDirectory (engine cacheStorage)) (Some err)])
      (inl err)
| construction_started t cacheStorage :
    EnsureDir t None →
    Construction
      (t ++ [ev (filesystem_New blocksOptions) (inr cacheStorage)]
         ++ purge (engine cacheStorage)
         ++ [ev (sweepDirectory (engine cacheStorage)) None;
             ev (go_sweepDirectoryPeriodically (engine cacheStorage)) tt])
      (inr (localCache (engine cacheStorage))).
End Protocol.

End Model.

Arguments Ret {Storage IndexInfo Err R} r.
Arguments Vis {Storage IndexInfo Err R} c k.

(** A concrete system for examples: storages are numbered, every call
    succeeds, and the state counts the calls answered so far. *)
Module Example.
Definition env (c : @Call nat) : nat → @Resp nat unit string c * nat :=
  match c with
  | os_Stat _ => λ n, (Some "stat: no such file or directory", S n)
  | os_MkdirAll _ _ => λ n, (None, S n)
  | filesystem_New _ => λ n, (inr 7, S n)
  | deleteListCache _ => λ n, (tt, S n)
  | sweepDirectory _ => λ n, (None, S n)
  | go_sweepDirectoryPeriodically _ => λ n, (tt, S n)
  | st_GetBlock _ _ _ _ => λ n, (inr [], S n)
  | listIndexBlocksFromStorage _ => λ n, (inr [], S n)
  end.

Definition join (a b : string) : string := a +:+ "/" +:+ b.
Definition notExist (e : string) : bool :=
  bool_decide (e = "stat: no such file or directory").

Definition disabled : CachingOptions := mkCachingOptions "/var/cache" 0 30 false [].
Definition enabled : CachingOptions := mkCachingOptions "/var/cache" 4096 30 true [1%Z].
End Example.

End Block.

(** * Theorems *)

(** ** The directory-listing cache: single calls *)

Section FscacheCalls.
Import Fscache.
Context {Entry Err World : Type}.
Variable Now : World → Z.

Abbreviation Cache := (@Cache Entry).
Abbreviation Loader := (@Loader Entry Err World).
Abbreviation GetEntries := (@GetEntries Entry Err World Now).
Abbreviation GetEntries_miss := (@GetEntries_miss Entry Err World Now).
Abbreviation Reachable := (@Reachable Entry Err World Now).

Implicit Types (c : Cache) (a v : addr) (e p : ptr) (cb : Loader) (w : World).

Lemma samePayload_refl c : samePayload c c.
Proof. by split. Qed.

Lemma samePayload_trans c1 c2 c3 :
  samePayload c1 c2 → samePayload c2 c3 → samePayload c1 c3.
Proof.
  intros [L1 H1] [L2 H2]. split; [congruence|].
  intros x. destruct (H1 x) as (?&?&?), (H2 x) as (?&?&?).
  repeat split; congruence.
Qed.

Lemma deref_store_next a n c x :
  deref (store_next a n c) x
  = if decide (a = x ∧ a < length (heap c))
    then set_next n (deref c a) else deref c x.
Proof. apply list_lookup_total_alter. Qed.

Lemma deref_store_prev a q c x :
  deref (store_prev a q c) x
  = if decide (a = x ∧ a < length (heap c))
    then set_prev q (deref c a) else deref c x.
Proof. apply list_lookup_total_alter. Qed.

Lemma samePayload_store_next a n c : samePayload c (store_next a n c).
Proof.
  split; [apply length_alter|]. intros x. rewrite deref_store_next.
  case_decide as H; [destruct H as [-> _]|]; done.
Qed.

Lemma samePayload_store_prev a q c : samePayload c (store_prev a q c).
Proof.
  split; [apply length_alter|]. intros x. rewrite deref_store_prev.
  case_decide as H; [destruct H as [-> _]|]; done.
Qed.

(** [remove] never fails on a non-nil pointer and touches nothing but
    links, [head] and [tail]. *)
Lemma remove_frame a c :
  ∃ c', remove (Some a) c = Some c'
        ∧ locked c' = locked c
        ∧ totalDirectoryEntries c' = totalDirectoryEntries c
        ∧ maxDirectories c' = maxDirectories c
        ∧ maxDirectoryEntries c' = maxDirectoryEntries c
        ∧ data c' = data c
        ∧ samePayload c c'.
Proof.
  eexists. split; [reflexivity|].
  set (c1 := match prev (deref c a) with
             | None => set_head (next (deref c a)) c
             | Some q => store_next q (next (deref c a)) c
             end).
  assert (locked c1 = locked c
          ∧ totalDirectoryEntries c1 = totalDirectoryEntries c
          ∧ maxDirectories c1 = maxDirectories c
          ∧ maxDirectoryEntries c1 = maxDirectoryEntries c
          ∧ data c1 = data c ∧ samePayload c c1) as (H1&H2&H3&H4&H5&H6).
  { subst c1. destruct (prev (deref c a)); split_and!; try done.
    apply samePayload_store_next. }
  rewrite <- H1, <- H2, <- H3, <- H4, <- H5.
  destruct (next (deref c1 a)) as [n|]; split_and!; try done.
  eapply samePayload_trans; [apply H6|]. apply samePayload_store_prev.
Qed.

Lemma removeEntryLocked_frame v c :
  ∃ c', removeEntryLocked (Some v) c = Some c'
        ∧ locked c' = locked c
        ∧ totalDirectoryEntries c'
          = wrap64 (totalDirectoryEntries c - len (entries (deref c v)))
        ∧ maxDirectories c' = maxDirectories c
        ∧ maxDirectoryEntries c' = maxDirectoryEntries c
        ∧ data c' = delete (id (deref c v)) (data c)
        ∧ samePayload c c'.
Proof.
  destruct (remove_frame v c) as (c1 & Hr & Hl & Ht & Hd & He & Hm & Hs).
  unfold removeEntryLocked. rewrite Hr. simpl.
  eexists. split; [reflexivity|]. unfold deref in *. simpl.
  pose proof Hs as [Hlen Hs']. destruct (Hs' v) as (Hid & Hen & _).
  unfold deref in *.
  rewrite Hid, Hen, Ht, Hm. by split_and!.
Qed.

Lemma remove_set_locked b e c :
  remove e (set_locked b c) = set_locked b <$> remove e c.
Proof.
  destruct e as [a|]; [|done].
  unfold remove, deref, store_next, store_prev. simpl.
  destruct (prev (heap c !!! a)); simpl;
    match goal with |- context [next ?x] => destruct (next x) end; done.
Qed.

Lemma removeEntryLocked_set_locked b e c :
  removeEntryLocked e (set_locked b c)
  = set_locked b <$> removeEntryLocked e c.
Proof.
  unfold removeEntryLocked. rewrite remove_set_locked.
  destruct (remove e c) as [c1|]; [|done]. simpl.
  by destruct e.
Qed.

Lemma addToHead_set_locked b e c :
  addToHead e (set_locked b c) = set_locked b <$> addToHead e c.
Proof.
  destruct e as [a|]; [|done]. unfold addToHead. simpl.
  by destruct (head c).
Qed.

Lemma moveToHead_set_locked b e c :
  moveToHead e (set_locked b c) = set_locked b <$> moveToHead e c.
Proof.
  unfold moveToHead. simpl. case_decide; [done|].
  rewrite remove_set_locked. destruct (remove e c) as [c1|]; [|done].
  simpl. apply addToHead_set_locked.
Qed.

Lemma addToHead_frame a c :
  ∃ c', addToHead (Some a) c = Some c'
        ∧ locked c' = locked c
        ∧ totalDirectoryEntries c' = totalDirectoryEntries c
        ∧ maxDirectories c' = maxDirectories c
        ∧ maxDirectoryEntries c' = maxDirectoryEntries c
        ∧ data c' = data c
        ∧ samePayload c c'.
Proof.
  unfold addToHead. destruct (head c) as [h|] eqn:Hh.
  - eexists. split; [reflexivity|]. split_and!; try done.
    eapply samePayload_trans; [apply (samePayload_store_next a (Some h))|].
    split; [apply length_alter|]. intros x.
    apply (samePayload_store_prev h (Some a) (store_next a (Some h) c)).
  - eexists. split; [reflexivity|]. split_and!; try done.
Qed.

Lemma moveToHead_frame a c :
  ∃ c', moveToHead (Some a) c = Some c'
        ∧ locked c' = locked c
        ∧ totalDirectoryEntries c' = totalDirectoryEntries c
        ∧ maxDirectories c' = maxDirectories c
        ∧ maxDirectoryEntries c' = maxDirectoryEntries c
        ∧ data c' = data c
        ∧ samePayload c c'.
Proof.
  unfold moveToHead. case_decide.
  { exists c. split_and!; try done. }
  destruct (remove_frame a c) as (c1 & -> & H1 & H2 & H3 & H4 & H5 & H6).
  destruct (addToHead_frame a c1) as (c2 & Ha & G1 & G2 & G3 & G4 & G5 & G6).
  exists c2. split; [exact Ha|]. split_and!; try congruence.
  by eapply samePayload_trans.
Qed.

Lemma Unlock_Lock c : locked c = false → Unlock (Lock c) = c.
Proof. destruct c; simpl; by intros ->. Qed.

Lemma lookupEntry_Some c id v :
  lookupEntry c id = Some v ↔ id ≠ "" ∧ data c !! id = Some v.
Proof.
  unfold lookupEntry. destruct (decide (id = "")) as [->|Hne].
  - split; [done|]. by intros [? _].
  - split; [done|]. by intros [_ ?].
Qed.

(** What a call does when it finds its entry expired: the entry is taken
    out by [removeEntryLocked], with the mutex held. *)
Lemma expired_removed c id w v :
  locked c = false → Keyed c → expired Now c id w = Some v →
  ∃ c1, removeEntryLocked (Some v) c = Some c1
        ∧ removeEntryLocked (Some v) (Lock c) = Some (Lock c1)
        ∧ locked c1 = false
        ∧ data c1 = delete id (data c)
        ∧ totalDirectoryEntries c1
          = wrap64 (totalDirectoryEntries c - len (entries (deref c v)))
        ∧ maxDirectoryEntries c1 = maxDirectoryEntries c
        ∧ maxDirectories c1 = maxDirectories c
        ∧ samePayload c c1.
Proof.
  intros Hl Hk He. unfold expired in He.
  destruct (lookupEntry c id) as [v'|] eqn:Hlook; [|done]. simpl in He.
  destruct (Now w <? expireAfter (deref c v'))%Z; [done|].
  injection He as ->. apply lookupEntry_Some in Hlook as [_ Hd].
  destruct (Hk _ _ Hd) as [_ Hid].
  destruct (removeEntryLocked_frame v c)
    as (c1 & Hr & H1 & H2 & H3 & H4 & H5 & H6).
  exists c1. unfold Lock. rewrite removeEntryLocked_set_locked, Hr.
  split_and!; try done; congruence.
Qed.

(** The path taken by [GetEntries] on an unlocked cache. *)
Lemma GetEntries_hit fuel c id exp cb w v :
  locked c = false → hit Now c id w = Some v →
  ∃ c', moveToHead (Some v) c = Some c'
        ∧ GetEntries fuel (Some c) id exp cb w
          = Returned ((entries (deref c v), None), Some c', w).
Proof.
  intros Hl Hh. unfold hit in Hh. unfold Fscache.GetEntries. rewrite Hl.
  change (lookupEntry (Lock c) id) with (lookupEntry c id).
  destruct (lookupEntry c id) as [v'|]; [|done]. simpl in Hh.
  change (deref (Lock c) v') with (deref c v').
  destruct (Now w <? expireAfter (deref c v'))%Z; [|done].
  injection Hh as ->.
  destruct (moveToHead_frame v c) as (c' & Hm & H1 & _ & _ & _ & _ & H6).
  exists c'. split; [done|].
  unfold Lock. rewrite moveToHead_set_locked, Hm. simpl.
  destruct H6 as [_ H6]. destruct (H6 v) as (_ & He & _).
  change (deref (set_locked true c') v) with (deref c' v). rewrite He.
  do 3 f_equal. destruct c'; simpl in *. by rewrite H1, Hl.
Qed.

Lemma GetEntries_no_entry fuel c id exp cb w :
  locked c = false → lookupEntry c id = None →
  GetEntries fuel (Some c) id exp cb w
  = GetEntries_miss fuel (Lock c) id exp cb w.
Proof.
  intros Hl Hn. unfold Fscache.GetEntries. rewrite Hl.
  change (lookupEntry (Lock c) id) with (lookupEntry c id). by rewrite Hn.
Qed.

Lemma GetEntries_expired fuel c id exp cb w v c1 :
  locked c = false → expired Now c id w = Some v →
  removeEntryLocked (Some v) (Lock c) = Some c1 →
  GetEntries fuel (Some c) id exp cb w
  = GetEntries_miss fuel c1 id exp cb w.
Proof.
  intros Hl He Hr. unfold expired in He. unfold Fscache.GetEntries.
  rewrite Hl. change (lookupEntry (Lock c) id) with (lookupEntry c id).
  destruct (lookupEntry c id) as [v'|]; [|done]. simpl in He.
  change (deref (Lock c) v') with (deref c v').
  destruct (Now w <? expireAfter (deref c v'))%Z; [done|].
  injection He as ->. by rewrite Hr.
Qed.

Lemma hit_expired_cases c id w :
  (∃ v, hit Now c id w = Some v ∧ expired Now c id w = None)
  ∨ (∃ v, hit Now c id w = None ∧ expired Now c id w = Some v)
  ∨ (hit Now c id w = None ∧ expired Now c id w = None
     ∧ lookupEntry c id = None).
Proof.
  unfold hit, expired. destruct (lookupEntry c id) as [v|]; simpl.
  - destruct (Now w <? expireAfter (deref c v))%Z; eauto.
  - eauto.
Qed.

(** C4 (amended).  When the loader fails, its error is what the caller
    gets, with no entries; no cache entry is allocated and no map record
    is added.  If the identifier had no expired entry, map, list, links
    and counter are what they were before the call; if it had one, they
    are what [removeEntryLocked] makes of them: the expired entry's map
    record is gone and the counter is lower by its entry count. *)
Theorem GetEntries_loader_failure fuel c id exp cb w raw err w' :
  locked c = false → Keyed c → hit Now c id w = None →
  cb w = ((raw, Some err), w') →
  ∃ c', GetEntries fuel (Some c) id exp cb w
        = Returned (([], Some err), Some c', w')
    ∧ length (heap c') = length (heap c)
    ∧ data c' ⊆ data c
    ∧ match expired Now c id w with
      | None => Unlock c' = c
      | Some v =>
          removeEntryLocked (Some v) c = Some (Unlock c')
          ∧ data c' = delete id (data c)
          ∧ totalDirectoryEntries c'
            = wrap64 (totalDirectoryEntries c - len (entries (deref c v)))
      end.
Proof.
  intros Hl Hk Hh Hcb.
  destruct (hit_expired_cases c id w)
    as [(v & Hv & _)|[(v & _ & He)|(_ & He & Hn)]]; [congruence| |].
  - destruct (expired_removed c id w v Hl Hk He)
      as (c1 & Hr & Hr' & Hl1 & Hd & Ht & _ & _ & [Hlen _]).
    exists (Lock c1).
    rewrite (GetEntries_expired fuel c id exp cb w v _ Hl He Hr').
    unfold Fscache.GetEntries_miss. rewrite Hcb, He.
    split_and!; try done.
    + simpl. rewrite Hd. apply delete_subseteq.
    + by rewrite Unlock_Lock.
  - exists (Lock c). rewrite (GetEntries_no_entry fuel c id exp cb w Hl Hn).
    unfold Fscache.GetEntries_miss. rewrite Hcb, He.
    split_and!; try done. by apply Unlock_Lock.
Qed.

(** C5 (amended).  For an entry cached under a non-empty identifier: a
    call before its expiration time returns the stored payload, leaves
    the world as it is (the loader does not run) and promotes the entry
    with [moveToHead]; a call at or after its expiration time first
    takes the entry out with [removeEntryLocked] (map record deleted,
    counter lowered by its entry count) and then runs the loader on
    that state, whose error or oversized result is what the caller
    gets. *)
Theorem GetEntries_expiration fuel c id v exp cb w :
  locked c = false → Keyed c → id ≠ "" → data c !! id = Some v →
  ((Now w < expireAfter (deref c v))%Z →
     ∃ c', moveToHead (Some v) c = Some c'
       ∧ GetEntries fuel (Some c) id exp cb w
         = Returned ((entries (deref c v), None), Some c', w))
  ∧ ((expireAfter (deref c v) ≤ Now w)%Z →
     ∃ c1, removeEntryLocked (Some v) (Lock c) = Some c1
       ∧ data c1 = delete id (data c)
       ∧ totalDirectoryEntries c1
         = wrap64 (totalDirectoryEntries c - len (entries (deref c v)))
       ∧ GetEntries fuel (Some c) id exp cb w
         = GetEntries_miss fuel c1 id exp cb w
       ∧ (∀ raw err w', cb w = ((raw, Some err), w') →
            GetEntries fuel (Some c) id exp cb w
            = Returned (([], Some err), Some c1, w'))
       ∧ (∀ raw w', cb w = ((raw, None), w') →
            (maxDirectoryEntries c < len raw)%Z →
            GetEntries fuel (Some c) id exp cb w
            = Returned ((raw, None), Some (Unlock c1), w'))).
Proof.
  intros Hl Hk Hid Hd.
  assert (lookupEntry c id = Some v) as Hlook by by apply lookupEntry_Some.
  split; intros Ht.
  - apply GetEntries_hit; [done|]. unfold hit. rewrite Hlook. simpl.
    by rewrite (proj2 (Z.ltb_lt _ _) Ht).
  - assert (expired Now c id w = Some v) as He.
    { unfold expired. rewrite Hlook. simpl.
      by rewrite (proj2 (Z.ltb_ge _ _) Ht). }
    destruct (expired_removed c id w v Hl Hk He)
      as (c1 & Hr & Hr' & Hl1 & Hd1 & Ht1 & Hm & _ & _).
    exists (Lock c1).
    pose proof (GetEntries_expired fuel c id exp cb w v _ Hl He Hr') as Hg.
    split_and!; try done.
    + intros raw err w' Hcb. rewrite Hg.
      unfold Fscache.GetEntries_miss. by rewrite Hcb.
    + intros raw w' Hcb Hbig. rewrite Hg.
      unfold Fscache.GetEntries_miss. rewrite Hcb.
      change (maxDirectoryEntries (Lock c1)) with (maxDirectoryEntries c1).
      rewrite Hm. by rewrite (proj2 (Z.ltb_lt _ _) Hbig).
Qed.

(** C7.  When the loader succeeds with more entries than
    [maxDirectoryEntries], the call returns them and unlocks, allocates
    no cache entry and adds no map record, and a later call for the same
    identifier, at any time, finds no entry and goes to its loader. *)
Theorem GetEntries_oversize fuel c id exp cb w raw w' :
  locked c = false → Keyed c → hit Now c id w = None →
  cb w = ((raw, None), w') → (maxDirectoryEntries c < len raw)%Z →
  ∃ c', GetEntries fuel (Some c) id exp cb w
        = Returned ((raw, None), Some c', w')
    ∧ locked c' = false
    ∧ length (heap c') = length (heap c)
    ∧ data c' ⊆ data c
    ∧ lookupEntry c' id = None
    ∧ (∀ w2, hit Now c' id w2 = None)
    ∧ (∀ fuel2 exp2 cb2 w2,
         GetEntries fuel2 (Some c') id exp2 cb2 w2
         = GetEntries_miss fuel2 (Lock c') id exp2 cb2 w2).
Proof.
  intros Hl Hk Hh Hcb Hbig.
  assert (∃ c1, GetEntries fuel (Some c) id exp cb w
                = GetEntries_miss fuel (Lock c1) id exp cb w
            ∧ locked c1 = false
            ∧ maxDirectoryEntries c1 = maxDirectoryEntries c
            ∧ length (heap c1) = length (heap c)
            ∧ data c1 ⊆ data c
            ∧ lookupEntry c1 id = None) as (c1 & Hg & Hl1 & Hm & Hlen & Hsub & Hn).
  { destruct (hit_expired_cases c id w)
      as [(v & Hv & _)|[(v & _ & He)|(_ & He & Hn)]]; [congruence| |].
    - destruct (expired_removed c id w v Hl Hk He)
        as (c1 & Hr & Hr' & Hl1 & Hd & Ht & Hm & _ & [Hlen _]).
      exists c1. split_and!; try done.
      + by apply GetEntries_expired with v.
      + rewrite Hd. apply delete_subseteq.
      + unfold lookupEntry. case_decide; [done|].
        rewrite Hd. apply lookup_delete_eq.
    - exists c. split_and!; try done. by apply GetEntries_no_entry. }
  exists c1. rewrite Hg. unfold Fscache.GetEntries_miss at 1. rewrite Hcb.
  change (maxDirectoryEntries (Lock c1)) with (maxDirectoryEntries c1).
  rewrite Hm, (proj2 (Z.ltb_lt _ _) Hbig), Unlock_Lock by done.
  split_and!; try done.
  - intros w2. unfold hit. by rewrite Hn.
  - intros. by apply GetEntries_no_entry.
Qed.

(** The mutex after a failing loader (the general fact behind C10):
    the call returns with the mutex held, and every later call blocks. *)
Lemma GetEntries_failure_holds_lock fuel c id exp cb w raw err w' :
  locked c = false → Keyed c → hit Now c id w = None →
  cb w = ((raw, Some err), w') →
  ∃ c', GetEntries fuel (Some c) id exp cb w
        = Returned (([], Some err), Some c', w')
    ∧ locked c' = true
    ∧ ∀ fuel2 id2 exp2 cb2 w2,
        GetEntries fuel2 (Some c') id2 exp2 cb2 w2 = Blocked.
Proof.
  intros Hl Hk Hh Hcb.
  assert (∃ c1, GetEntries fuel (Some c) id exp cb w
                = GetEntries_miss fuel (Lock c1) id exp cb w) as [c1 Hg].
  { destruct (hit_expired_cases c id w)
      as [(v & Hv & _)|[(v & _ & He)|(_ & He & Hn)]]; [congruence| |].
    - destruct (expired_removed c id w v Hl Hk He) as (c1 & _ & Hr' & _).
      exists c1. by apply GetEntries_expired with v.
    - exists c. by apply GetEntries_no_entry. }
  exists (Lock c1). rewrite Hg. unfold Fscache.GetEntries_miss. rewrite Hcb.
  split_and!; try done.
Qed.
(** [Readdir] goes through the cache, for 24 hours, when the directory has
    an object identifier, and past it otherwise: the cache is then left as
    it is, locked or not. *)
Lemma Readdir_cases fuel (c : option Cache) (d : Directory) w :
  match objectID d with
  | Some cacheID =>
      Readdir Now fuel c d w
      = GetEntries fuel c cacheID 86400000000000 (dirReaddir d) w
  | None =>
      Readdir Now fuel c d w
      = Returned ((dirReaddir d w).1, c, (dirReaddir d w).2)
  end.
Proof.
  unfold Readdir. destruct (objectID d); [done|].
  by destruct (dirReaddir d w).
Qed.

(** *** Map records carry their key: an invariant of every call *)

Lemma Keyed_frame c c' :
  Keyed c → samePayload c c' → data c' ⊆ data c → Keyed c'.
Proof.
  intros Hk [Hlen Hs] Hsub k v Hd.
  destruct (Hk k v) as [Hv Hid]; [by eapply lookup_weaken|].
  destruct (Hs v) as (Hid' & _). split; congruence.
Qed.

Lemma Keyed_removeEntryLocked e c c' :
  Keyed c → removeEntryLocked e c = Some c' → Keyed c'.
Proof.
  intros Hk Hr. destruct e as [v|]; [|by destruct (remove None c)].
  destruct (removeEntryLocked_frame v c)
    as (c1 & Hr1 & _ & _ & _ & _ & Hd & Hs).
  assert (c1 = c') as -> by congruence.
  apply (Keyed_frame c c' Hk Hs). rewrite Hd. apply delete_subseteq.
Qed.

Lemma Keyed_evict fuel c c' :
  Keyed c → evict fuel c = Returned c' → Keyed c'.
Proof.
  revert c. induction fuel as [|fuel IH]; intros c Hk; simpl;
    destruct (overBudget c); try done; try (by intros [= <-]).
  destruct (removeEntryLocked (tail c) c) as [c1|] eqn:Hr; [|done].
  apply IH. by eapply Keyed_removeEntryLocked.
Qed.

Lemma Keyed_insert c id exp raw (t : Z) c2 :
  Keyed c →
  addToHead (Some (length (heap c)))
    (set_heap (heap c ++ [mkCacheEntry id None None exp raw]) c) = Some c2 →
  Keyed (set_total t (set_data (<[id := length (heap c)]> (data c2)) c2)).
Proof.
  intros Hk Ha.
  set (a := length (heap c)) in *.
  set (c0 := set_heap (heap c ++ [mkCacheEntry id None None exp raw]) c) in *.
  destruct (addToHead_frame a c0) as (c2' & Ha' & _ & _ & _ & _ & Hd & Hlen & Hs).
  assert (Some c2' = Some c2) as [= ->] by (rewrite <- Ha'; exact Ha).
  intros k v. cbn [data heap set_total set_data]. rewrite Hd.
  change (deref (set_total t (set_data (<[id:=a]> (data c0)) c2)) v)
    with (deref c2 v).
  destruct (Hs v) as (-> & _). rewrite Hlen.
  unfold c0, deref; cbn [heap set_heap data]. rewrite length_app. simpl.
  destruct (decide (k = id)) as [->|Hne].
  - rewrite lookup_insert_eq. intros [= <-]. split; [lia|].
    unfold a. by rewrite list_lookup_total_middle.
  - rewrite lookup_insert_ne by done. intros Hv.
    destruct (Hk k v Hv) as [Hlt Hid]. split; [lia|].
    by rewrite lookup_total_app_l.
Qed.

Lemma Keyed_GetEntries_miss fuel c id exp cb w r c' w' :
  Keyed c →
  GetEntries_miss fuel c id exp cb w = Returned (r, Some c', w') →
  Keyed c'.
Proof.
  intros Hk. unfold Fscache.GetEntries_miss.
  destruct (cb w) as [[raw [err|]] w1]; [by intros [= _ <- _]|].
  destruct (maxDirectoryEntries c <? len raw)%Z; [by intros [= _ <- _]|].
  destruct (addToHead _ _) as [c2|] eqn:Ha; [|done]. cbn [orPanic obind].
  destruct (evict fuel _) as [c5| | |] eqn:He; try done. cbn [obind].
  intros [= _ <- _]. change (Keyed c5).
  apply (Keyed_evict _ _ _ (Keyed_insert _ _ _ _ _ _ Hk Ha) He).
Qed.

Lemma Keyed_GetEntries fuel c id exp cb w r c' w' :
  Keyed c →
  GetEntries fuel (Some c) id exp cb w = Returned (r, Some c', w') →
  Keyed c'.
Proof.
  intros Hk. unfold Fscache.GetEntries.
  destruct (locked c); [done|].
  destruct (lookupEntry (Lock c) id) as [v|];
    [|by apply Keyed_GetEntries_miss].
  destruct (Now w <? expireAfter (deref (Lock c) v))%Z.
  - destruct (moveToHead_frame v (Lock c))
      as (c1 & -> & _ & _ & _ & _ & Hd & Hs).
    cbn [orPanic obind]. intros [= _ <- _].
    apply (Keyed_frame (Lock c) (Unlock c1) Hk Hs).
    by rewrite <- Hd.
  - destruct (removeEntryLocked (Some v) (Lock c)) as [c1|] eqn:Hr; [|done].
    cbn [orPanic obind]. apply Keyed_GetEntries_miss.
    by apply (Keyed_removeEntryLocked (Some v) (Lock c) c1 Hk).
Qed.

Lemma Keyed_holds c :
  map_Forall (λ k v, v < length (heap c) ∧ id (deref c v) = k) (data c) →
  Keyed c.
Proof. done. Qed.

Lemma Reachable_Keyed maxEntries maxDirs c :
  Reachable maxEntries maxDirs c → Keyed c.
Proof.
  induction 1 as [|c fuel id exp cb w r c' w' _ IH Hg].
  - intros k v Hd. change (data _) with (∅ : gmap string addr) in Hd.
    by apply lookup_empty_Some in Hd.
  - by eapply Keyed_GetEntries.
Qed.
End FscacheCalls.

(** ** The directory-listing cache: the access-order list *)

Section FscacheList.
Import Fscache.
Context {Entry : Type}.

Abbreviation cacheEntry := (@cacheEntry Entry).
Abbreviation Cache := (@Cache Entry).

Implicit Types (c : Cache) (h : list cacheEntry) (a b v : addr) (p q : ptr)
  (l : list addr).

Lemma seg_lt h p l q a : seg h p l q → a ∈ l → a < length h.
Proof.
  revert p. induction l as [|b l IH]; intros p Hs Ha; [by inv Ha|].
  destruct Hs as (Hb & _ & _ & Hs).
  apply elem_of_cons in Ha as [->|Ha]; [done|]. by eapply IH.
Qed.

(** Entries outside a segment do not matter to it. *)
Lemma seg_frame h h' p l q :
  length h ≤ length h' → (∀ a, a ∈ l → h' !!! a = h !!! a) →
  seg h p l q → seg h' p l q.
Proof.
  intros Hlen. revert p. induction l as [|b l IH]; intros p Hsame Hs; [done|].
  destruct Hs as (Hb & Hp & Hn & Hs). simpl.
  rewrite Hsame by apply list_elem_of_here.
  split_and!; [lia|done|done|].
  apply IH; [|done]. intros a Ha. apply Hsame. by apply list_elem_of_further.
Qed.

Lemma seg_alter_notin f h p l q a :
  a ∉ l → seg h p l q → seg (alter f a h) p l q.
Proof.
  intros Ha. apply seg_frame; [by rewrite length_alter|].
  intros b Hb. apply list_lookup_total_alter_ne. by intros ->.
Qed.

Lemma lastOr_nil p : lastOr [] p = p.
Proof. done. Qed.

Lemma lastOr_cons a l p : lastOr (a :: l) p = lastOr l (Some a).
Proof.
  unfold lastOr. rewrite last_cons. by destruct (last l).
Qed.

Lemma lastOr_snoc l b p : lastOr (l ++ [b]) p = Some b.
Proof. unfold lastOr. by rewrite last_snoc. Qed.

Lemma seg_app h p l1 l2 q :
  seg h p (l1 ++ l2) q
  ↔ seg h p l1 (firstOr l2 q) ∧ seg h (lastOr l1 p) l2 q.
Proof.
  revert p. induction l1 as [|a l1 IH]; intros p; simpl.
  - rewrite lastOr_nil. tauto.
  - rewrite lastOr_cons, IH.
    assert (firstOr (l1 ++ l2) q = firstOr l1 (firstOr l2 q)) as ->
      by by destruct l1.
    tauto.
Qed.

(** Redirecting the [next] pointer of the last entry of a segment. *)
Lemma seg_set_next_last h p l b q q' :
  b ∉ l → seg h p (l ++ [b]) q →
  seg (alter (set_next q') b h) p (l ++ [b]) q'.
Proof.
  intros Hb. rewrite !seg_app. intros [H1 H2]. split.
  - by apply seg_alter_notin.
  - destruct H2 as (Hlt & Hp & _ & _). simpl.
    rewrite length_alter, list_lookup_total_alter_eq by done.
    by split_and!.
Qed.

(** Redirecting the [prev] pointer of the first entry of a segment. *)
Lemma seg_set_prev_first h p n l q p' :
  n ∉ l → seg h p (n :: l) q →
  seg (alter (set_prev p') n h) p' (n :: l) q.
Proof.
  intros Hn (Hlt & _ & Hnext & Hs). simpl.
  rewrite length_alter, list_lookup_total_alter_eq by done.
  split_and!; try done. by apply seg_alter_notin.
Qed.
(** [remove] unlinks an entry from any position of the list, provided
    that, when it is the first entry, its [prev] pointer is nil. *)
Lemma Chain_remove c p l1 v l2 :
  Chain c p (l1 ++ v :: l2) → (l1 = [] → p = None) →
  ∃ c', remove (Some v) c = Some c' ∧ Chain c' p (l1 ++ l2).
Proof.
  intros [Hnd Hh Ht Hs] Hp.
  apply seg_app in Hs as [Hs1 (Hv & Hprev & Hnext & Hs2)].
  apply NoDup_app in Hnd as (Hnd1 & Hdisj & Hnd2).
  apply NoDup_cons in Hnd2 as [Hv2 Hnd2].
  assert (v ∉ l1) as Hv1.
  { intros Hin. apply (Hdisj v Hin), list_elem_of_here. }
  assert (∀ x, x ∈ l1 → x ∉ l2) as Hdisj2.
  { intros x Hx Hx2. apply (Hdisj x Hx). by apply list_elem_of_further. }
  eexists. split; [reflexivity|]. unfold deref.
  destruct l1 as [|b l1 _] using rev_ind.
  - (* [v] is the first entry *)
    rewrite (Hp eq_refl) in *. rewrite lastOr_nil in Hprev.
    rewrite Hprev. cbn [heap set_head]. rewrite Hnext, Hprev.
    destruct l2 as [|n l2]; cbn [firstOr app].
    + by split.
    + apply NoDup_cons in Hnd2 as [Hn Hnd2].
      split; cbn [head tail heap store_prev set_heap set_head]; try done.
      * by apply NoDup_cons.
      * by apply seg_set_prev_first with (Some v).
  - (* [v] follows [b] *)
    rewrite lastOr_snoc in Hprev. rewrite Hprev.
    cbn [heap store_next set_heap].
    assert (b ≠ v) as Hbv.
    { intros ->. apply Hv1, elem_of_app. right. apply list_elem_of_here. }
    rewrite !list_lookup_total_alter_ne by done. rewrite Hnext, Hprev.
    apply NoDup_app in Hnd1 as (Hnd1 & Hb1 & _).
    assert (b ∉ l1) as Hb.
    { intros Hin. apply (Hb1 b Hin), list_elem_of_here. }
    assert (head c = (l1 ++ [b]) !! 0) as Hh'.
    { rewrite Hh. rewrite <- !head_lookup. by destruct l1. }
    pose proof (seg_set_next_last _ _ _ _ _ (firstOr l2 None) Hb Hs1) as Hs1'.
    destruct l2 as [|n l2]; cbn [firstOr] in *.
    + rewrite app_nil_r.
      split; cbn [head tail heap set_tail store_next set_heap]; try done.
      * apply NoDup_app. split_and!; try done. apply NoDup_singleton.
      * by rewrite last_snoc.
    + apply NoDup_cons in Hnd2 as [Hn Hnd2].
      assert (n ∉ l1 ++ [b]) as Hn1.
      { intros Hin. apply (Hdisj2 n Hin), list_elem_of_here. }
      split; cbn [head tail heap store_prev store_next set_heap]; try done.
      * apply NoDup_app. split_and!; try done.
        -- apply NoDup_app. split_and!; try done. apply NoDup_singleton.
        -- by apply NoDup_cons.
      * rewrite Hh'. rewrite <- !head_lookup. by destruct l1.
      * rewrite Ht. by rewrite !last_app_cons.
      * apply seg_app. rewrite lastOr_snoc. split.
        -- by apply seg_alter_notin.
        -- apply seg_set_prev_first with (Some v); [done|].
           apply seg_alter_notin; [|done].
           apply Hdisj2, elem_of_app. right. apply list_elem_of_here.
Qed.
(** [addToHead] links an allocated entry that is not in the list before
    the first one; its own [prev] pointer is left as it is. *)
Lemma Chain_addToHead c p l a :
  Chain c p l → a ∉ l → a < length (heap c) →
  (l = [] → next (deref c a) = None) →
  ∃ c', addToHead (Some a) c = Some c'
        ∧ Chain c' (prev (deref c a)) (a :: l).
Proof.
  intros [Hnd Hh Ht Hs] Ha Hlt Hnil. unfold addToHead, deref in *.
  destruct l as [|b l]; simpl in Hh; rewrite Hh.
  - eexists. split; [reflexivity|].
    split; cbn [head tail heap set_head set_tail]; try done.
    + apply NoDup_singleton.
    + simpl. split_and!; try done. by apply Hnil.
  - eexists. split; [reflexivity|].
    apply not_elem_of_cons in Ha as [Hab Ha].
    pose proof Hnd as [Hb Hnd']%NoDup_cons.
    split; cbn [head tail heap set_head store_prev store_next set_heap].
    + apply NoDup_cons. split; [|done]. by apply not_elem_of_cons.
    + done.
    + by rewrite Ht, last_cons_cons.
    + apply (seg_app _ _ [a] (b :: l)). split.
      * cbn [seg firstOr]. rewrite !length_alter.
        rewrite list_lookup_total_alter_ne by done.
        rewrite list_lookup_total_alter_eq by done.
        by split_and!.
      * apply seg_set_prev_first with p; [done|].
        apply seg_alter_notin; [|done]. by apply not_elem_of_cons.
Qed.

Lemma Chain_lt c p l a : Chain c p l → a ∈ l → a < length (heap c).
Proof. intros [_ _ _ Hs]. by apply seg_lt with p None. Qed.

Lemma Chain_length c p l : Chain c p l → length l ≤ length (heap c).
Proof.
  intros Hc.
  transitivity (length (seq 0 (length (heap c)))); [|by rewrite length_seq].
  apply submseteq_length, NoDup_submseteq; [apply Hc|].
  intros a Ha. apply elem_of_seq. pose proof (Chain_lt _ _ _ _ Hc Ha). lia.
Qed.

Lemma walk_seg n c p l :
  seg (heap c) p l None → length l ≤ n → walk n c (firstOr l None) = l.
Proof.
  revert n p. induction l as [|a l IH]; intros n p Hs Hn.
  - by destruct n.
  - destruct n as [|n]; [simpl in Hn; lia|].
    destruct Hs as (_ & _ & Hnext & Hs). simpl.
    unfold deref. rewrite Hnext. f_equal. apply (IH n (Some a)); [done|].
    simpl in Hn. lia.
Qed.

(** The list that [next] pointers spell out is the abstract one. *)
Lemma Chain_order c p l : Chain c p l → order c = l.
Proof.
  intros Hc. unfold order. destruct Hc as [Hnd Hh Ht Hs] eqn:E.
  rewrite Hh. replace (l !! 0) with (firstOr l None) by by destruct l.
  apply walk_seg with p; [done|]. by apply Chain_length with p.
Qed.

(** A chain depends on [head], [tail] and the heap alone. *)
Lemma Chain_ext c c' p l :
  head c' = head c → tail c' = tail c → heap c' = heap c →
  Chain c p l → Chain c' p l.
Proof. intros Hh Ht Hp [? ? ? ?]. split; congruence. Qed.
(** *** Counting entries *)

Lemma wrap64_small z : (- 2 ^ 63 ≤ z < 2 ^ 63)%Z → wrap64 z = z.
Proof. intros H. unfold wrap64. rewrite Z.mod_small; lia. Qed.

Lemma cost_app c l1 l2 : cost c (l1 ++ l2) = (cost c l1 + cost c l2)%Z.
Proof. induction l1 as [|a l1 IH]; simpl; [done|]. rewrite IH. lia. Qed.

Lemma cost_nonneg c l : (0 ≤ cost c l)%Z.
Proof. induction l as [|a l IH]; simpl; unfold len; lia. Qed.

Lemma cost_ext c c' l :
  (∀ a, a ∈ l → entries (deref c' a) = entries (deref c a)) →
  cost c' l = cost c l.
Proof.
  induction l as [|a l IH]; intros Hs; simpl; [done|].
  rewrite Hs by apply list_elem_of_here. rewrite IH; [done|].
  intros b Hb. apply Hs. by apply list_elem_of_further.
Qed.

Lemma cost_frame c c' l : samePayload c c' → cost c' l = cost c l.
Proof. intros [_ Hs]. apply cost_ext. intros a _. apply Hs. Qed.

Lemma cost_take_le c l k : (cost c (take k l) ≤ cost c l)%Z.
Proof.
  rewrite <- (take_drop k l) at 2. rewrite cost_app.
  pose proof (cost_nonneg c (drop k l)). lia.
Qed.

(** *** Map, list and counter under the list operations *)

Lemma removeEntryLocked_remove v c c1 :
  remove (Some v) c = Some c1 →
  ∃ c', removeEntryLocked (Some v) c = Some c'
        ∧ head c' = head c1 ∧ tail c' = tail c1 ∧ heap c' = heap c1.
Proof.
  intros Hr. unfold removeEntryLocked. rewrite Hr. simpl.
  eexists. by split.
Qed.

Lemma Linked_removeEntryLocked c p l1 v l2 :
  Linked c p (l1 ++ v :: l2) → (l1 = [] → p = None) →
  (totalDirectoryEntries c < 2 ^ 63)%Z →
  ∃ c', removeEntryLocked (Some v) c = Some c'
        ∧ Linked c' p (l1 ++ l2)
        ∧ locked c' = locked c
        ∧ maxDirectories c' = maxDirectories c
        ∧ maxDirectoryEntries c' = maxDirectoryEntries c
        ∧ samePayload c c'.
Proof.
  intros [Hc Hd Hsz Ht] Hp Hbound.
  destruct (Chain_remove c p l1 v l2 Hc Hp) as (c1 & Hr & Hc1).
  destruct (removeEntryLocked_remove v c c1 Hr) as (c' & Hrl & Hh' & Ht' & Hp').
  destruct (removeEntryLocked_frame v c)
    as (c'' & Hrl' & Hl & Htot & HmD & HmE & Hdata & Hs).
  assert (c'' = c') as -> by congruence.
  exists c'. split_and!; try done.
  pose proof (chain_nodup _ _ _ Hc) as Hnd.
  apply NoDup_app in Hnd as (Hnd1 & Hdisj & Hnd2).
  apply NoDup_cons in Hnd2 as [Hv2 Hnd2].
  assert (v ∉ l1 ++ l2) as Hv.
  { intros [Hin|Hin]%elem_of_app; [|done].
    apply (Hdisj v Hin), list_elem_of_here. }
  assert (data c !! id (deref c v) = Some v) as Hdv.
  { apply Hd. split; [|done]. apply elem_of_app. right. apply list_elem_of_here. }
  assert (∀ a, a ∈ l1 ++ l2 → a ∈ l1 ++ v :: l2) as Hsub.
  { intros a [Hin|Hin]%elem_of_app; apply elem_of_app; [by left|].
    right. by apply list_elem_of_further. }
  destruct Hs as [Hlen Hpay].
  split.
  - by apply (Chain_ext c1 c').
  - intros k a. rewrite Hdata, lookup_delete_Some, Hd.
    destruct (Hpay a) as (-> & _). split.
    + intros (Hk & Hin & Hid). split; [|done].
      apply elem_of_app in Hin as [Hin|Hin]; apply elem_of_app; [by left|].
      right. apply elem_of_cons in Hin as [->|Hin]; [done|done].
    + intros (Hin & Hid). split_and!; [|by apply Hsub|done].
      intros Hk. assert (data c !! k = Some a) as Hda.
      { apply Hd. split; [by apply Hsub|done]. }
      rewrite <- Hk in Hda. assert (a = v) as -> by congruence. done.
  - rewrite Hdata, map_size_delete_Some by eauto. rewrite Hsz.
    rewrite !length_app. simpl. lia.
  - rewrite Htot, (cost_frame c c' _ (conj Hlen Hpay)).
    rewrite Ht, !cost_app in *. simpl in *.
    pose proof (cost_nonneg c l1). pose proof (cost_nonneg c l2).
    unfold len in *. rewrite wrap64_small; lia.
Qed.
(** The insertion steps of [GetEntries]: allocate the entry, link it
    before the first one, record it in the map, add its entry count. *)
Lemma Linked_insert c p l id exp raw :
  Linked c p l → data c !! id = None →
  (totalDirectoryEntries c + len raw < 2 ^ 63)%Z →
  ∃ c2,
    addToHead (Some (length (heap c)))
      (set_heap (heap c ++ [mkCacheEntry id None None exp raw]) c) = Some c2
    ∧ ∀ c4,
        c4 = set_total (wrap64 (totalDirectoryEntries c2 + len raw))
               (set_data (<[id := length (heap c)]> (data c2)) c2) →
        Linked c4 None (length (heap c) :: l)
        ∧ locked c4 = locked c
        ∧ maxDirectories c4 = maxDirectories c
        ∧ maxDirectoryEntries c4 = maxDirectoryEntries c
        ∧ entries (deref c4 (length (heap c))) = raw
        ∧ (∀ x, x < length (heap c) →
                entries (deref c4 x) = entries (deref c x)).
Proof.
  intros [Hc Hd Hsz Ht] Hfresh Hbound.
  set (a := length (heap c)).
  set (e := mkCacheEntry id None None exp raw).
  set (c0 := set_heap (heap c ++ [e]) c).
  assert (∀ x, x < a → deref c0 x = deref c x) as Hold.
  { intros x Hx. unfold deref, c0. simpl. by apply lookup_total_app_l. }
  assert (deref c0 a = e) as Hnew.
  { unfold deref, c0, a. simpl. by rewrite list_lookup_total_middle. }
  assert (∀ x, x ∈ l → x < a) as Hlt by (intros x; apply (Chain_lt c p l x Hc)).
  assert (a ∉ l) as Ha by (intros Hin; specialize (Hlt a Hin); lia).
  assert (Chain c0 p l) as Hc0.
  { destruct Hc as [Hnd Hh Htl Hs]. split; try done.
    revert Hs. apply seg_frame; simpl; [rewrite length_app; lia|].
    intros x Hx. apply (Hold x (Hlt x Hx)). }
  destruct (Chain_addToHead c0 p l a Hc0 Ha) as (c2 & Hadd & Hc2).
  { unfold c0. simpl. rewrite length_app. simpl. lia. }
  { intros _. by rewrite Hnew. }
  rewrite Hnew in Hc2. simpl in Hc2.
  destruct (addToHead_frame a c0)
    as (c2' & Hadd' & Hl & Htot & HmD & HmE & Hdata & Hlen & Hpay).
  assert (c2' = c2) as -> by congruence.
  exists c2. split; [done|]. intros c4 ->.
  assert (∀ x, deref (set_total (wrap64 (totalDirectoryEntries c2 + len raw))
                        (set_data (<[id:=a]> (data c2)) c2)) x = deref c2 x)
    as Hd4 by done.
  assert (∀ x, x ∈ l → entries (deref c2 x) = entries (deref c x)
                       ∧ Fscache.id (deref c2 x) = Fscache.id (deref c x)) as Hkeep.
  { intros x Hx. destruct (Hpay x) as (-> & -> & _).
    by rewrite (Hold x (Hlt x Hx)). }
  split_and!; try done.
  - split.
    + by apply (Chain_ext c2).
    + intros k x. rewrite Hd4. cbn [data set_total set_data]. rewrite Hdata.
      change (data c0) with (data c). rewrite lookup_insert_Some, Hd.
      split.
      * intros [[<- <-]|(Hne & Hin & Hid)].
        -- split; [apply list_elem_of_here|].
           destruct (Hpay a) as (-> & _). by rewrite Hnew.
        -- split; [by apply list_elem_of_further|].
           by rewrite (proj2 (Hkeep x Hin)).
      * intros [[->|Hin]%elem_of_cons Hid].
        -- left. split; [|done]. destruct (Hpay a) as (Hida & _).
           rewrite <- Hid, Hida. by rewrite Hnew.
        -- right. rewrite (proj2 (Hkeep x Hin)) in Hid.
           assert (data c !! k = Some x) as Hdx by (by apply Hd).
           split_and!; try done. intros <-. congruence.
    + cbn [data set_total set_data]. rewrite Hdata.
      change (data c0) with (data c).
      rewrite map_size_insert_None by done. simpl. by rewrite Hsz.
    + change (cost ?c4 (a :: l))
        with (len (entries (deref c4 a)) + cost c4 l)%Z.
      rewrite Hd4.
      rewrite (cost_ext c _ l) by (intros x Hx; rewrite Hd4; apply (Hkeep x Hx)).
      destruct (Hpay a) as (_ & -> & _). rewrite Hnew.
      cbn [entries e totalDirectoryEntries set_total].
      rewrite Htot.
      change (totalDirectoryEntries c0) with (totalDirectoryEntries c).
      pose proof (cost_nonneg c l). unfold len in *.
      rewrite wrap64_small; lia.
  - rewrite Hd4. destruct (Hpay a) as (_ & -> & _). by rewrite Hnew.
  - intros x Hx. rewrite Hd4. destruct (Hpay x) as (_ & -> & _).
    by rewrite Hold.
Qed.
(** [moveToHead] brings a cached entry to the front and keeps the others
    in their order. *)
Lemma Linked_moveToHead c p l v :
  Linked c p l → v ∈ l →
  ∃ c' p' l1 l2, l = l1 ++ v :: l2
    ∧ moveToHead (Some v) c = Some c'
    ∧ Linked c' p' (v :: l1 ++ l2)
    ∧ locked c' = locked c
    ∧ maxDirectories c' = maxDirectories c
    ∧ maxDirectoryEntries c' = maxDirectoryEntries c
    ∧ samePayload c c'.
Proof.
  intros Hl Hv. pose proof Hl as [Hc Hd Hsz Ht].
  apply list_elem_of_split in Hv as (l1 & l2 & ->).
  destruct (moveToHead_frame v c)
    as (c' & Hm & Hlk & Htot & HmD & HmE & Hdata & Hs).
  pose proof (chain_nodup _ _ _ Hc) as Hnd.
  apply NoDup_app in Hnd as (Hnd1 & Hdisj & Hnd2).
  apply NoDup_cons in Hnd2 as [Hv2 Hnd2].
  assert (v ∉ l1) as Hv1.
  { intros Hin. apply (Hdisj v Hin), list_elem_of_here. }
  destruct l1 as [|b l1].
  - (* already first *)
    exists c, p, [], l2. unfold moveToHead.
    rewrite (chain_head _ _ _ Hc). simpl.
    rewrite decide_True by done.
    split_and!; try done.
  - exists c'. pose proof Hm as Hm0. unfold moveToHead in Hm.
    assert (head c = Some b) as Hhb by by rewrite (chain_head _ _ _ Hc).
    rewrite Hhb, decide_False in Hm
      by (intros [= ->]; apply Hv1, list_elem_of_here).
    destruct (Chain_remove c p (b :: l1) v l2 Hc) as (c1 & Hr & Hc1); [done|].
    rewrite Hr in Hm. cbn [mbind option_bind] in Hm.
    destruct (remove_frame v c) as (c1' & Hr' & _ & _ & _ & _ & _ & Hlen1 & _).
    assert (c1' = c1) as -> by congruence.
    destruct (Chain_addToHead c1 p ((b :: l1) ++ l2) v Hc1) as (c2 & Ha & Hc2).
    { intros [Hin|Hin]%elem_of_app; done. }
    { rewrite Hlen1. apply (Chain_lt c p _ v Hc), elem_of_app. right.
      apply list_elem_of_here. }
    { done. }
    assert (c2 = c') as -> by congruence.
    exists (prev (deref c1 v)), (b :: l1), l2.
    split_and!; try done.
    split; [done| | |].
    + intros k a. rewrite Hdata, Hd. destruct Hs as [_ Hs].
      destruct (Hs a) as (-> & _).
      rewrite !elem_of_cons, !elem_of_app, !elem_of_cons. tauto.
    + rewrite Hdata, Hsz. simpl. rewrite !length_app. simpl. lia.
    + rewrite Htot, Ht, (cost_frame c c' _ Hs).
      change (cost c (v :: (b :: l1) ++ l2))
        with (len (entries (deref c v)) + cost c ((b :: l1) ++ l2))%Z.
      rewrite !cost_app.
      change (cost c (v :: l2))
        with (len (entries (deref c v)) + cost c l2)%Z.
      lia.
Qed.

Lemma overBudget_false c p l :
  Linked c p l → overBudget c = false ↔ fits c l.
Proof.
  intros [_ _ Hsz Ht]. unfold overBudget, fits. rewrite <- Ht, <- Hsz.
  rewrite orb_false_iff, !Z.ltb_ge. done.
Qed.

Lemma fits_frame c c' l :
  samePayload c c' → maxDirectories c' = maxDirectories c →
  maxDirectoryEntries c' = maxDirectoryEntries c →
  fits c' l ↔ fits c l.
Proof.
  intros Hs HmD HmE. unfold fits. by rewrite (cost_frame c c' l Hs), HmD, HmE.
Qed.

(** The eviction loop on a list whose first entry has a nil [prev]: it
    returns, keeps the longest prefix of the list that fits both bounds
    and takes the rest out of list, map and counter. *)
Lemma evict_Linked fuel c l :
  Linked c None l →
  (0 ≤ maxDirectories c)%Z → (0 ≤ maxDirectoryEntries c)%Z →
  (totalDirectoryEntries c < 2 ^ 63)%Z → length l ≤ fuel →
  ∃ c' k, evict fuel c = Returned c'
    ∧ k ≤ length l
    ∧ Linked c' None (take k l)
    ∧ fits c' (take k l)
    ∧ (k = length l ∨ ¬ fits c' (take (S k) l))
    ∧ locked c' = locked c
    ∧ maxDirectories c' = maxDirectories c
    ∧ maxDirectoryEntries c' = maxDirectoryEntries c
    ∧ samePayload c c'.
Proof.
  revert c l. induction fuel as [|fuel IH]; intros c l Hl HmD HmE Hbound Hfuel.
  - destruct l; [|simpl in Hfuel; lia].
    assert (overBudget c = false) as Hob.
    { apply (overBudget_false c None []); [done|]. split; simpl; lia. }
    assert (fits c []) as Hf by by apply (overBudget_false c None []).
    exists c, 0. simpl. rewrite Hob. split_and!; try done.
    all: first [by left | apply samePayload_refl].
  - simpl. destruct (overBudget c) eqn:Hob.
    + destruct l as [|t l0 _] using rev_ind.
      { assert (overBudget c = false) as Hob'; [|congruence].
        apply (overBudget_false c None []); [done|]. split; simpl; lia. }
      rewrite (chain_tail _ _ _ (linked_chain _ _ _ Hl)), last_snoc.
      destruct (Linked_removeEntryLocked c None l0 t [] Hl (λ _, eq_refl) Hbound)
        as (c1 & -> & Hl1 & Hlk & HmD1 & HmE1 & Hs1).
      rewrite app_nil_r in Hl1.
      assert (totalDirectoryEntries c1 ≤ totalDirectoryEntries c)%Z as Hle.
      { rewrite (linked_total _ _ _ Hl1), (linked_total _ _ _ Hl).
        rewrite (cost_frame c c1 l0 Hs1), cost_app.
        pose proof (cost_nonneg c [t]). lia. }
      destruct (IH c1 l0 Hl1) as (c' & k & He & Hk & Hl' & Hf & Hmin & Hlk' & HmD' & HmE' & Hs');
        [lia|lia|lia|rewrite length_app in Hfuel; simpl in Hfuel; lia|].
      assert (samePayload c c') as Hs by by eapply samePayload_trans.
      exists c', k. rewrite length_app. simpl.
      rewrite take_app_le by done.
      split_and!; try done; try lia; try congruence.
      right. destruct (decide (k = length l0)) as [->|Hne].
      * replace (S (length l0)) with (length (l0 ++ [t]))
          by (rewrite length_app; simpl; lia).
        rewrite firstn_all.
        rewrite (fits_frame c c') by congruence.
        rewrite <- (overBudget_false c None) by done. congruence.
      * destruct Hmin as [?|Hmin]; [done|].
        rewrite take_app_le by lia. done.
    + assert (fits c l) as Hf by by apply (overBudget_false c None l).
      exists c, (length l). rewrite firstn_all.
      split_and!; try done.
      all: first [by left | apply samePayload_refl].
Qed.
Lemma remove_set_total t e c :
  remove e (set_total t c) = set_total t <$> remove e c.
Proof.
  destruct e as [a|]; [|done].
  unfold remove, deref, store_next, store_prev. simpl.
  destruct (prev (heap c !!! a)); simpl;
    match goal with |- context [next ?x] => destruct (next x) end; done.
Qed.

(** When [tail] points at an entry whose removal changes neither the
    list nor the map, and the map is over its bound, the eviction loop
    does not end: each round changes the counter alone. *)
Lemma evict_stuck fuel c a :
  tail c = Some a → remove (Some a) c = Some c →
  delete (id (deref c a)) (data c) = data c →
  (maxDirectories c < Z.of_nat (size (data c)))%Z →
  ∀ t, evict fuel (set_total t c) = OutOfFuel.
Proof.
  intros Htail Hrem Hdel Hover.
  induction fuel as [|fuel IH]; intros t; simpl; unfold overBudget; simpl;
    rewrite (proj2 (Z.ltb_lt _ _) Hover), orb_true_r; [done|].
  rewrite Htail. unfold removeEntryLocked.
  rewrite remove_set_total, Hrem. simpl.
  change (deref (set_total ?t' (set_total t c)) a) with (deref c a).
  rewrite Hdel.
  match goal with
  | |- evict fuel ?c' = _ =>
      replace c' with (set_total (wrap64 (t - len (entries (deref c a)))) c)
        by by destruct c
  end.
  apply IH.
Qed.

(** A loop that ends within [fuel] iterations ends the same way with
    more. *)
Lemma evict_mono fuel fuel' c c' :
  evict fuel c = Returned c' → fuel ≤ fuel' → evict fuel' c = Returned c'.
Proof.
  revert fuel' c. induction fuel as [|fuel IH]; intros fuel' c; simpl.
  - destruct (overBudget c) eqn:Hob; [done|]. intros [= <-] _.
    destruct fuel'; simpl; by rewrite Hob.
  - destruct (overBudget c) eqn:Hob.
    + destruct (removeEntryLocked (tail c) c) as [c1|] eqn:Hr; [|done].
      intros He Hle. destruct fuel' as [|fuel']; [lia|]. simpl.
      rewrite Hob, Hr. apply IH; [done|lia].
    + intros [= <-] _. destruct fuel'; simpl; by rewrite Hob.
Qed.

Lemma cost_Permutation c l l' : l ≡ₚ l' → cost c l = cost c l'.
Proof.
  induction 1 as [|a l l' _ IH|a b l|l1 l2 l3 _ IH1 _ IH2]; simpl;
    [done|by rewrite IH|lia|congruence].
Qed.

(** In a linked cache the values of the map are the entries of the list,
    so the counter is the sum of the cached entry counts. *)
Lemma Linked_cachedCost c p l :
  Linked c p l → cachedCost c = totalDirectoryEntries c.
Proof.
  intros Hl. rewrite (linked_total _ _ _ Hl). unfold cachedCost.
  apply cost_Permutation, NoDup_Permutation.
  - apply NoDup_fmap_2_strong; [|apply NoDup_map_to_list].
    intros [k a] [k' a'] Hin Hin' Heq. simpl in Heq. subst a'.
    apply elem_of_map_to_list, (linked_data _ _ _ Hl) in Hin as [_ <-].
    by apply elem_of_map_to_list, (linked_data _ _ _ Hl) in Hin' as [_ <-].
  - apply (chain_nodup _ _ _ (linked_chain _ _ _ Hl)).
  - intros a. rewrite list_elem_of_fmap. split.
    + intros ([k a'] & -> & Hin). simpl.
      by apply elem_of_map_to_list, (linked_data _ _ _ Hl) in Hin as [Hin _].
    + intros Hin. exists (id (deref c a), a). split; [done|].
      by apply elem_of_map_to_list, (linked_data _ _ _ Hl).
Qed.

Lemma Linked_set_locked (k : bool) c p l :
  Linked c p l → Linked (set_locked k c) p l.
Proof. intros [[? ? ? ?] ? ? ?]. by split; [split|..]. Qed.

Lemma Linked_lt c p l a : Linked c p l → a ∈ l → a < length (heap c).
Proof. intros [Hc _ _ _]. by apply Chain_lt with p. Qed.

Lemma Linked_order c p l : Linked c p l → order c = l.
Proof. intros [Hc _ _ _]. by apply Chain_order with p. Qed.
End FscacheList.

(** ** The directory-listing cache: insertion, promotion, eviction *)

Section FscacheLru.
Import Fscache.
Context {Entry Err World : Type}.
Variable Now : World → Z.

Abbreviation GetEntries' := (@GetEntries Entry Err World Now).
Abbreviation GetEntries_miss' := (@GetEntries_miss Entry Err World Now).
Abbreviation Filled' := (@Filled Entry Err World Now).

Implicit Types (c : @Fscache.Cache Entry) (l : list addr)
  (cb : @Fscache.Loader Entry Err World) (w : World).

Lemma GetEntries_miss_mono fuel fuel' c id exp cb w r :
  GetEntries_miss' fuel c id exp cb w = Returned r → fuel ≤ fuel' →
  GetEntries_miss' fuel' c id exp cb w = Returned r.
Proof.
  unfold Fscache.GetEntries_miss. destruct (cb w) as [[raw [err|]] w1]; [done|].
  destruct (maxDirectoryEntries c <? len raw)%Z; [done|].
  destruct (addToHead _ _) as [c2|]; [|done]. cbn [orPanic obind].
  destruct (evict fuel _) as [c5| | |] eqn:He; try done.
  intros Hr Hle. by rewrite (evict_mono fuel fuel' _ c5 He Hle).
Qed.

Lemma GetEntries_mono fuel fuel' c id exp cb w r :
  GetEntries' fuel (Some c) id exp cb w = Returned r → fuel ≤ fuel' →
  GetEntries' fuel' (Some c) id exp cb w = Returned r.
Proof.
  unfold Fscache.GetEntries. destruct (locked c); [done|].
  destruct (lookupEntry (Lock c) id) as [v|];
    [|by apply GetEntries_miss_mono].
  destruct (Now w <? expireAfter (deref (Lock c) v))%Z; [done|].
  destruct (removeEntryLocked (Some v) (Lock c)) as [c1|]; [|done].
  cbn [orPanic obind]. by apply GetEntries_miss_mono.
Qed.

Lemma Inv_new maxEntries maxDirs :
  (0 ≤ maxDirs)%Z → (0 ≤ maxEntries < 2 ^ 62)%Z →
  Inv (Entry:=Entry) (NewCacheWith maxEntries maxDirs) [].
Proof.
  intros HmD HmE. split; try done; [|by split; simpl; try lia|by simpl; lia].
  exists None. split; try done.
  { split; try done. apply NoDup_nil_2. }
  intros k a. change (data _) with (∅ : gmap string addr).
  rewrite lookup_empty, elem_of_nil. by split; [|intros []].
Qed.

(** The loader call and the insertion, from a state whose map, list and
    counter agree and fit the bounds. *)
Lemma miss_Linked fuel c p l id exp cb w raw w' :
  Linked c p l → fits c l →
  (0 ≤ maxDirectories c)%Z → (maxDirectoryEntries c < 2 ^ 62)%Z →
  data c !! id = None → cb w = ((raw, None), w') →
  (len raw ≤ maxDirectoryEntries c)%Z → length l < fuel →
  ∃ c' k,
    GetEntries_miss' fuel c id exp cb w
    = Returned ((raw, None), Some c', w')
    ∧ Inv c' (take k (length (heap c) :: l))
    ∧ (k = S (length l) ∨ ¬ fits c' (take (S k) (length (heap c) :: l)))
    ∧ maxDirectories c' = maxDirectories c
    ∧ maxDirectoryEntries c' = maxDirectoryEntries c
    ∧ entries (deref c' (length (heap c))) = raw
    ∧ (∀ x, x < length (heap c) →
            entries (deref c' x) = entries (deref c x)).
Proof.
  intros Hl [Hf1 Hf2] HmD HmE Hfresh Hcb Hsmall Hfuel.
  unfold Fscache.GetEntries_miss. rewrite Hcb.
  rewrite (proj2 (Z.ltb_ge _ _) Hsmall).
  pose proof (cost_nonneg c l) as Hnn.
  assert (0 ≤ len raw)%Z as Hraw by (unfold len; lia).
  destruct (Linked_insert c p l id (Now w' + exp) raw Hl Hfresh)
    as (c2 & Hadd & Hins).
  { rewrite (linked_total _ _ _ Hl). lia. }
  rewrite Hadd. cbn [orPanic obind].
  set (c4 := set_total _ _) in *.
  destruct (Hins c4 eq_refl) as (Hl4 & Hlk4 & HmD4 & HmE4 & Hnew4 & Hold4).
  assert (cost c4 l = cost c l) as Hcost4.
  { apply cost_ext. intros x Hx. apply Hold4, (Linked_lt c p l x Hl Hx). }
  assert (totalDirectoryEntries c4 = len raw + cost c l)%Z as Htot4.
  { rewrite (linked_total _ _ _ Hl4). simpl. fold (cost c4 l).
    by rewrite Hnew4, Hcost4. }
  destruct (evict_Linked fuel c4 (length (heap c) :: l) Hl4)
    as (c5 & k & -> & Hk & Hl5 & Hf5 & Hmin & Hlk5 & HmD5 & HmE5 & Hs5);
    [lia|lia|lia|simpl; lia|].
  cbn [obind]. exists (Unlock c5), k.
  destruct Hs5 as [Hlen5 Hpay5].
  split_and!; try done.
  - split; try done; try (simpl; lia).
    exists None. by apply Linked_set_locked.
  - simpl. congruence.
  - simpl. congruence.
  - change (entries (deref c5 (length (heap c))) = raw).
    destruct (Hpay5 (length (heap c))) as (_ & -> & _). done.
  - intros x Hx. change (entries (deref c5 x) = entries (deref c x)).
    destruct (Hpay5 x) as (_ & -> & _). by apply Hold4.
Qed.

(** An insertion into a cache that satisfies the invariant. *)
Lemma Inv_insert fuel c l id exp cb w raw w' :
  Inv c l → data c !! id = None → cb w = ((raw, None), w') →
  (len raw ≤ maxDirectoryEntries c)%Z → length l < fuel →
  ∃ c' k,
    GetEntries' fuel (Some c) id exp cb w
    = Returned ((raw, None), Some c', w')
    ∧ Inv c' (take k (length (heap c) :: l))
    ∧ (k = S (length l) ∨ ¬ fits c' (take (S k) (length (heap c) :: l)))
    ∧ maxDirectories c' = maxDirectories c
    ∧ maxDirectoryEntries c' = maxDirectoryEntries c
    ∧ entries (deref c' (length (heap c))) = raw
    ∧ (∀ x, x < length (heap c) →
            entries (deref c' x) = entries (deref c x)).
Proof.
  intros [[p Hl] Hf Hlk HmD HmE] Hfresh Hcb Hsmall Hfuel.
  assert (lookupEntry c id = None) as Hlook.
  { unfold lookupEntry. by destruct (decide (id = "")). }
  rewrite (GetEntries_no_entry Now fuel c id exp cb w Hlk Hlook).
  by apply (miss_Linked fuel (Lock c) p l id exp cb w raw w'
              (Linked_set_locked true c p l Hl)).
Qed.

Lemma Linked_Keyed c p l : Linked c p l → Keyed c.
Proof.
  intros Hl k v Hd. apply (linked_data _ _ _ Hl) in Hd as [Hin Hid].
  split; [by apply (Linked_lt c p l)|done].
Qed.

(** The reload of an expired entry that [remove] can unlink. *)
Lemma Inv_expired fuel c l id exp cb w v raw w' :
  Inv c l → expired Now c id w = Some v →
  (head c = Some v → prev (deref c v) = None) →
  cb w = ((raw, None), w') → length l < fuel →
  ∃ c' l',
    GetEntries' fuel (Some c) id exp cb w
    = Returned ((raw, None), Some c', w')
    ∧ Inv c' l'
    ∧ maxDirectories c' = maxDirectories c
    ∧ maxDirectoryEntries c' = maxDirectoryEntries c.
Proof.
  intros [[p Hl] [Hf1 Hf2] Hlk HmD HmE] He Hsafe Hcb Hfuel.
  pose proof (Linked_Keyed c p l Hl) as Hk.
  destruct (expired_removed Now c id w v Hlk Hk He)
    as (c1 & Hr & Hr' & Hlk1 & Hd1 & _ & _ & _ & _).
  assert (v ∈ l) as Hv.
  { unfold expired in He.
    destruct (lookupEntry c id) as [v'|] eqn:Hlook; [|done].
    simpl in He. destruct (Now w <? _)%Z; [done|]. injection He as ->.
    apply lookupEntry_Some in Hlook as [_ Hd].
    by apply (linked_data _ _ _ Hl) in Hd as [Hin _]. }
  apply list_elem_of_split in Hv as (l1 & l2 & ->).
  destruct (Linked_removeEntryLocked c p l1 v l2 Hl)
    as (c1' & Hr1 & Hl1 & _ & HmD1 & HmE1 & Hs1).
  { intros ->.
    pose proof (Hsafe (chain_head _ _ _ (linked_chain _ _ _ Hl))) as Hp.
    destruct (linked_chain _ _ _ Hl) as [_ _ _ (_ & Hprev & _)].
    unfold deref in Hp. congruence. }
  { rewrite (linked_total _ _ _ Hl). lia. }
  assert (c1' = c1) as -> by congruence.
  assert (fits c1 (l1 ++ l2)) as Hf.
  { split.
    - rewrite (cost_frame c c1 _ Hs1), HmE1.
      rewrite cost_app in *. simpl in Hf1. unfold len in *. lia.
    - rewrite HmD1. rewrite !length_app in *. simpl in Hf2. lia. }
  assert (length (l1 ++ l2) < fuel) as Hfuel1.
  { rewrite !length_app in *. simpl in Hfuel. lia. }
  rewrite (GetEntries_expired Now fuel c id exp cb w v _ Hlk He Hr').
  destruct (decide (maxDirectoryEntries c1 < len raw)%Z) as [Hbig|Hsmall].
  - exists c1, (l1 ++ l2). unfold Fscache.GetEntries_miss. rewrite Hcb.
    change (maxDirectoryEntries (Lock c1)) with (maxDirectoryEntries c1).
    rewrite (proj2 (Z.ltb_lt _ _) Hbig), Unlock_Lock by done.
    split_and!; try done. split; try done; [by exists p|lia|lia].
  - destruct (miss_Linked fuel (Lock c1) p (l1 ++ l2) id exp cb w raw w'
                (Linked_set_locked true c1 p _ Hl1))
      as (c' & k & Hg & Hinv' & _ & HD' & HE' & _); try done.
    + simpl. lia.
    + simpl. lia.
    + simpl. rewrite Hd1. apply lookup_delete_eq.
    + simpl. lia.
    + exists c', (take k (length (heap (Lock c1)) :: l1 ++ l2)).
      split_and!; try done; simpl in *; congruence.
Qed.

(** A lookup served from a cache that satisfies the invariant. *)
Lemma Inv_hit fuel c l id exp cb w v :
  Inv c l → hit Now c id w = Some v →
  ∃ c' l1 l2, l = l1 ++ v :: l2
    ∧ GetEntries' fuel (Some c) id exp cb w
      = Returned ((entries (deref c v), None), Some c', w)
    ∧ Inv c' (v :: l1 ++ l2)
    ∧ maxDirectories c' = maxDirectories c
    ∧ maxDirectoryEntries c' = maxDirectoryEntries c
    ∧ samePayload c c'.
Proof.
  intros [[p Hl] Hf Hlk HmD HmE] Hh.
  assert (v ∈ l) as Hv.
  { unfold hit in Hh. destruct (lookupEntry c id) as [v'|] eqn:Hlook; [|done].
    simpl in Hh. destruct (Now w <? _)%Z; [|done]. injection Hh as ->.
    apply lookupEntry_Some in Hlook as [_ Hd].
    by apply (linked_data _ _ _ Hl) in Hd as [Hin _]. }
  destruct (GetEntries_hit Now fuel c id exp cb w v Hlk Hh) as (c' & Hm & Hg).
  destruct (Linked_moveToHead c p l v Hl Hv)
    as (c'' & p' & l1 & l2 & -> & Hm' & Hl' & Hlk' & HmD' & HmE' & Hs).
  assert (c'' = c') as -> by congruence.
  destruct (moveToHead_frame v c) as (c'' & Hm'' & _ & Htot & _ & _ & Hdata & _).
  assert (c'' = c') as -> by congruence.
  exists c', l1, l2. split_and!; try done.
  split; try congruence; [by exists p'|].
  apply (overBudget_false c' p'); [done|].
  apply (overBudget_false c p) in Hf; [|done].
  unfold overBudget in *. by rewrite Htot, HmD', HmE', Hdata.
Qed.

(** The invariant holds in every state reached by regular calls. *)
Lemma Filled_Inv maxEntries maxDirs c :
  (0 ≤ maxDirs)%Z → (0 ≤ maxEntries < 2 ^ 62)%Z →
  Filled' maxEntries maxDirs c →
  ∃ l, Inv c l ∧ maxDirectories c = maxDirs
       ∧ maxDirectoryEntries c = maxEntries.
Proof.
  intros HmD HmE.
  induction 1 as [|c fuel id exp cb w raw c' w' _ (l & Hinv & HD & HE) Hreg Hg].
  { exists []. split; [by apply Inv_new|done]. }
  pose proof (inv_unlocked _ _ Hinv) as Hlk.
  unfold Regular in Hreg.
  destruct (lookupEntry c id) as [v|] eqn:Hlook.
  - destruct (Now w <? expireAfter (deref c v))%Z eqn:Hnow.
    + (* served from the cache *)
      assert (hit Now c id w = Some v) as Hh.
      { unfold hit. rewrite Hlook. simpl. by rewrite Hnow. }
      destruct (Inv_hit fuel c l id exp cb w v Hinv Hh)
        as (c'' & l1 & l2 & -> & Hg' & Hinv' & HD' & HE' & _).
      rewrite Hg' in Hg. injection Hg as _ <- _.
      exists (v :: l1 ++ l2). split_and!; [done|congruence|congruence].
    + (* expired *)
      assert (expired Now c id w = Some v) as He.
      { unfold expired. rewrite Hlook. simpl. by rewrite Hnow. }
      destruct Hreg as [Hlt|Hsafe]; [apply Z.ltb_ge in Hnow; lia|].
      destruct (cb w) as [[raw0 err] w0] eqn:Hcb.
      destruct err as [err|].
      { destruct (inv_linked _ _ Hinv) as [p Hl].
        destruct (expired_removed Now c id w v Hlk (Linked_Keyed c p l Hl) He)
          as (c1 & _ & Hr' & _).
        rewrite (GetEntries_expired Now fuel c id exp cb w v _ Hlk He Hr') in Hg.
        unfold Fscache.GetEntries_miss in Hg. by rewrite Hcb in Hg. }
      destruct (Inv_expired (max fuel (S (length l))) c l id exp cb w v raw0 w0
                  Hinv He Hsafe Hcb)
        as (c'' & l' & Hg' & Hinv' & HD' & HE'); [lia|].
      rewrite (GetEntries_mono fuel (max fuel (S (length l))) _ _ _ _ _ _ Hg)
        in Hg' by lia.
      injection Hg' as _ <- _.
      exists l'. split_and!; [done|congruence|congruence].
  - rename Hreg into Hfresh.
    destruct (cb w) as [[raw0 err] w0] eqn:Hcb.
    destruct err as [err|].
    { rewrite (GetEntries_no_entry Now fuel c id exp cb w Hlk Hlook) in Hg.
      unfold Fscache.GetEntries_miss in Hg. by rewrite Hcb in Hg. }
    destruct (decide (maxDirectoryEntries c < len raw0)%Z) as [Hbig|Hsmall].
    + rewrite (GetEntries_no_entry Now fuel c id exp cb w Hlk Hlook) in Hg.
      unfold Fscache.GetEntries_miss in Hg. rewrite Hcb in Hg.
      change (maxDirectoryEntries (Lock c)) with (maxDirectoryEntries c) in Hg.
      rewrite (proj2 (Z.ltb_lt _ _) Hbig), Unlock_Lock in Hg by done.
      injection Hg as _ <- _. by exists l.
    + destruct (Inv_insert (max fuel (S (length l))) c l id exp cb w raw0 w0
                  Hinv Hfresh Hcb)
        as (c'' & k & Hg' & Hinv' & _ & HD' & HE' & _); [lia|lia|].
      rewrite (GetEntries_mono fuel (max fuel (S (length l))) _ _ _ _ _ _ Hg)
        in Hg' by lia.
      injection Hg' as _ <- _.
      exists (take k (length (heap c) :: l)).
      split_and!; [done|congruence|congruence].
Qed.

(** In these states the counter is the sum of the cached entry counts
    and both bounds hold. *)
Lemma Filled_counters maxEntries maxDirs c :
  (0 ≤ maxDirs)%Z → (0 ≤ maxEntries < 2 ^ 62)%Z →
  Filled' maxEntries maxDirs c →
  totalDirectoryEntries c = cachedCost c
  ∧ (totalDirectoryEntries c ≤ maxEntries)%Z
  ∧ (Z.of_nat (size (data c)) ≤ maxDirs)%Z.
Proof.
  intros HmD HmE Hfilled.
  destruct (Filled_Inv _ _ _ HmD HmE Hfilled)
    as (l & [[p Hl] [Hf1 Hf2] _ _ _] & HD & HE).
  split_and!.
  - symmetry. by apply Linked_cachedCost with p l.
  - rewrite (linked_total _ _ _ Hl). lia.
  - rewrite (linked_size _ _ _ Hl). lia.
Qed.

Lemma Inv_order c l : Inv c l → order c = l.
Proof. intros [[p Hl] _ _ _ _]. by apply Linked_order with p. Qed.

(** In a cache built with bounds [maxEntries] and [maxDirs] and filled by
    insertions and lookups, the insertion of an identifier that is not
    cached, with at most [maxEntries] entries, returns the loaded entries
    and leaves the cache as [Inserted] describes. *)
Lemma GetEntries_insert_evicts maxEntries maxDirs c fuel id exp cb w raw w' :
  (0 ≤ maxDirs)%Z → (0 ≤ maxEntries < 2 ^ 62)%Z →
  Filled' maxEntries maxDirs c →
  data c !! id = None → cb w = ((raw, None), w') →
  (len raw ≤ maxEntries)%Z → length (order c) < fuel →
  ∃ c' k,
    GetEntries' fuel (Some c) id exp cb w
    = Returned ((raw, None), Some c', w')
    ∧ Inserted maxEntries maxDirs c raw c' k
    ∧ Filled' maxEntries maxDirs c'.
Proof.
  intros HmD HmE Hfilled Hfresh Hcb Hsmall Hfuel.
  destruct (Filled_Inv _ _ _ HmD HmE Hfilled) as (l & Hinv & HD & HE).
  rewrite (Inv_order c l Hinv) in Hfuel.
  destruct (Inv_insert fuel c l id exp cb w raw w' Hinv Hfresh Hcb)
    as (c' & k & Hg & Hinv' & Hmin & HD' & HE' & Hnew & Hold); [lia|done|].
  exists c', k. unfold Inserted. rewrite (Inv_order c l Hinv).
  rewrite (Inv_order c' _ Hinv').
  pose proof Hinv' as [[p' Hl'] [Hf1 Hf2] Hlk' _ _].
  split_and!; try done.
  - rewrite (linked_total _ _ _ Hl'). lia.
  - rewrite (linked_size _ _ _ Hl'). lia.
  - apply (linked_total _ _ _ Hl').
  - apply (linked_size _ _ _ Hl').
  - apply (linked_data _ _ _ Hl').
  - intros Hpos. destruct k as [|k]; [|lia]. exfalso.
    destruct Hmin as [?|Hnot]; [done|]. apply Hnot.
    split; simpl; [|lia]. rewrite Hnew. lia.
  - apply (filled_call Now maxEntries maxDirs c fuel id exp cb w raw c' w'
             Hfilled); [|done].
    unfold Regular, lookupEntry.
    destruct (decide (id = "")); [done|by rewrite Hfresh].
Qed.
End FscacheLru.

(** ** The block cache constructor *)

Section BlockConstruction.
Import Block.
Context {Storage IndexInfo Err : Type}.
Variable filepath_Join : string → string → string.
Variable os_IsNotExist : Err → bool.

Abbreviation Call := (@Call Storage).
Abbreviation Resp := (@Resp Storage IndexInfo Err).
Abbreviation newBlockCache :=
  (@newBlockCache Storage IndexInfo Err filepath_Join os_IsNotExist).

Lemma newBlockCache_disabled (st : Storage) (caching : CachingOptions) :
  MaxCacheSizeBytes caching = 0%Z ∨ CacheDirectory caching = "" →
  newBlockCache st caching = Ret (inr (nullBlockCache st)).
Proof.
  intros H. unfold Block.newBlockCache.
  destruct H as [H|H]; rewrite H; simpl.
  - done.
  - by rewrite orb_true_r.
Qed.

(** C8.  With [MaxCacheSizeBytes = 0] or an empty [CacheDirectory],
    [newBlockCache] returns the disabled variant without making a single
    call (no directory, no local storage, no background sweep, the system
    state untouched); the disabled variant forwards [getContentBlock] and
    [listIndexBlocks] to the remote store in one call and hands back its
    answer as it is, and its [deleteListCache] and [close] make no call,
    [close] returning a nil error. *)
Theorem newBlockCache_null_variant (st : Storage) (caching : CachingOptions) :
  MaxCacheSizeBytes caching = 0%Z ∨ CacheDirectory caching = "" →
  ∀ (Sys : Type) (env : ∀ c : Call, Sys → Resp c * Sys) (s : Sys),
    run env (newBlockCache st caching) s = (inr (nullBlockCache st), s, [])
    ∧ (∀ cacheKey physicalBlockID offset length,
         run env (null_getContentBlock (IndexInfo:=IndexInfo) (Err:=Err)
                    st cacheKey physicalBlockID offset length) s
         = let c := st_GetBlock st physicalBlockID offset length in
           ((env c s).1, (env c s).2, [ev c (env c s).1]))
    ∧ run env (null_listIndexBlocks st) s
      = (let c := listIndexBlocksFromStorage st in
         ((env c s).1, (env c s).2, [ev c (env c s).1]))
    ∧ run env (null_deleteListCache (IndexInfo:=IndexInfo) (Err:=Err) st) s
      = (tt, s, [])
    ∧ run env (null_close (IndexInfo:=IndexInfo) st) s = (None, s, []).
Proof.
  intros H Sys env s. rewrite (newBlockCache_disabled _ _ H).
  repeat split; simpl; try done.
  - intros _ pid off n. by destruct (env _ s).
  - by destruct (env _ s).
Qed.

(** C9.  With a size budget and a cache directory configured, every run
    of [newBlockCache] follows the construction protocol: [os.Stat] on the
    [blocks] directory, [os.MkdirAll] exactly when the directory does not
    exist, [filesystem.New] on that path with [DirectoryShards = [2]],
    [deleteListCache] exactly when [IgnoreListCache] is set, one
    [sweepDirectory], and last the start of the periodic sweep together
    with the engine; a failing [MkdirAll], [filesystem.New] or
    [sweepDirectory] ends the run at that call with that error and no
    engine. *)
Theorem newBlockCache_protocol (st : Storage) (caching : CachingOptions) :
  MaxCacheSizeBytes caching ≠ 0%Z → CacheDirectory caching ≠ "" →
  ∀ (Sys : Type) (env : ∀ c : Call, Sys → Resp c * Sys) (s : Sys),
    let '(r, _, t) := run env (newBlockCache st caching) s in
    Construction filepath_Join os_IsNotExist st caching t r.
Proof.
  intros Hsize Hdir Sys env s. unfold Block.newBlockCache.
  rewrite !bool_decide_eq_false_2 by done. cbn [orb].
  fold (blocksDir filepath_Join caching).
  set (dir := blocksDir filepath_Join caching).
  pose proof (ensure_present (Storage:=Storage) (IndexInfo:=IndexInfo) filepath_Join
                os_IsNotExist caching) as Hpresent.
  pose proof (ensure_create (Storage:=Storage) (IndexInfo:=IndexInfo) filepath_Join
                os_IsNotExist caching) as Hcreate.
  pose proof (construction_open_fails (IndexInfo:=IndexInfo) filepath_Join os_IsNotExist
                st caching)
    as Hopen.
  pose proof (construction_sweep_fails (IndexInfo:=IndexInfo) filepath_Join os_IsNotExist
                st caching)
    as Hsweep.
  pose proof (construction_started (IndexInfo:=IndexInfo) filepath_Join os_IsNotExist
                st caching)
    as Hstarted.
  unfold purge in Hsweep, Hstarted. fold dir in Hpresent, Hcreate.
  cbn [mbind Prog_bind bind call run].
  destruct (env (os_Stat dir) s) as [statErr s1].
  destruct (isNotExist os_IsNotExist statErr) eqn:Hne;
    destruct (IgnoreListCache caching);
    repeat (cbn [mbind Prog_bind bind call run when];
            match goal with
            | |- context [env ?c ?s] =>
                let x := fresh "x" in
                destruct (env c s) as [x ?]; destruct x
            end);
    cbn [mbind Prog_bind bind call run when].
  all: try (apply construction_mkdir_fails; by apply Hcreate).
  all: try (by apply (Hopen [_; _]), Hcreate).
  all: try (by apply (Hopen [_]), Hpresent).
  all: try (by apply (Hsweep [_; _]), Hcreate).
  all: try (by apply (Hsweep [_]), Hpresent).
  all: try (by apply (Hstarted [_; _]), Hcreate).
  all: by apply (Hstarted [_]), Hpresent.
Qed.
End BlockConstruction.

(** ** The directory-listing cache: concrete runs *)

Section FscacheRuns.
Import Fscache Fscache.Example.

(** C10.  A call whose loader fails returns with the mutex still held:
    after [GetEntries("d1")] with a failing loader on a new cache the
    caller has the error, the cache is locked, and the next call blocks
    for ever. *)
Theorem GetEntries_failure_leaves_mutex_locked :
  holds (script 10 (cache 10 5) [getFailing "d1" 0])
    (λ c n rs, rs = [([], Some "boom")] ∧ n = 1 ∧ locked c = true)
  ∧ script 10 (cache 10 5) [getFailing "d1" 0; get "d2" 1 1] = Blocked.
Proof. by vm_compute. Qed.

(** C1.  The counter leaves the sum of the cached entry counts.  Two
    calls with the empty identifier and three entries each leave the
    counter at 6 while the map holds one entry of 3.  With identifiers
    [A], [B], [C], [D] only: after a lookup of [A] and its expiry, the
    last insertion leaves the counter at 3 = [maxDirectoryEntries] while
    the three cached directories hold 4 entries. *)
Theorem totalDirectoryEntries_drifts :
  holds (script 10 (cache 10 5) [get "" 3 0; get "" 3 0])
    (λ c _ _, totalDirectoryEntries c = 6%Z ∧ cachedCost c = 3%Z
              ∧ size (data c) = 1)
  ∧ holds (script 10 (cache 3 5)
             [get "A" 1 0; get "B" 1 0; get "A" 1 1; get "A" 1 20;
              get "C" 2 20; get "D" 1 20])
      (λ c _ _, totalDirectoryEntries c = 3%Z ∧ cachedCost c = 4%Z
                ∧ maxDirectoryEntries c = 3%Z ∧ size (data c) = 3).
Proof. by vm_compute. Qed.

(** C3.  Two entries for one identifier.  After two calls with the empty
    identifier the access-order list holds two entries with identifier
    [""] and the map one record; after [A], [B], a lookup of [A] and a
    reload of the expired [A], the list holds two entries with identifier
    [A]. *)
Theorem identifier_cached_twice :
  holds (script 10 (cache 10 5) [get "" 3 0; get "" 3 0])
    (λ c _ _, ids c (order c) = [""; ""] ∧ order c = [1; 0]
              ∧ data c = {[ "" := 1 ]})
  ∧ holds (script 10 (cache 10 5)
             [get "A" 1 0; get "B" 1 0; get "A" 1 1; get "A" 1 20])
      (λ c _ _, take 2 (ids c (order c)) = ["A"; "A"]
                ∧ take 2 (order c) = [2; 0]
                ∧ data c !! "A" = Some 2).
Proof. by vm_compute. Qed.

(** C2.  Removal of a promoted entry does not unlink it.  [A] and [B]
    are inserted and [A] is looked up, which moves it to the head and
    leaves its [prev] pointing at [B].  When [A] is then found expired
    (the loader's result is too large to cache), [remove] leaves [head]
    at the removed [A] and makes [B] its own [prev] and [next].  When
    [B] expires first and [A], the sole element, after it, [head] and
    [tail] are not reset to nil: they keep pointing at the removed [A]
    and [B] while the map is empty. *)
Theorem remove_after_promotion_corrupts_list :
  holds (script 10 (cache 10 5)
           [get "A" 1 0; get "B" 1 0; get "A" 1 1; get "A" 11 20])
    (λ c _ _, data c = {[ "B" := 1 ]}
              ∧ head c = Some 0 ∧ tail c = Some 1
              ∧ id (deref c 0) = "A"
              ∧ prev (deref c 1) = Some 1 ∧ next (deref c 1) = Some 1)
  ∧ holds (script 10 (cache 10 5)
             [get "A" 1 0; get "B" 1 0; get "A" 1 1; get "B" 11 20;
              get "A" 11 20])
      (λ c _ _, data c = ∅ ∧ totalDirectoryEntries c = 0%Z
                ∧ head c = Some 0 ∧ tail c = Some 1).
Proof. by vm_compute. Qed.

(** The promotion scenario of C2, which the code gets right: after
    inserting [A], [B], [C] and looking up [A], the insertion of [D]
    that needs room for one entry evicts [B]. *)
Lemma promotion_protects_from_eviction :
  holds (script 10 (cache 10 3)
           [get "A" 1 0; get "B" 1 0; get "C" 1 0; get "A" 1 1; get "D" 1 2])
    (λ c n _, ids c (order c) = ["D"; "A"; "C"] ∧ n = 4
              ∧ data c !! "B" = None ∧ data c !! "A" = Some 0).
Proof. by vm_compute. Qed.

(** Where the corrupted list leads: after [A], [B], a lookup of [A], a
    reload of the expired [A] and an insertion of [C], with room for two
    directories, [tail] points at the removed [B], which is its own [prev]
    and [next].  The insertion of [D] then runs the eviction loop on that
    entry for ever, with the mutex held: no number of iterations lets the
    call return. *)
Lemma GetEntries_never_returns :
  ∀ fuel,
    GetEntries now fuel
      (Some (after 10 (cache 10 2)
               [get "A" 1 0; get "B" 1 0; get "A" 1 1; get "A" 1 20;
                get "C" 1 20]))
      "D" 10 (load 1) (20%Z, 5)
    = OutOfFuel.
Proof.
  intros fuel.
  set (c5 := after 10 (cache 10 2) _).
  assert (locked c5 = false) as Hlk by by vm_compute.
  assert (lookupEntry c5 "D" = None) as Hlook by by vm_compute.
  rewrite (GetEntries_no_entry now fuel c5 "D" 10 (load 1) (20%Z, 5) Hlk Hlook).
  unfold GetEntries_miss.
  change (load 1 (20%Z, 5))
    with ((([0], None) : list nat * option string), (20%Z, 6)).
  cbv iota beta.
  assert ((maxDirectoryEntries (Lock c5) <? len [0%nat])%Z = false) as ->
    by by vm_compute.
  set (c0 := set_heap _ _).
  assert (addToHead (Some (length (heap (Lock c5)))) c0
          = Some (default c5 (addToHead (Some (length (heap (Lock c5)))) c0)))
    as -> by (vm_compute; reflexivity).
  cbn [orPanic obind].
  set (c2 := default c5 _).
  rewrite (evict_stuck fuel _ 1); [done|by vm_compute..].
Qed.

(** A negative [maxDirectories] makes every insertion panic: the loop
    evicts the only entry and then dereferences the nil [tail]. *)
Lemma negative_maxDirectories_panics :
  script 10 (cache 10 (-1)) [get "d1" 1 0] = Panicked.
Proof. by vm_compute. Qed.

(** C4 as stated fails: [d1] is cached with 3 entries; a call for [d1]
    after its expiration time with a failing loader returns the error
    and leaves the counter at 0 and the map empty. *)
Lemma loader_failure_changes_counter :
  holds (script 10 (cache 10 5) [get "d1" 3 0])
    (λ c _ _, totalDirectoryEntries c = 3%Z ∧ size (data c) = 1)
  ∧ holds (script 10 (cache 10 5) [get "d1" 3 0; getFailing "d1" 20])
      (λ c' _ rs, rs = [(seq 0 3, None); ([], Some "boom")]
                  ∧ totalDirectoryEntries c' = 0%Z ∧ size (data c') = 0
                  ∧ Unlock c' ≠ after 10 (cache 10 5) [get "d1" 3 0]).
Proof. vm_compute. split_and!; try done. Qed.

(** C5 as stated fails for the empty identifier: an entry is cached
    under [""] with expiration time 10; a call for [""] at time 1 runs
    the loader (two loader calls in all) and returns the loader's two
    entries, not the three stored ones. *)
Lemma empty_identifier_never_hits :
  holds (script 10 (cache 10 5) [get "" 3 0])
    (λ c _ _, data c !! "" = Some 0 ∧ expireAfter (deref c 0) = 10%Z
              ∧ entries (deref c 0) = [0; 1; 2])
  ∧ holds (script 10 (cache 10 5) [get "" 3 0; get "" 2 1])
      (λ _ n rs, n = 2 ∧ rs = [([0; 1; 2], None); ([0; 1], None)]).
Proof. by vm_compute. Qed.

(** C6.  Insertion evicts from the least recently used end until both
    bounds hold, and not the entry just inserted while others are left.
    In a cache built with bounds [maxEntries] and [maxDirs] and filled by
    insertions and lookups, the insertion of an identifier that is not
    cached, with at most [maxEntries] entries, returns the loaded entries
    and keeps, of "new entry, then the old access order", the longest
    prefix that fits both bounds ([Inserted]).  With bounds 10 and 5,
    inserting [d1], [d2], [d3] with 4 entries each leaves [d3], [d2] in the
    cache, [d1] evicted, 8 entries in total and 2 directories. *)
Theorem insertion_evicts_least_recently_used :
  (∀ (Entry Err World : Type) (Now : World → Z) (maxEntries maxDirs : Z)
     (c : @Fscache.Cache Entry) fuel id exp
     (cb : @Fscache.Loader Entry Err World) w raw w',
     (0 ≤ maxDirs)%Z → (0 ≤ maxEntries < 2 ^ 62)%Z →
     Filled (Err:=Err) Now maxEntries maxDirs c →
     data c !! id = None → cb w = ((raw, None), w') →
     (len raw ≤ maxEntries)%Z → length (order c) < fuel →
     ∃ c' k,
       GetEntries Now fuel (Some c) id exp cb w
       = Returned ((raw, None), Some c', w')
       ∧ Inserted maxEntries maxDirs c raw c' k
       ∧ Filled (Err:=Err) Now maxEntries maxDirs c')
  ∧ holds (script 10 (cache 10 5) [get "d1" 4 0; get "d2" 4 0; get "d3" 4 0])
      (λ c n _, ids c (order c) = ["d3"; "d2"] ∧ data c !! "d1" = None
                ∧ totalDirectoryEntries c = 8%Z ∧ size (data c) = 2
                ∧ n = 3).
Proof.
  split; [|by vm_compute].
  intros. by apply GetEntries_insert_evicts.
Qed.

(** *** Instances of the general theorems *)

Lemma insertion_evicts_least_recently_used_witness :
  let c := after 10 (cache 10 5) [get "d1" 4 0; get "d2" 4 0] in
  ((0 ≤ 5)%Z ∧ (0 ≤ 10 < 2 ^ 62)%Z
   ∧ Filled (Err:=string) now 10 5 c
   ∧ data c !! "d3" = None
   ∧ load 4 (0%Z, 2) = ((seq 0 4, None), (0%Z, 3))
   ∧ (len (seq 0 4) ≤ 10)%Z ∧ length (order c) < 10)
  ∧ ∃ c' k,
      GetEntries now 10 (Some c) "d3" 10 (load 4) (0%Z, 2)
      = Returned ((seq 0 4, None), Some c', (0%Z, 3))
      ∧ Inserted 10 5 c (seq 0 4) c' k
      ∧ Filled (Err:=string) now 10 5 c'.
Proof.
  intros c.
  assert (Filled (Err:=string) now 10 5 c) as Hfilled.
  { apply (filled_call now 10 5 (after 10 (cache 10 5) [get "d1" 4 0])
             10 "d2" 10 (load 4) (0%Z, 1) (seq 0 4) c (0%Z, 2)).
    - apply (filled_call now 10 5 (cache 10 5)
               10 "d1" 10 (load 4) (0%Z, 0) (seq 0 4) _ (0%Z, 1)).
      + apply filled_new.
      + by vm_compute.
      + by vm_compute.
    - by vm_compute.
    - by vm_compute. }
  assert ((0 ≤ 5)%Z) as H1 by lia.
  assert ((0 ≤ 10 < 2 ^ 62)%Z) as H2 by lia.
  assert ((len (seq 0 4) ≤ 10)%Z) as H3 by (vm_compute; discriminate).
  assert (length (order c) < 10) as H4 by (vm_compute; lia).
  assert (data c !! "d3" = None) as H5 by by vm_compute.
  assert (load 4 (0%Z, 2) = ((seq 0 4, None), (0%Z, 3))) as H6 by done.
  split; [by split_and!|].
  exact (proj1 insertion_evicts_least_recently_used nat string W now 10%Z 5%Z
           c 10 "d3" 10%Z (load 4) (0%Z, 2) (seq 0 4) (0%Z, 3)
           H1 H2 Hfilled H5 H6 H3 H4).
Defined.

Lemma GetEntries_loader_failure_witness :
  let c := after 10 (cache 10 5) [get "d1" 3 0] in
  (locked c = false ∧ Keyed c ∧ hit now c "d1" (20%Z, 1) = None
   ∧ failing "boom" (20%Z, 1) = (([], Some "boom"), (20%Z, 2)))
  ∧ ∃ c', GetEntries now 10 (Some c) "d1" 10 (failing "boom") (20%Z, 1)
          = Returned (([], Some "boom"), Some c', (20%Z, 2))
      ∧ length (heap c') = length (heap c)
      ∧ data c' ⊆ data c
      ∧ match expired now c "d1" (20%Z, 1) with
        | None => Unlock c' = c
        | Some v =>
            removeEntryLocked (Some v) c = Some (Unlock c')
            ∧ data c' = delete "d1" (data c)
            ∧ totalDirectoryEntries c'
              = wrap64 (totalDirectoryEntries c - len (entries (deref c v)))
        end.
Proof.
  intros c.
  assert (Keyed c) as Hk
    by (apply Keyed_holds; apply (bool_decide_unpack _); vm_compute; exact I).
  split; [split_and!; [reflexivity|exact Hk|reflexivity|reflexivity]|].
  exact (GetEntries_loader_failure now 10 c "d1" 10 (failing "boom")
           (20%Z, 1) [] "boom" (20%Z, 2) eq_refl Hk eq_refl eq_refl).
Defined.

Lemma GetEntries_expiration_witness :
  let c := after 10 (cache 10 5) [get "d1" 3 0] in
  (locked c = false ∧ Keyed c ∧ "d1" ≠ "" ∧ data c !! "d1" = Some 0)
  ∧ (∃ c', moveToHead (Some 0) c = Some c'
       ∧ GetEntries now 10 (Some c) "d1" 10 (load 5) (1%Z, 1)
         = Returned ((entries (deref c 0), None), Some c', (1%Z, 1)))
  ∧ (∃ c1, removeEntryLocked (Some 0) (Lock c) = Some c1
       ∧ data c1 = delete "d1" (data c)
       ∧ totalDirectoryEntries c1
         = wrap64 (totalDirectoryEntries c - len (entries (deref c 0)))
       ∧ GetEntries now 10 (Some c) "d1" 10 (load 5) (20%Z, 1)
         = GetEntries_miss now 10 c1 "d1" 10 (load 5) (20%Z, 1)).
Proof.
  intros c.
  assert (Keyed c) as Hk
    by (apply Keyed_holds; apply (bool_decide_unpack _); vm_compute; exact I).
  assert ("d1" ≠ "") as Hid by discriminate.
  split; [split_and!; [reflexivity|exact Hk|exact Hid|reflexivity]|].
  split.
  - apply (GetEntries_expiration now 10 c "d1" 0 10 (load 5) (1%Z, 1)
             eq_refl Hk Hid eq_refl).
    reflexivity.
  - destruct (proj2 (GetEntries_expiration now 10 c "d1" 0 10 (load 5)
                       (20%Z, 1) eq_refl Hk Hid eq_refl))
      as (c1 & H1 & H2 & H3 & H4 & _).
    + discriminate.
    + exists c1. by split_and!.
Defined.

Lemma GetEntries_oversize_witness :
  let c := cache 10 5 in
  (locked c = false ∧ Keyed c ∧ hit now c "big" (0%Z, 0) = None
   ∧ load 11 (0%Z, 0) = ((seq 0 11, None), (0%Z, 1))
   ∧ (maxDirectoryEntries c < len (seq 0 11))%Z)
  ∧ ∃ c', GetEntries now 10 (Some c) "big" 10 (load 11) (0%Z, 0)
          = Returned ((seq 0 11, None), Some c', (0%Z, 1))
      ∧ locked c' = false
      ∧ length (heap c') = length (heap c)
      ∧ data c' ⊆ data c
      ∧ lookupEntry c' "big" = None
      ∧ (∀ w2, hit now c' "big" w2 = None)
      ∧ (∀ fuel2 exp2 cb2 w2,
           GetEntries (Err:=string) now fuel2 (Some c') "big" exp2 cb2 w2
           = GetEntries_miss now fuel2 (Lock c') "big" exp2 cb2 w2).
Proof.
  intros c.
  assert (Keyed c) as Hk
    by (apply Keyed_holds; apply (bool_decide_unpack _); vm_compute; exact I).
  split; [split_and!; [reflexivity|exact Hk|reflexivity|reflexivity|reflexivity]|].
  exact (GetEntries_oversize now 10 c "big" 10 (load 11) (0%Z, 0)
           (seq 0 11) (0%Z, 1) eq_refl Hk eq_refl eq_refl eq_refl).
Defined.
End FscacheRuns.

(** ** The block cache constructor: instances *)

Section BlockRuns.
Import Block Block.Example.

Lemma newBlockCache_null_variant_witness :
  (MaxCacheSizeBytes disabled = 0%Z ∨ CacheDirectory disabled = "")
  ∧ run env (newBlockCache (IndexInfo:=unit) join notExist 3 disabled) 0
    = (inr (nullBlockCache 3), 0, []).
Proof.
  split; [left; reflexivity|].
  exact (proj1 (newBlockCache_null_variant join notExist 3 disabled
                  (or_introl eq_refl) nat env 0)).
Defined.

Lemma newBlockCache_protocol_witness :
  (MaxCacheSizeBytes enabled ≠ 0%Z ∧ CacheDirectory enabled ≠ "")
  ∧ let '(r, _, t) :=
      run env (newBlockCache (IndexInfo:=unit) join notExist 3 enabled) 0 in
    Construction join notExist 3 enabled t r.
Proof.
  assert (MaxCacheSizeBytes enabled ≠ 0%Z) as H1 by discriminate.
  assert (CacheDirectory enabled ≠ "") as H2 by discriminate.
  split; [by split|].
  exact (newBlockCache_protocol join notExist 3 enabled H1 H2 nat env 0).
Defined.

(** The run behind the instance above: the directory is missing and
    created, the storage opens, the listing is dropped, the sweep
    succeeds and the periodic sweep starts. *)
Lemma newBlockCache_enabled_run :
  let c := engine 3 enabled 7 in
  run env (newBlockCache (IndexInfo:=unit) join notExist 3 enabled) 0
  = (inr (localCache c), 6,
     [ev (os_Stat "/var/cache/blocks") (Some "stat: no such file or directory");
      ev (os_MkdirAll "/var/cache/blocks" 448) None;
      ev (filesystem_New (mkFilesystemOptions "/var/cache/blocks" [2%Z])) (inr 7);
      ev (deleteListCache c) tt;
      ev (sweepDirectory c) None;
      ev (go_sweepDirectoryPeriodically c) tt]).
Proof. reflexivity. Qed.
End BlockRuns.

(** * Further properties of the directory-listing cache *)

(** ** What no call changes *)

Section FscacheFrames.
Import Fscache.
Context {Entry Err World : Type}.
Variable Now : World → Z.

Implicit Types (c : @Fscache.Cache Entry)
  (cb : @Fscache.Loader Entry Err World) (w : World).

Lemma evict_frame fuel c c' :
  evict fuel c = Returned c' →
  samePayload c c' ∧ locked c' = locked c
  ∧ maxDirectories c' = maxDirectories c
  ∧ maxDirectoryEntries c' = maxDirectoryEntries c.
Proof.
  revert c. induction fuel as [|fuel IH]; intros c; simpl;
    destruct (overBudget c); try done;
    try (intros [= <-]; split_and!; try done; apply samePayload_refl).
  destruct (tail c) as [v|]; [|done].
  destruct (removeEntryLocked_frame v c)
    as (c1 & -> & Hl & _ & HD & HE & _ & Hs).
  intros (Hs' & Hl' & HD' & HE')%IH. split_and!; try congruence.
  by eapply samePayload_trans.
Qed.

(** The loader call and the insertion leave every entry that exists as it
    is, keep the bounds, and allocate at most one entry: the one for the
    loaded listing. *)
Lemma GetEntries_miss_frame fuel c id exp cb w r c' w' :
  GetEntries_miss Now fuel c id exp cb w = Returned (r, Some c', w') →
  w' = (cb w).2
  ∧ maxDirectories c' = maxDirectories c
  ∧ maxDirectoryEntries c' = maxDirectoryEntries c
  ∧ (∀ x, x < length (heap c) →
       Fscache.id (deref c' x) = Fscache.id (deref c x)
       ∧ entries (deref c' x) = entries (deref c x)
       ∧ expireAfter (deref c' x) = expireAfter (deref c x))
  ∧ locked c' = match r.2 with Some _ => locked c | None => false end
  ∧ (heap c' = heap c ∨ length (heap c') = S (length (heap c)))
  ∧ ((cb w).1.2 = None → (len (cb w).1.1 ≤ maxDirectoryEntries c)%Z →
     length (heap c') = S (length (heap c))
     ∧ r = ((cb w).1.1, None)
     ∧ Fscache.id (deref c' (length (heap c))) = id
     ∧ entries (deref c' (length (heap c))) = r.1
     ∧ expireAfter (deref c' (length (heap c))) = (Now w' + exp)%Z).
Proof.
  unfold GetEntries_miss. destruct (cb w) as [[raw [err|]] w1]; cbn [fst snd].
  { intros [= <- <- <-]. split_and!; try done. by left. }
  destruct (maxDirectoryEntries c <? len raw)%Z eqn:Hbig.
  { intros [= <- <- <-]. split_and!; try done; [by left|].
    apply Z.ltb_lt in Hbig. lia. }
  cbv zeta.
  set (a := length (heap c)).
  set (e := mkCacheEntry id None None (Now w1 + exp) raw).
  set (c0 := set_heap (heap c ++ [e]) c).
  destruct (addToHead_frame a c0)
    as (c2 & -> & Hl2 & _ & HD2 & HE2 & _ & Hlen2 & Hs2).
  cbn [orPanic obind].
  destruct (evict fuel _) as [c5| | |] eqn:He; try done.
  cbn [obind]. intros [= <- <- <-].
  apply evict_frame in He as ((Hlen5 & Hs5) & Hl5 & HD5 & HE5).
  simpl in Hlen5, HD5, HE5.
  assert (∀ x, deref (Unlock c5) x = deref c5 x) as Hu by done.
  assert (∀ x, Fscache.id (deref c5 x) = Fscache.id (deref c0 x)
               ∧ entries (deref c5 x) = entries (deref c0 x)
               ∧ expireAfter (deref c5 x) = expireAfter (deref c0 x)) as Hpay.
  { intros x. destruct (Hs5 x) as (E1 & E2 & E3), (Hs2 x) as (F1 & F2 & F3).
    split_and!; etransitivity; eauto. }
  assert (deref c0 a = e) as Hnew.
  { unfold deref, c0, a. simpl. by rewrite list_lookup_total_middle. }
  change (maxDirectories c0) with (maxDirectories c) in HD2.
  change (maxDirectoryEntries c0) with (maxDirectoryEntries c) in HE2.
  split_and!; try done; try (simpl; congruence).
  - intros x Hx. rewrite Hu. destruct (Hpay x) as (-> & -> & ->).
    unfold deref, c0. simpl. by rewrite lookup_total_app_l.
  - right. simpl. rewrite Hlen5, Hlen2. unfold c0. simpl.
    rewrite length_app. simpl. lia.
  - intros _ _. simpl. rewrite Hlen5, Hlen2. unfold c0 at 1. simpl.
    rewrite length_app. simpl. fold a.
    destruct (Hpay a) as (E1 & E2 & E3).
    change (deref (Unlock c5) a) with (deref c5 a).
    rewrite E1, E2, E3, Hnew.
    split_and!; try done. lia.
Qed.

(** X1.  No call of [GetEntries] rewrites an entry: in the cache a
    returning call leaves behind, every entry that existed before has its
    identifier, its listing and its expiration time unchanged (a lookup
    that is served from the cache does not extend the entry's life), the
    two bounds are what they were, and at most one entry has been
    allocated. *)
Theorem GetEntries_keeps_entries fuel c id exp cb w r c' w' :
  GetEntries Now fuel (Some c) id exp cb w = Returned (r, Some c', w') →
  (∀ x, x < length (heap c) →
     Fscache.id (deref c' x) = Fscache.id (deref c x)
     ∧ entries (deref c' x) = entries (deref c x)
     ∧ expireAfter (deref c' x) = expireAfter (deref c x))
  ∧ length (heap c) ≤ length (heap c') ≤ S (length (heap c))
  ∧ maxDirectories c' = maxDirectories c
  ∧ maxDirectoryEntries c' = maxDirectoryEntries c.
Proof.
  unfold GetEntries. destruct (locked c); [done|].
  assert (∀ c1, samePayload (Lock c) c1 →
            maxDirectories c1 = maxDirectories c →
            maxDirectoryEntries c1 = maxDirectoryEntries c →
            GetEntries_miss Now fuel c1 id exp cb w = Returned (r, Some c', w') →
            (∀ x, x < length (heap c) →
               Fscache.id (deref c' x) = Fscache.id (deref c x)
               ∧ entries (deref c' x) = entries (deref c x)
               ∧ expireAfter (deref c' x) = expireAfter (deref c x))
            ∧ length (heap c) ≤ length (heap c') ≤ S (length (heap c))
            ∧ maxDirectories c' = maxDirectories c
            ∧ maxDirectoryEntries c' = maxDirectoryEntries c) as Hmiss.
  { intros c1 [Hlen Hs] HD HE Hg. simpl in Hlen.
    apply GetEntries_miss_frame in Hg as (_ & HD' & HE' & Hold & _ & Hheap & _).
    split_and!; try congruence.
    - intros x Hx. destruct (Hold x) as (-> & -> & ->); [lia|].
      apply (Hs x).
    - destruct Hheap as [->| ->]; lia.
    - destruct Hheap as [->| ->]; lia. }
  destruct (lookupEntry (Lock c) id) as [v|].
  - destruct (Now w <? expireAfter (deref (Lock c) v))%Z.
    + destruct (moveToHead_frame v (Lock c))
        as (c1 & -> & _ & _ & HD & HE & _ & Hlen & Hs).
      cbn [orPanic obind]. intros [= _ <- _]. simpl in *.
      split_and!; try done; try lia. intros x _. apply (Hs x).
    + destruct (removeEntryLocked_frame v (Lock c))
        as (c1 & -> & _ & _ & HD & HE & _ & Hs).
      cbn [orPanic obind]. by apply Hmiss.
  - by apply Hmiss.
Qed.

(** [GetEntries] blocks exactly on a held mutex. *)
Lemma evict_not_Blocked fuel c : evict fuel c ≠ Blocked.
Proof.
  revert c. induction fuel as [|fuel IH]; intros c; simpl;
    destruct (overBudget c); try done.
  by destruct (removeEntryLocked (tail c) c).
Qed.

Lemma GetEntries_miss_not_Blocked fuel c id exp cb w :
  GetEntries_miss Now fuel c id exp cb w ≠ Blocked.
Proof.
  unfold GetEntries_miss. destruct (cb w) as [[raw [err|]] w1]; [done|].
  destruct (maxDirectoryEntries c <? len raw)%Z; [done|].
  cbv zeta. destruct (addToHead _ _) as [c2|]; [|done].
  cbn [orPanic obind].
  destruct (evict fuel _) as [c5| | |] eqn:He; try done.
  by apply evict_not_Blocked in He.
Qed.

Lemma GetEntries_Blocked fuel c id exp cb w :
  GetEntries Now fuel (Some c) id exp cb w = Blocked ↔ locked c = true.
Proof.
  unfold GetEntries. destruct (locked c); [done|]. split; [|done].
  destruct (lookupEntry (Lock c) id) as [v|].
  - destruct (Now w <? expireAfter (deref (Lock c) v))%Z.
    + by destruct (moveToHead (Some v) (Lock c)).
    + destruct (removeEntryLocked (Some v) (Lock c)) as [c1|]; [|done].
      cbn [orPanic obind]. intros H.
      by apply GetEntries_miss_not_Blocked in H.
  - intros H. by apply GetEntries_miss_not_Blocked in H.
Qed.

(** X2.  The mutex after a call.  A call of [GetEntries] that returns
    found the mutex free, and it leaves the mutex held exactly when it
    returns an error; after an error, and only then, every later call on
    the cache blocks, whatever it asks for. *)
Theorem GetEntries_lock_after_call fuel c id exp cb w r c' w' :
  GetEntries Now fuel (Some c) id exp cb w = Returned (r, Some c', w') →
  locked c = false
  ∧ (locked c' = true ↔ is_Some r.2)
  ∧ ∀ fuel2 id2 exp2 cb2 w2,
      GetEntries Now fuel2 (Some c') id2 exp2 cb2 w2 = Blocked
      ↔ is_Some r.2.
Proof.
  intros Hg.
  assert (locked c = false ∧ (locked c' = true ↔ is_Some r.2)) as [H1 H2];
    [|split_and!; [done..|]; intros; by rewrite GetEntries_Blocked].
  revert Hg.
  unfold GetEntries. destruct (locked c) eqn:Hlk; [done|].
  intros Hg. split; [done|]. revert Hg.
  assert (∀ c1, locked c1 = true →
            GetEntries_miss Now fuel c1 id exp cb w = Returned (r, Some c', w') →
            locked c' = true ↔ is_Some r.2) as Hmiss.
  { intros c1 Hl1 Hg.
    apply GetEntries_miss_frame in Hg as (_ & _ & _ & _ & -> & _).
    destruct r.2; rewrite ?Hl1; split; try done; by intros []. }
  destruct (lookupEntry (Lock c) id) as [v|].
  - destruct (Now w <? expireAfter (deref (Lock c) v))%Z.
    + destruct (moveToHead_frame v (Lock c)) as (c1 & -> & _).
      cbn [orPanic obind]. intros [= <- <- _]. simpl.
      split; [done|by intros []].
    + destruct (removeEntryLocked_frame v (Lock c)) as (c1 & -> & Hl1 & _).
      cbn [orPanic obind]. by apply Hmiss.
  - by apply Hmiss.
Qed.
End FscacheFrames.

(** ** What regular calls guarantee *)

Section FscacheUse.
Import Fscache.
Context {Entry Err World : Type}.
Variable Now : World → Z.

Abbreviation Filled'' := (@Filled Entry Err World Now).
Abbreviation Reachable'' := (@Reachable Entry Err World Now).

Implicit Types (c : @Fscache.Cache Entry) (l : list addr)
  (cb : @Fscache.Loader Entry Err World) (w : World).

(** X3.  Counter and bounds between regular calls.  In every state
    reached from a new cache by regular calls, the mutex is free,
    [totalDirectoryEntries] is the sum of the entry counts of the cached
    listings and is at most [maxDirectoryEntries], and the map holds at
    most [maxDirectories] records, as many as the list has entries. *)
Theorem regular_calls_keep_counters maxEntries maxDirs c :
  (0 ≤ maxDirs)%Z → (0 ≤ maxEntries < 2 ^ 62)%Z →
  Filled'' maxEntries maxDirs c →
  locked c = false
  ∧ totalDirectoryEntries c = cachedCost c
  ∧ (totalDirectoryEntries c ≤ maxEntries)%Z
  ∧ (Z.of_nat (size (data c)) ≤ maxDirs)%Z
  ∧ size (data c) = length (order c)
  ∧ maxDirectoryEntries c = maxEntries
  ∧ maxDirectories c = maxDirs.
Proof.
  intros HmD HmE Hfilled.
  destruct (Filled_Inv Now _ _ _ HmD HmE Hfilled) as (l & Hinv & HD & HE).
  rewrite (Inv_order c l Hinv).
  destruct Hinv as [[p Hl] [Hf1 Hf2] Hlk _ _].
  split_and!; try done.
  - symmetry. by apply Linked_cachedCost with p l.
  - rewrite (linked_total _ _ _ Hl). lia.
  - rewrite (linked_size _ _ _ Hl). lia.
  - apply (linked_size _ _ _ Hl).
Qed.

(** X4.  One entry per identifier between regular calls.  In every state
    reached by regular calls, no entry is twice in the access-order list,
    no two entries of the list carry the same identifier, and the map
    records are exactly the entries of the list, each under its own
    identifier. *)
Theorem regular_calls_keep_identifiers_apart maxEntries maxDirs c :
  (0 ≤ maxDirs)%Z → (0 ≤ maxEntries < 2 ^ 62)%Z →
  Filled'' maxEntries maxDirs c →
  NoDup (order c)
  ∧ NoDup (ids c (order c))
  ∧ ∀ k a, data c !! k = Some a
           ↔ a ∈ order c ∧ Fscache.id (deref c a) = k.
Proof.
  intros HmD HmE Hfilled.
  destruct (Filled_Inv Now _ _ _ HmD HmE Hfilled) as (l & Hinv & _).
  rewrite (Inv_order c l Hinv).
  destruct Hinv as [[p Hl] _ _ _ _].
  pose proof (chain_nodup _ _ _ (linked_chain _ _ _ Hl)) as Hnd.
  split_and!; [done| |apply (linked_data _ _ _ Hl)].
  apply NoDup_fmap_2_strong; [|done].
  intros a a' Ha Ha' Heq.
  assert (data c !! Fscache.id (deref c a) = Some a) as H1
    by by apply (linked_data _ _ _ Hl).
  assert (data c !! Fscache.id (deref c a) = Some a') as H2
    by by apply (linked_data _ _ _ Hl).
  congruence.
Qed.

(** X5.  Map records carry their key, whatever the calls.  In every state
    reached from a new cache by calls of [GetEntries] that return, regular
    or not, each map record points at an allocated entry whose identifier
    is the key of the record. *)
Theorem reachable_records_carry_their_key maxEntries maxDirs c :
  Reachable'' maxEntries maxDirs c →
  ∀ k v, data c !! k = Some v →
         v < length (heap c) ∧ Fscache.id (deref c v) = k.
Proof. intros Hr. exact (Reachable_Keyed Now maxEntries maxDirs c Hr). Qed.

(** X6.  A lookup that is served from the cache moves its entry to the
    front of the access-order list and keeps the order of the others; the
    map and the counter stay as they are, and the world is untouched. *)
Theorem lookup_promotes maxEntries maxDirs c fuel id exp cb w v :
  (0 ≤ maxDirs)%Z → (0 ≤ maxEntries < 2 ^ 62)%Z →
  Filled'' maxEntries maxDirs c →
  hit Now c id w = Some v →
  ∃ c' l1 l2,
    order c = l1 ++ v :: l2
    ∧ GetEntries Now fuel (Some c) id exp cb w
      = Returned ((entries (deref c v), None), Some c', w)
    ∧ order c' = v :: l1 ++ l2
    ∧ data c' = data c
    ∧ totalDirectoryEntries c' = totalDirectoryEntries c.
Proof.
  intros HmD HmE Hfilled Hh.
  destruct (Filled_Inv Now _ _ _ HmD HmE Hfilled) as (l & Hinv & _).
  destruct (Inv_hit Now fuel c l id exp cb w v Hinv Hh)
    as (c' & l1 & l2 & -> & Hg & Hinv' & _).
  destruct (GetEntries_hit Now fuel c id exp cb w v (inv_unlocked _ _ Hinv) Hh)
    as (c'' & Hm & Hg').
  assert (c'' = c') as -> by congruence.
  destruct (moveToHead_frame v c) as (c'' & Hm' & _ & Htot & _ & _ & Hdata & _).
  assert (c'' = c') as -> by congruence.
  exists c', l1, l2. rewrite (Inv_order _ _ Hinv), (Inv_order _ _ Hinv').
  by split_and!.
Qed.

(** X7.  Regular calls return.  On a cache reached by regular calls, a
    regular call of [GetEntries] returns, whatever its loader does: it
    neither blocks on the mutex, nor dereferences a nil pointer, nor needs
    more rounds of the eviction loop than the list has entries, plus
    one. *)
Theorem regular_calls_return maxEntries maxDirs c fuel id exp cb w :
  (0 ≤ maxDirs)%Z → (0 ≤ maxEntries < 2 ^ 62)%Z →
  Filled'' maxEntries maxDirs c → Regular Now c id w →
  length (order c) < fuel →
  ∃ r c' w', GetEntries Now fuel (Some c) id exp cb w
             = Returned (r, Some c', w').
Proof.
  intros HmD HmE Hfilled Hreg Hfuel.
  destruct (Filled_Inv Now _ _ _ HmD HmE Hfilled) as (l & Hinv & _).
  rewrite (Inv_order _ _ Hinv) in Hfuel.
  pose proof (inv_unlocked _ _ Hinv) as Hlk.
  destruct (inv_linked _ _ Hinv) as [p Hl].
  unfold Regular in Hreg.
  destruct (cb w) as [[raw err] w0] eqn:Hcb.
  destruct (lookupEntry c id) as [v|] eqn:Hlook.
  - destruct (Now w <? expireAfter (deref c v))%Z eqn:Hnow.
    + assert (hit Now c id w = Some v) as Hh.
      { unfold hit. rewrite Hlook. simpl. by rewrite Hnow. }
      destruct (Inv_hit Now fuel c l id exp cb w v Hinv Hh)
        as (c' & _ & _ & _ & Hg & _). eauto.
    + assert (expired Now c id w = Some v) as He.
      { unfold expired. rewrite Hlook. simpl. by rewrite Hnow. }
      destruct Hreg as [Hlt|Hsafe]; [apply Z.ltb_ge in Hnow; lia|].
      destruct err as [err|].
      * destruct (expired_removed Now c id w v Hlk (Linked_Keyed c p l Hl) He)
          as (c1 & _ & Hr' & _).
        rewrite (GetEntries_expired Now fuel c id exp cb w v _ Hlk He Hr').
        unfold GetEntries_miss. rewrite Hcb. eauto.
      * destruct (Inv_expired Now fuel c l id exp cb w v raw w0
                    Hinv He Hsafe Hcb Hfuel) as (c' & _ & Hg & _). eauto.
  - rewrite (GetEntries_no_entry Now fuel c id exp cb w Hlk Hlook).
    destruct err as [err|].
    { unfold GetEntries_miss. rewrite Hcb. eauto. }
    destruct (decide (maxDirectoryEntries c < len raw)%Z) as [Hbig|Hsmall].
    + unfold GetEntries_miss. rewrite Hcb.
      change (maxDirectoryEntries (Lock c)) with (maxDirectoryEntries c).
      rewrite (proj2 (Z.ltb_lt _ _) Hbig). eauto.
    + destruct (Inv_insert Now fuel c l id exp cb w raw w0 Hinv Hreg Hcb)
        as (c' & k & Hg & _); [lia|done|].
      rewrite (GetEntries_no_entry Now fuel c id exp cb w Hlk Hlook) in Hg.
      eauto.
Qed.
End FscacheUse.

(** ** Loading, then serving *)

Section FscacheServe.
Import Fscache.
Context {Entry Err World : Type}.
Variable Now : World → Z.

Implicit Types (c : @Fscache.Cache Entry) (l : list addr)
  (cb : @Fscache.Loader Entry Err World) (w : World)
  (d : @Directory Entry Err World).

(** An entry of the list is served to the requests for its identifier
    until it expires. *)
Lemma Inv_served c l id w a :
  Inv c l → a ∈ l → id ≠ "" → Fscache.id (deref c a) = id →
  (Now w < expireAfter (deref c a))%Z →
  hit Now c id w = Some a.
Proof.
  intros [[p Hl] _ _ _ _] Ha Hid Hkey Hnow.
  assert (lookupEntry c id = Some a) as Hlook.
  { apply lookupEntry_Some. split; [done|]. by apply (linked_data _ _ _ Hl). }
  unfold hit. rewrite Hlook. simpl. by rewrite (proj2 (Z.ltb_lt _ _) Hnow).
Qed.

(** The loader call and the insertion, with room for one directory at
    least: the new entry stays and is served until it expires. *)
Lemma miss_served fuel c p l id exp cb w raw w' :
  Linked c p l → fits c l →
  (0 < maxDirectories c)%Z → (maxDirectoryEntries c < 2 ^ 62)%Z →
  data c !! id = None → cb w = ((raw, None), w') →
  (len raw ≤ maxDirectoryEntries c)%Z → length l < fuel → id ≠ "" →
  ∃ c' l',
    GetEntries_miss Now fuel c id exp cb w
    = Returned ((raw, None), Some c', w')
    ∧ Inv c' l'
    ∧ entries (deref c' (length (heap c))) = raw
    ∧ ∀ w2, (Now w2 < Now w' + exp)%Z →
            hit Now c' id w2 = Some (length (heap c)).
Proof.
  intros Hl Hf HmD HmE Hfresh Hcb Hsmall Hfuel Hid.
  destruct (miss_Linked Now fuel c p l id exp cb w raw w' Hl Hf)
    as (c' & k & Hg & Hinv & Hmin & HD & HE & Hnew & Hold);
    [lia|done..|].
  pose proof (GetEntries_miss_frame Now fuel c id exp cb w _ c' w' Hg)
    as (_ & _ & _ & _ & _ & _ & Hfresh').
  rewrite Hcb in Hfresh'.
  destruct (Hfresh' eq_refl Hsmall) as (_ & _ & Hkey & _ & Hexp).
  assert (0 < k) as Hk.
  { destruct k as [|k]; [|lia]. exfalso.
    destruct Hmin as [?|Hnot]; [done|]. apply Hnot.
    split; simpl; rewrite ?Hnew; lia. }
  exists c', (take k (length (heap c) :: l)). split_and!; try done.
  intros w2 Hw2. apply Inv_served with (take k (length (heap c) :: l));
    try done; [|by rewrite Hexp].
  destruct k as [|k]; [lia|]. simpl. apply list_elem_of_here.
Qed.

(** A call that has to load, on a cache that satisfies the invariant. *)
Lemma Inv_load_served fuel c l id exp cb w raw w' :
  Inv c l → (0 < maxDirectories c)%Z →
  Regular Now c id w → hit Now c id w = None → id ≠ "" →
  cb w = ((raw, None), w') →
  (len raw ≤ maxDirectoryEntries c)%Z → length l < fuel →
  ∃ c' l' a,
    GetEntries Now fuel (Some c) id exp cb w
    = Returned ((raw, None), Some c', w')
    ∧ Inv c' l'
    ∧ entries (deref c' a) = raw
    ∧ ∀ w2, (Now w2 < Now w' + exp)%Z → hit Now c' id w2 = Some a.
Proof.
  intros Hinv HmD Hreg Hnohit Hid Hcb Hsmall Hfuel.
  pose proof Hinv as [[p Hl] [Hf1 Hf2] Hlk _ HmE].
  unfold Regular in Hreg. unfold hit in Hnohit.
  destruct (lookupEntry c id) as [v|] eqn:Hlook.
  - simpl in Hnohit.
    destruct (Now w <? expireAfter (deref c v))%Z eqn:Hnow; [done|].
    assert (expired Now c id w = Some v) as He.
    { unfold expired. rewrite Hlook. simpl. by rewrite Hnow. }
    destruct Hreg as [Hlt|Hsafe]; [apply Z.ltb_ge in Hnow; lia|].
    pose proof (Linked_Keyed c p l Hl) as Hk.
    destruct (expired_removed Now c id w v Hlk Hk He)
      as (c1 & Hr & Hr' & Hlk1 & Hd1 & _ & _ & _ & _).
    assert (v ∈ l) as Hv.
    { apply lookupEntry_Some in Hlook as [_ Hd].
      by apply (linked_data _ _ _ Hl) in Hd as [Hin _]. }
    apply list_elem_of_split in Hv as (l1 & l2 & ->).
    destruct (Linked_removeEntryLocked c p l1 v l2 Hl)
      as (c1' & Hr1 & Hl1 & _ & HmD1 & HmE1 & Hs1).
    { intros ->.
      pose proof (Hsafe (chain_head _ _ _ (linked_chain _ _ _ Hl))) as Hp.
      destruct (linked_chain _ _ _ Hl) as [_ _ _ (_ & Hprev & _)].
      unfold deref in Hp. congruence. }
    { rewrite (linked_total _ _ _ Hl). lia. }
    assert (c1' = c1) as -> by congruence.
    assert (fits c1 (l1 ++ l2)) as Hf.
    { split.
      - rewrite (cost_frame c c1 _ Hs1), HmE1.
        rewrite cost_app in *. simpl in Hf1. unfold len in *. lia.
      - rewrite HmD1. rewrite !length_app in *. simpl in Hf2. lia. }
    rewrite (GetEntries_expired Now fuel c id exp cb w v _ Hlk He Hr').
    destruct (miss_served fuel (Lock c1) p (l1 ++ l2) id exp cb w raw w'
                (Linked_set_locked true c1 p _ Hl1))
      as (c' & l' & Hg & Hinv' & Hnew & Hserved); try done;
      try (simpl; lia).
    + simpl. rewrite Hd1. apply lookup_delete_eq.
    + rewrite !length_app in *. simpl in Hfuel. lia.
    + by exists c', l', (length (heap (Lock c1))).
  - rewrite (GetEntries_no_entry Now fuel c id exp cb w Hlk Hlook).
    destruct (miss_served fuel (Lock c) p l id exp cb w raw w'
                (Linked_set_locked true c p _ Hl))
      as (c' & l' & Hg & Hinv' & Hnew & Hserved); try done.
    by exists c', l', (length (heap (Lock c))).
Qed.

(** X8.  What was loaded is served.  On a cache reached by regular calls,
    with room for one directory at least, a regular call for a non-empty
    identifier that finds no valid entry, whose loader succeeds with a
    listing within the entry bound, returns that listing; and until the
    expiration time given to that call has passed, every call for the
    identifier returns the same listing without running its loader (the
    world stays as it is), whatever loader and expiration time it
    brings. *)
Theorem loaded_listing_is_served maxEntries maxDirs c fuel id exp cb w raw w' :
  (0 < maxDirs)%Z → (0 ≤ maxEntries < 2 ^ 62)%Z →
  Filled (Err:=Err) Now maxEntries maxDirs c → Regular Now c id w →
  hit Now c id w = None → id ≠ "" →
  cb w = ((raw, None), w') → (len raw ≤ maxEntries)%Z →
  length (order c) < fuel →
  ∃ c',
    GetEntries Now fuel (Some c) id exp cb w
    = Returned ((raw, None), Some c', w')
    ∧ ∀ fuel2 exp2 cb2 w2, (Now w2 < Now w' + exp)%Z →
        ∃ c'', GetEntries Now fuel2 (Some c') id exp2 cb2 w2
               = Returned ((raw, None), Some c'', w2).
Proof.
  intros HmD HmE Hfilled Hreg Hnohit Hid Hcb Hsmall Hfuel.
  destruct (Filled_Inv Now _ _ _ (Z.lt_le_incl _ _ HmD) HmE Hfilled)
    as (l & Hinv & HD & HE).
  rewrite (Inv_order c l Hinv) in Hfuel.
  destruct (Inv_load_served fuel c l id exp cb w raw w' Hinv)
    as (c' & l' & a & Hg & Hinv' & Hnew & Hserved); try done; try lia.
  exists c'. split; [done|]. intros fuel2 exp2 cb2 w2 Hw2.
  destruct (GetEntries_hit Now fuel2 c' id exp2 cb2 w2 a
              (inv_unlocked _ _ Hinv') (Hserved w2 Hw2)) as (c'' & _ & Hg2).
  exists c''. by rewrite Hg2, Hnew.
Qed.

(** X9.  [Readdir] caches a listing for 24 hours under the object
    identifier of the directory.  On a cache reached by regular calls,
    with room for one directory at least, when [Readdir] has to read a
    directory with a non-empty object identifier and the read succeeds
    with a listing within the entry bound, then for the 24 hours
    (86,400,000,000,000 ns) after the read, [Readdir] of any directory
    with the same object identifier returns that listing and does not
    read the directory. *)
Theorem Readdir_serves_for_a_day maxEntries maxDirs c fuel d cacheID w raw w' :
  (0 < maxDirs)%Z → (0 ≤ maxEntries < 2 ^ 62)%Z →
  Filled (Err:=Err) Now maxEntries maxDirs c →
  objectID d = Some cacheID → cacheID ≠ "" →
  Regular Now c cacheID w → hit Now c cacheID w = None →
  dirReaddir d w = ((raw, None), w') → (len raw ≤ maxEntries)%Z →
  length (order c) < fuel →
  ∃ c',
    Readdir Now fuel (Some c) d w = Returned ((raw, None), Some c', w')
    ∧ ∀ fuel2 d2 w2,
        objectID d2 = Some cacheID →
        (Now w2 < Now w' + 86400000000000)%Z →
        ∃ c'', Readdir Now fuel2 (Some c') d2 w2
               = Returned ((raw, None), Some c'', w2).
Proof.
  intros HmD HmE Hfilled Hoid Hid Hreg Hnohit Hcb Hsmall Hfuel.
  destruct (Filled_Inv Now _ _ _ (Z.lt_le_incl _ _ HmD) HmE Hfilled)
    as (l & Hinv & HD & HE).
  rewrite (Inv_order c l Hinv) in Hfuel.
  destruct (Inv_load_served fuel c l cacheID (24 * hour) (dirReaddir d) w
              raw w' Hinv)
    as (c' & l' & a & Hg & Hinv' & Hnew & Hserved); try done; try lia.
  exists c'. unfold Readdir. rewrite Hoid. split; [done|].
  intros fuel2 d2 w2 -> Hw2.
  destruct (GetEntries_hit Now fuel2 c' cacheID (24 * hour) (dirReaddir d2)
              w2 a (inv_unlocked _ _ Hinv') (Hserved w2 Hw2))
    as (c'' & _ & Hg2).
  exists c''. by rewrite Hg2, Hnew.
Qed.

(** X10.  No eviction without pressure.  On a cache reached by regular
    calls, the insertion of an identifier that is not cached, whose
    listing fits beside the cached ones within the entry bound while the
    directory bound is not reached, evicts nothing: the new entry is put
    in front of the access order, recorded in the map under the
    identifier, and its entry count is added to the counter. *)
Theorem insertion_without_pressure_evicts_nothing
    maxEntries maxDirs c fuel id exp cb w raw w' :
  (0 ≤ maxDirs)%Z → (0 ≤ maxEntries < 2 ^ 62)%Z →
  Filled (Err:=Err) Now maxEntries maxDirs c →
  data c !! id = None → cb w = ((raw, None), w') →
  (totalDirectoryEntries c + len raw ≤ maxEntries)%Z →
  (Z.of_nat (size (data c)) < maxDirs)%Z →
  length (order c) < fuel →
  ∃ c',
    GetEntries Now fuel (Some c) id exp cb w
    = Returned ((raw, None), Some c', w')
    ∧ order c' = length (heap c) :: order c
    ∧ data c' = <[id := length (heap c)]> (data c)
    ∧ totalDirectoryEntries c' = (totalDirectoryEntries c + len raw)%Z.
Proof.
  intros HmD HmE Hfilled Hfresh Hcb Hroom Hdirs Hfuel.
  destruct (Filled_Inv Now _ _ _ HmD HmE Hfilled) as (l & Hinv & HD & HE).
  rewrite (Inv_order c l Hinv) in *.
  pose proof Hinv as [[p Hl] [Hf1 Hf2] Hlk _ _].
  pose proof (cost_nonneg c l) as Hnn.
  assert (0 ≤ len raw)%Z as Hraw by (unfold len; lia).
  pose proof (linked_total _ _ _ Hl) as Htot.
  pose proof (linked_size _ _ _ Hl) as Hsz.
  destruct (Inv_insert Now fuel c l id exp cb w raw w' Hinv Hfresh Hcb)
    as (c' & k & Hg & Hinv' & Hmin & HD' & HE' & Hnew & Hold); [lia|done|].
  assert (lookupEntry c id = None) as Hlook.
  { unfold lookupEntry. by destruct (decide (id = "")). }
  pose proof Hg as Hg0.
  rewrite (GetEntries_no_entry Now fuel c id exp cb w Hlk Hlook) in Hg0.
  apply GetEntries_miss_frame in Hg0 as (_ & _ & _ & Hkeep & _ & _ & Hfresh').
  rewrite Hcb in Hfresh'. change (heap (Lock c)) with (heap c) in *.
  destruct Hfresh' as (_ & _ & Hkey & _); [done|simpl; lia|].
  assert (cost c' l = cost c l) as Hcost.
  { apply cost_ext. intros x Hx. apply Hold, (Linked_lt c p l x Hl Hx). }
  assert (k = S (length l)) as ->.
  { destruct Hmin as [?|Hnot]; [done|]. exfalso. apply Hnot. split.
    - etransitivity; [apply cost_take_le|]. simpl. fold (cost c' l).
      rewrite Hnew, Hcost. lia.
    - rewrite length_take. simpl. lia. }
  change (take (S (length l)) (length (heap c) :: l))
    with (length (heap c) :: take (length l) l) in Hinv'.
  rewrite firstn_all in Hinv'.
  destruct (inv_linked _ _ Hinv') as [p' Hl'].
  exists c'. rewrite (Inv_order _ _ Hinv'). split_and!; try done.
  - apply map_eq. intros key. apply option_eq. intros a.
    rewrite (linked_data _ _ _ Hl'), lookup_insert_Some, elem_of_cons.
    rewrite (linked_data _ _ _ Hl). split.
    + intros [[->|Ha] Hk].
      * left. split; congruence.
      * right. destruct (Hkeep a (Linked_lt c p l a Hl Ha)) as (Hid & _).
        rewrite Hid in Hk. split; [|done]. intros <-.
        assert (data c !! id = Some a) as Hd
          by by apply (linked_data _ _ _ Hl).
        congruence.
    + intros [[<- <-]|[Hne [Ha Hk]]]; [by split; [left|]|].
      split; [by right|].
      by destruct (Hkeep a (Linked_lt c p l a Hl Ha)) as (-> & _).
  - rewrite (linked_total _ _ _ Hl'). simpl. fold (cost c' l).
    rewrite Hnew, Hcost. lia.
Qed.

(** X11.  A directory bound of zero switches the cache off.  In every
    state reached by regular calls from a cache built with
    [MaxCachedDirectories 0], the map and the list are empty and the
    counter is zero, so no request is served from the cache. *)
Theorem zero_maxDirectories_retains_nothing maxEntries c :
  (0 ≤ maxEntries < 2 ^ 62)%Z →
  Filled (Err:=Err) Now maxEntries 0 c →
  data c = ∅ ∧ head c = None ∧ tail c = None
  ∧ totalDirectoryEntries c = 0%Z
  ∧ ∀ id w, hit Now c id w = None.
Proof.
  intros HmE Hfilled.
  destruct (Filled_Inv Now _ _ _ (Z.le_refl 0) HmE Hfilled)
    as (l & [[p Hl] [Hf1 Hf2] _ _ _] & HD & HE).
  assert (l = []) as -> by (destruct l; [done|simpl in Hf2; lia]).
  assert (data c = ∅) as Hempty
    by (apply map_size_empty_inv, (linked_size _ _ _ Hl)).
  destruct (linked_chain _ _ _ Hl) as [_ Hh Ht _].
  split_and!; try done.
  - apply (linked_total _ _ _ Hl).
  - intros id w. unfold hit, lookupEntry.
    destruct (decide (id = "")); [done|]. by rewrite Hempty, lookup_empty.
Qed.
End FscacheServe.

(** ** The list operations on their own *)

Section FscacheListOps.
Import Fscache.
Context {Entry : Type}.

Implicit Types (c : @Fscache.Cache Entry) (a b v q : addr) (p : ptr)
  (l : list addr).

(** [remove] writes to the neighbours of the entry, not to the entry. *)
Lemma remove_self v c c' :
  remove (Some v) c = Some c' →
  prev (deref c v) ≠ Some v → next (deref c v) ≠ Some v →
  deref c' v = deref c v.
Proof.
  unfold remove, deref. intros [= <-] Hp Hn.
  destruct (prev (heap c !!! v)) as [q|] eqn:Hprev;
    cbn [heap store_next set_heap set_head].
  - rewrite (list_lookup_total_alter_ne _ (heap c) q v) by congruence.
    rewrite Hprev.
    destruct (next (heap c !!! v)) as [n|] eqn:Hnext;
      cbn [heap store_prev store_next set_heap set_tail].
    + rewrite !list_lookup_total_alter_ne by congruence. done.
    + rewrite !list_lookup_total_alter_ne by congruence. done.
  - rewrite Hprev.
    destruct (next (heap c !!! v)) as [n|] eqn:Hnext;
      cbn [heap store_prev set_heap set_tail set_head]; [|done].
    rewrite !list_lookup_total_alter_ne by congruence. done.
Qed.

(** X12.  [remove] unlinks one entry.  On a well-formed list, [remove]
    of an entry (which, when it is the first one, has a nil [prev]
    pointer) yields the list without that entry, the others in their
    order, well formed again; identifiers, listings and expiration times,
    the map and the counter are left alone. *)
Theorem remove_unlinks c p l1 v l2 :
  Chain c p (l1 ++ v :: l2) → (l1 = [] → p = None) →
  ∃ c', remove (Some v) c = Some c'
    ∧ order c = l1 ++ v :: l2
    ∧ order c' = l1 ++ l2
    ∧ Chain c' p (l1 ++ l2)
    ∧ samePayload c c'
    ∧ data c' = data c
    ∧ totalDirectoryEntries c' = totalDirectoryEntries c.
Proof.
  intros Hc Hp.
  destruct (Chain_remove c p l1 v l2 Hc Hp) as (c' & Hr & Hc').
  destruct (remove_frame v c) as (c'' & Hr' & _ & Htot & _ & _ & Hdata & Hs).
  assert (c'' = c') as -> by congruence.
  exists c'. split_and!; try done; by eapply Chain_order.
Qed.

(** X13.  [addToHead] links an entry in front.  On a well-formed list,
    [addToHead] of an allocated entry that is not in the list (and, when
    the list is empty, has a nil [next] pointer) yields the list with
    that entry first; the entry's own [prev] pointer is not written, so
    it is what the first entry's [prev] is afterwards. *)
Theorem addToHead_links c p l a :
  Chain c p l → a ∉ l → a < length (heap c) →
  (l = [] → next (deref c a) = None) →
  ∃ c', addToHead (Some a) c = Some c'
    ∧ order c' = a :: l
    ∧ Chain c' (prev (deref c a)) (a :: l)
    ∧ prev (deref c' a) = prev (deref c a)
    ∧ samePayload c c'.
Proof.
  intros Hc Ha Hlt Hnil.
  destruct (Chain_addToHead c p l a Hc Ha Hlt Hnil) as (c' & Hadd & Hc').
  destruct (addToHead_frame a c) as (c'' & Hadd' & _ & _ & _ & _ & _ & Hs).
  assert (c'' = c') as -> by congruence.
  exists c'. split_and!; try done; [by eapply Chain_order|].
  by destruct (chain_seg _ _ _ Hc') as (_ & Hprev & _).
Qed.

(** X14.  [moveToHead] leaves a [prev] pointer behind that a later
    [remove] trips over.  On a well-formed list whose first entry has a
    nil [prev], [moveToHead] of an entry that is not the first brings it
    to the front; [remove] of that entry right after leaves [head]
    pointing at it, and closes the entries that were before it into a
    cycle: the [next] pointer of the last of them leads back to the
    first. *)
Theorem moveToHead_then_remove_keeps_head c l1 v l2 b q :
  Chain c None (l1 ++ v :: l2) → l1 !! 0 = Some b → last l1 = Some q →
  ∃ c1 c2, moveToHead (Some v) c = Some c1
    ∧ order c1 = v :: l1 ++ l2
    ∧ remove (Some v) c1 = Some c2
    ∧ head c2 = Some v
    ∧ next (deref c2 v) = Some b
    ∧ next (deref c2 q) = Some b.
Proof.
  intros Hc Hb Hq.
  pose proof (chain_nodup _ _ _ Hc) as Hnd.
  apply NoDup_app in Hnd as (Hnd1 & Hdisj & Hnd2).
  apply NoDup_cons in Hnd2 as [Hv2 Hnd2].
  assert (v ∉ l1) as Hv1.
  { intros Hin. apply (Hdisj v Hin), list_elem_of_here. }
  assert (b ∈ l1) as Hbin by by eapply list_elem_of_lookup_2.
  assert (q ∈ l1) as Hqin.
  { rewrite last_lookup in Hq. by eapply list_elem_of_lookup_2. }
  assert (b ≠ v) as Hbv by by intros ->.
  assert (q ≠ v) as Hqv by by intros ->.
  assert (head c = Some b) as Hhead.
  { rewrite (chain_head _ _ _ Hc). destruct l1; [done|]. done. }
  (* the entry before the move *)
  pose proof (chain_seg _ _ _ Hc) as Hs.
  apply seg_app in Hs as [_ (Hv & Hprev & Hnext & _)].
  unfold lastOr in Hprev. rewrite Hq in Hprev.
  (* the move *)
  destruct (Chain_remove c None l1 v l2 Hc) as (c0 & Hr & Hc0).
  { intros ->. done. }
  assert (deref c0 v = deref c v) as Hself.
  { apply (remove_self v c c0 Hr); unfold deref.
    - rewrite Hprev. congruence.
    - rewrite Hnext. destruct l2 as [|n l2]; [done|]. simpl.
      intros [= ->]. apply Hv2, list_elem_of_here. }
  destruct (remove_frame v c) as (c0' & Hr' & _ & _ & _ & _ & _ & Hlen0 & _).
  assert (c0' = c0) as -> by congruence.
  destruct (Chain_addToHead c0 None (l1 ++ l2) v Hc0) as (c1 & Hadd & Hc1).
  { intros [Hin|Hin]%elem_of_app; done. }
  { by rewrite Hlen0. }
  { intros Hnil. apply app_eq_nil in Hnil as [-> _]. done. }
  rewrite Hself in Hc1. unfold deref in Hc1. rewrite Hprev in Hc1.
  assert (moveToHead (Some v) c = Some c1) as Hmove.
  { unfold moveToHead. rewrite Hhead, decide_False by congruence.
    rewrite Hr. done. }
  destruct (chain_seg _ _ _ Hc1) as (Hv1' & Hprev1 & Hnext1 & Hs1).
  assert (firstOr (l1 ++ l2) None = Some b) as Hfirst
    by (destruct l1; [done|]; simpl in Hb; by injection Hb as ->).
  rewrite Hfirst in Hnext1.
  assert (q < length (heap c1)) as Hqlt.
  { apply (Chain_lt c1 (Some q) (v :: l1 ++ l2) q Hc1).
    apply list_elem_of_further, elem_of_app. by left. }
  assert (remove (Some v) c1
          = Some (store_prev b (Some q) (store_next q (Some b) c1))) as Hrem.
  { unfold remove, deref. rewrite Hprev1, Hnext1.
    cbn [heap store_next set_heap].
    rewrite (list_lookup_total_alter_ne _ _ q v) by done.
    by rewrite Hnext1, Hprev1. }
  exists c1, (store_prev b (Some q) (store_next q (Some b) c1)).
  split_and!; [done|by eapply Chain_order|done|..];
    unfold deref; cbn [head heap store_prev store_next set_heap].
  - by rewrite (chain_head _ _ _ Hc1).
  - rewrite !list_lookup_total_alter_ne by done. done.
  - destruct (decide (b = q)) as [->|Hbq].
    + rewrite list_lookup_total_alter_eq by by rewrite length_alter.
      rewrite list_lookup_total_alter_eq by done. done.
    + rewrite list_lookup_total_alter_ne by done.
      rewrite list_lookup_total_alter_eq by done. done.
Qed.
End FscacheListOps.

(** ** Construction and the bounds *)

Section FscacheBounds.
Import Fscache.
Context {Entry Err World : Type}.
Variable Now : World → Z.

Implicit Types (c : @Fscache.Cache Entry)
  (cb : @Fscache.Loader Entry Err World) (w : World).

Lemma NewCache_snoc (options : list (@CacheOption Entry)) o :
  NewCache (options ++ [o]) = o (NewCache options).
Proof. unfold NewCache. by rewrite foldl_app. Qed.

Lemma NewCache_shape (options : list (@CacheOption Entry)) :
  Forall (λ o, ∃ n, o = MaxCachedDirectories n
                    ∨ o = MaxCachedDirectoryEntries n) options →
  ∃ maxEntries maxDirs,
    NewCache options = mkCache false 0 maxDirs maxEntries ∅ None None [].
Proof.
  induction options as [|o options IH] using rev_ind; intros Hall.
  { by exists 100000%Z, 1000%Z. }
  apply Forall_app in Hall as [Hall Ho].
  destruct (IH Hall) as (mE & mD & Heq).
  apply Forall_singleton in Ho as [n [-> | ->]];
    rewrite NewCache_snoc, Heq.
  - by exists mE, n.
  - by exists n, mD.
Qed.

(** X15.  What [NewCache] builds.  Without options the bounds are 1000
    directories and 100000 entries.  With any sequence of
    [MaxCachedDirectories] and [MaxCachedDirectoryEntries] options the
    new cache is empty, unlocked, with a zero counter, and is the cache
    that its two final bounds alone determine; a bound given last
    overrides the earlier ones and leaves the other bound alone. *)
Theorem NewCache_options (options : list (@CacheOption Entry)) :
  Forall (λ o, ∃ n, o = MaxCachedDirectories n
                    ∨ o = MaxCachedDirectoryEntries n) options →
  NewCache (Entry:=Entry) [] = NewCacheWith 100000 1000
  ∧ NewCache options
    = NewCacheWith (maxDirectoryEntries (NewCache options))
                   (maxDirectories (NewCache options))
  ∧ (∀ n, NewCache (options ++ [MaxCachedDirectories n])
          = NewCacheWith (maxDirectoryEntries (NewCache options)) n)
  ∧ (∀ n, NewCache (options ++ [MaxCachedDirectoryEntries n])
          = NewCacheWith n (maxDirectories (NewCache options))).
Proof.
  intros Hall. destruct (NewCache_shape options Hall) as (mE & mD & Heq).
  split_and!; [done|by rewrite Heq|..]; intros n;
    by rewrite NewCache_snoc, Heq.
Qed.

Lemma evict_over fuel c :
  overBudget c = true →
  evict (S fuel) c
  = match removeEntryLocked (tail c) c with
    | None => Panicked
    | Some c => evict fuel c
    end.
Proof. intros H. simpl. by rewrite H. Qed.

(** X16.  A negative directory bound makes the first insertion panic.
    On a new cache built with [MaxCachedDirectories] of a negative count,
    every call whose loader succeeds with a listing within the entry
    bound panics: the eviction loop removes the entry just inserted, the
    map is still larger than the bound, and the loop dereferences the nil
    [tail]. *)
Theorem negative_maxDirectories_insertion_panics
    maxEntries maxDirs fuel id exp cb w raw w' :
  (maxDirs < 0)%Z → (0 ≤ maxEntries < 2 ^ 62)%Z →
  cb w = ((raw, None), w') → (len raw ≤ maxEntries)%Z → 2 ≤ fuel →
  GetEntries Now fuel (Some (NewCacheWith maxEntries maxDirs)) id exp cb w
  = Panicked.
Proof.
  intros HmD HmE Hcb Hsmall Hfuel.
  destruct fuel as [|[|fuel]]; [lia|lia|].
  assert (0 ≤ len raw)%Z as Hraw by (unfold len; lia).
  unfold GetEntries. cbn [locked NewCacheWith].
  change (locked (NewCacheWith maxEntries maxDirs)) with false. cbv iota.
  assert (lookupEntry (Lock (NewCacheWith (Entry:=Entry) maxEntries maxDirs)) id
          = None) as ->.
  { unfold lookupEntry. destruct (decide (id = "")); [done|].
    apply lookup_empty. }
  unfold GetEntries_miss. rewrite Hcb.
  change (maxDirectoryEntries (Lock (NewCacheWith maxEntries maxDirs)))
    with maxEntries.
  rewrite (proj2 (Z.ltb_ge _ _) Hsmall).
  set (e := mkCacheEntry id None None (Now w' + exp) raw).
  change (addToHead _ _)
    with (Some (mkCache true 0 maxDirs maxEntries ∅ (Some 0) (Some 0) [e])).
  cbn [orPanic obind].
  set (c4 := set_total _ _).
  assert (c4 = mkCache true (len raw) maxDirs maxEntries
                 (<[id := 0]> ∅) (Some 0) (Some 0) [e]) as ->.
  { unfold c4, set_total, set_data. cbn.
    rewrite wrap64_small by lia. done. }
  rewrite evict_over; last first.
  { unfold overBudget. cbn.
    rewrite map_size_insert_None, map_size_empty by apply lookup_empty.
    apply orb_true_iff. right. apply Z.ltb_lt. lia. }
  change (removeEntryLocked _ _)
    with (Some (mkCache true (wrap64 (len raw - len raw)) maxDirs maxEntries
                  (delete id (<[id := 0]> ∅)) None None [e])).
  cbv iota. rewrite evict_over; [reflexivity|].
  unfold overBudget. cbn.
  rewrite delete_insert_eq, delete_empty, map_size_empty.
  apply orb_true_iff. right. apply Z.ltb_lt. lia.
Qed.

(** X17.  A negative entry bound switches the cache off.  From a cache
    built with [MaxCachedDirectoryEntries] of a negative count, regular
    calls that return a listing never change the cache: it stays the new
    cache, and nothing is ever served from it. *)
Theorem negative_maxDirectoryEntries_retains_nothing maxEntries maxDirs c :
  (maxEntries < 0)%Z →
  Filled (Err:=Err) Now maxEntries maxDirs c →
  c = NewCacheWith maxEntries maxDirs ∧ ∀ id w, hit Now c id w = None.
Proof.
  intros HmE Hfilled.
  assert (c = NewCacheWith maxEntries maxDirs) as ->; [|split; [done|]].
  { induction Hfilled as [|c fuel id exp cb w raw c' w' _ -> _ Hg]; [done|].
    unfold GetEntries in Hg.
    change (locked (NewCacheWith maxEntries maxDirs)) with false in Hg.
    cbv iota in Hg.
    assert (lookupEntry (Lock (NewCacheWith (Entry:=Entry) maxEntries maxDirs))
              id = None) as Hlook.
    { unfold lookupEntry. destruct (decide (id = "")); [done|].
      apply lookup_empty. }
    rewrite Hlook in Hg. unfold GetEntries_miss in Hg.
    destruct (cb w) as [[raw0 [err|]] w0]; [done|].
    change (maxDirectoryEntries (Lock (NewCacheWith maxEntries maxDirs)))
      with maxEntries in Hg.
    assert ((maxEntries <? len raw0)%Z = true) as Hbig
      by (apply Z.ltb_lt; unfold len; lia).
    rewrite Hbig in Hg. by injection Hg as _ <- _. }
  intros id w. unfold hit, lookupEntry.
  destruct (decide (id = "")); [done|].
  change (data (NewCacheWith maxEntries maxDirs)) with (∅ : gmap string addr).
  by rewrite lookup_empty.
Qed.

(** X18.  A call returns the cached listing or the loaded one, nothing
    else.  Whatever the state of the cache, a call of [GetEntries] that
    returns has either found a valid entry for a non-empty identifier,
    and then returns the listing stored in that entry and leaves the
    world alone; or it has run the loader once, and then returns the
    loader's listing, or its error with no listing. *)
Theorem GetEntries_returns_cached_or_loaded fuel c id exp cb w r c' w' :
  GetEntries Now fuel (Some c) id exp cb w = Returned (r, Some c', w') →
  match hit Now c id w with
  | Some v => r = (entries (deref c v), None) ∧ w' = w ∧ id ≠ ""
  | None =>
    w' = (cb w).2
    ∧ r = match (cb w).1.2 with
          | None => ((cb w).1.1, None)
          | Some e => ([], Some e)
          end
  end.
Proof.
  assert (∀ c1, GetEntries_miss Now fuel c1 id exp cb w
                = Returned (r, Some c', w') →
            w' = (cb w).2
            ∧ r = match (cb w).1.2 with
                  | None => ((cb w).1.1, None)
                  | Some e => ([], Some e)
                  end) as Hmiss.
  { intros c1. unfold GetEntries_miss.
    destruct (cb w) as [[raw [err|]] w1]; cbn [fst snd].
    { by intros [= <- _ <-]. }
    destruct (maxDirectoryEntries c1 <? len raw)%Z.
    { by intros [= <- _ <-]. }
    cbv zeta. destruct (addToHead _ _) as [c2|]; [|done].
    cbn [orPanic obind]. destruct (evict fuel _) as [c5| | |]; try done.
    cbn [obind]. by intros [= <- _ <-]. }
  unfold GetEntries, hit. destruct (locked c); [done|].
  change (lookupEntry (Lock c) id) with (lookupEntry c id).
  destruct (lookupEntry c id) as [v|] eqn:Hlook; cbn [mbind option_bind].
  - change (deref (Lock c) v) with (deref c v).
    destruct (Now w <? expireAfter (deref c v))%Z.
    + destruct (moveToHead_frame v (Lock c))
        as (c1 & -> & _ & _ & _ & _ & _ & _ & Hs).
      cbn [orPanic obind]. intros [= <- _ <-].
      destruct (Hs v) as (_ & -> & _).
      apply lookupEntry_Some in Hlook as [Hid _]. by split_and!.
    + destruct (removeEntryLocked (Some v) (Lock c)) as [c1|]; [|done].
      cbn [orPanic obind]. apply Hmiss.
  - apply Hmiss.
Qed.
End FscacheBounds.

(** ** Removal from list, map and counter; the directory bound *)

Section FscacheRemoval.
Import Fscache.
Context {Entry Err World : Type}.
Variable Now : World → Z.

Implicit Types (c : @Fscache.Cache Entry) (l : list addr) (v : addr)
  (p : ptr) (cb : @Fscache.Loader Entry Err World) (w : World).

(** X19.  [removeEntryLocked] takes an entry out of list, map and
    counter together.  On a cache whose map, list and counter agree,
    [removeEntryLocked] of a cached entry (which, when it is the first
    one, has a nil [prev] pointer) leaves the list without the entry,
    the map without the entry's identifier and the counter lowered by
    the entry's count, without wrapping; map, list and counter agree
    again. *)
Theorem removeEntryLocked_takes_out c p l1 v l2 :
  Linked c p (l1 ++ v :: l2) → (l1 = [] → p = None) →
  (totalDirectoryEntries c < 2 ^ 63)%Z →
  ∃ c', removeEntryLocked (Some v) c = Some c'
    ∧ order c' = l1 ++ l2
    ∧ data c' = delete (Fscache.id (deref c v)) (data c)
    ∧ data c' !! Fscache.id (deref c v) = None
    ∧ totalDirectoryEntries c'
      = (totalDirectoryEntries c - len (entries (deref c v)))%Z
    ∧ cachedCost c' = totalDirectoryEntries c'
    ∧ Linked c' p (l1 ++ l2).
Proof.
  intros Hl Hp Hbound.
  destruct (Linked_removeEntryLocked c p l1 v l2 Hl Hp Hbound)
    as (c' & Hr & Hl' & _).
  destruct (removeEntryLocked_frame v c)
    as (c'' & Hr' & _ & Htot & _ & _ & Hdata & _).
  assert (c'' = c') as -> by congruence.
  exists c'. split_and!; try done.
  - by apply Linked_order with p.
  - rewrite Hdata. apply lookup_delete_eq.
  - rewrite Htot. apply wrap64_small.
    rewrite (linked_total _ _ _ Hl), cost_app. simpl.
    fold (cost c l2).
    pose proof (cost_nonneg c l1). pose proof (cost_nonneg c l2).
    pose proof (linked_total _ _ _ Hl) as Ht. rewrite cost_app in Ht.
    simpl in Ht. fold (cost c l2) in Ht. unfold len in *. lia.
  - by apply Linked_cachedCost with p (l1 ++ l2).
Qed.

(** The eviction loop returns within both bounds. *)
Lemma evict_within fuel c c' :
  evict fuel c = Returned c' → overBudget c' = false.
Proof.
  revert c. induction fuel as [|fuel IH]; intros c; simpl;
    destruct (overBudget c) eqn:Hover; try done; try by intros [= <-].
  destruct (removeEntryLocked (tail c) c) as [c1|]; [|done]. apply IH.
Qed.

Lemma GetEntries_miss_within fuel c id exp cb w r c' w' :
  GetEntries_miss Now fuel c id exp cb w = Returned (r, Some c', w') →
  (Z.of_nat (size (data c)) ≤ maxDirectories c)%Z →
  (Z.of_nat (size (data c')) ≤ maxDirectories c')%Z
  ∧ maxDirectories c' = maxDirectories c
  ∧ maxDirectoryEntries c' = maxDirectoryEntries c.
Proof.
  intros Hg Hle.
  pose proof (GetEntries_miss_frame Now fuel c id exp cb w r c' w' Hg)
    as (_ & HD & HE & _).
  split_and!; try done. revert Hg. unfold GetEntries_miss.
  destruct (cb w) as [[raw [err|]] w1].
  { by intros [= _ <- _]. }
  destruct (maxDirectoryEntries c <? len raw)%Z.
  { by intros [= _ <- _]. }
  cbv zeta. destruct (addToHead _ _) as [c2|]; [|done].
  cbn [orPanic obind]. destruct (evict fuel _) as [c5| | |] eqn:He; try done.
  cbn [obind]. intros [= _ <- _].
  apply evict_within in He. unfold overBudget in He.
  apply orb_false_iff in He as [_ He]. apply Z.ltb_ge in He. done.
Qed.

Lemma GetEntries_within fuel c id exp cb w r c' w' :
  GetEntries Now fuel (Some c) id exp cb w = Returned (r, Some c', w') →
  (Z.of_nat (size (data c)) ≤ maxDirectories c)%Z →
  (Z.of_nat (size (data c')) ≤ maxDirectories c')%Z
  ∧ maxDirectories c' = maxDirectories c
  ∧ maxDirectoryEntries c' = maxDirectoryEntries c.
Proof.
  unfold GetEntries. destruct (locked c); [done|].
  destruct (lookupEntry (Lock c) id) as [v|].
  - destruct (Now w <? expireAfter (deref (Lock c) v))%Z.
    + destruct (moveToHead_frame v (Lock c))
        as (c1 & -> & _ & _ & HD & HE & Hdata & _).
      cbn [orPanic obind]. intros [= _ <- _] Hle. simpl in *.
      rewrite Hdata, HD, HE. done.
    + destruct (removeEntryLocked_frame v (Lock c))
        as (c1 & -> & _ & _ & HD & HE & Hdata & _).
      cbn [orPanic obind]. intros Hg Hle.
      destruct (GetEntries_miss_within fuel c1 id exp cb w r c' w' Hg)
        as (H1 & H2 & H3).
      * rewrite Hdata, HD. simpl.
        pose proof (map_subseteq_size _ _
                      (delete_subseteq (data c) (Fscache.id (deref (Lock c) v)))).
        lia.
      * simpl in *. split_and!; [done|congruence|congruence].
  - intros Hg Hle.
    by apply (GetEntries_miss_within fuel (Lock c) id exp cb w r c' w' Hg).
Qed.

(** X20.  The directory bound holds whatever the calls.  In every state
    reached from a new cache with a directory bound that is not negative,
    by calls of [GetEntries] that return (regular or not, with
    loaders that fail or succeed, with empty identifiers), the map
    holds at most [maxDirectories] records, and the two bounds are the
    ones the cache was built with. *)
Theorem reachable_map_within_bound maxEntries maxDirs c :
  (0 ≤ maxDirs)%Z →
  Reachable (Err:=Err) Now maxEntries maxDirs c →
  (Z.of_nat (size (data c)) ≤ maxDirs)%Z
  ∧ maxDirectories c = maxDirs
  ∧ maxDirectoryEntries c = maxEntries.
Proof.
  intros HmD.
  induction 1 as [|c fuel id exp cb w r c' w' _ (IH1 & IH2 & IH3) Hg].
  { by split_and!. }
  destruct (GetEntries_within fuel c id exp cb w r c' w' Hg)
    as (H1 & H2 & H3); [lia|].
  split_and!; [lia|congruence|congruence].
Qed.
End FscacheRemoval.

(** * Further properties of the block cache constructor *)

Section BlockSweeper.
Import Block.
Context {Storage IndexInfo Err : Type}.
Variable filepath_Join : string → string → string.
Variable os_IsNotExist : Err → bool.

(** X21.  The periodic sweep runs exactly for the engines handed out.
    Whatever the options and whatever the system answers, a run of
    [newBlockCache] starts the periodic sweep of a cache [c] exactly when
    it returns the engine [c]: no background task is left behind by a run
    that returns an error or the disabled variant, and none is started
    for a cache other than the one returned.  A run makes six calls at
    most. *)
Theorem newBlockCache_sweeper_iff_engine (st : Storage)
    (caching : CachingOptions) (Sys : Type)
    (env : ∀ c : @Call Storage, Sys → @Resp Storage IndexInfo Err c * Sys)
    (s : Sys) :
  let '(r, _, t) :=
    run env (newBlockCache filepath_Join os_IsNotExist st caching) s in
  (∀ c, ev (go_sweepDirectoryPeriodically c) tt ∈ t ↔ r = inr (localCache c))
  ∧ length t ≤ 6.
Proof.
  unfold newBlockCache.
  destruct (bool_decide (MaxCacheSizeBytes caching = 0%Z)
            || bool_decide (CacheDirectory caching = "")).
  { simpl. split; [|lia]. intros c. split; [by intros ?%elem_of_nil|done]. }
  set (dir := filepath_Join (CacheDirectory caching) "blocks").
  cbn [mbind Prog_bind bind call run].
  destruct (env (os_Stat dir) s) as [statErr s1].
  destruct (isNotExist os_IsNotExist statErr) eqn:Hne;
    destruct (IgnoreListCache caching);
    repeat (cbn [mbind Prog_bind bind call run when];
            match goal with
            | |- context [env ?c ?s] =>
                let x := fresh "x" in
                destruct (env c s) as [x ?]; destruct x
            end);
    cbn [mbind Prog_bind bind call run when].
  all: split; [|simpl; lia].
  all: intros c; split;
    [ intros H;
      repeat (apply elem_of_cons in H as [H|H];
              [try (by inversion H)|]);
      try (by apply elem_of_nil in H)
    | intros [= <-];
      repeat first [apply list_elem_of_here | apply list_elem_of_further] ].
Qed.
End BlockSweeper.

(** * Instances of the further properties *)

Section FscacheFurtherRuns.
Import Fscache Fscache.Example.

(** Two directories of four entries each, loaded at time 0 into a cache
    for 10 entries and 5 directories. *)
Lemma Filled_two :
  Filled (Err:=string) now 10 5
    (after 10 (cache 10 5) [get "d1" 4 0; get "d2" 4 0]).
Proof.
  apply (filled_call now 10 5 (after 10 (cache 10 5) [get "d1" 4 0])
           10 "d2" 10 (load 4) (0%Z, 1) (seq 0 4) _ (0%Z, 2)).
  - apply (filled_call now 10 5 (cache 10 5)
             10 "d1" 10 (load 4) (0%Z, 0) (seq 0 4) _ (0%Z, 1)).
    + apply filled_new.
    + by vm_compute.
    + by vm_compute.
  - by vm_compute.
  - by vm_compute.
Qed.

Lemma Filled_one :
  Filled (Err:=string) now 10 5 (after 10 (cache 10 5) [get "d1" 4 0]).
Proof.
  apply (filled_call now 10 5 (cache 10 5)
           10 "d1" 10 (load 4) (0%Z, 0) (seq 0 4) _ (0%Z, 1)).
  - apply filled_new.
  - by vm_compute.
  - by vm_compute.
Qed.

Lemma Reachable_two :
  Reachable (Err:=string) now 10 5
    (after 10 (cache 10 5) [get "d1" 4 0; get "d2" 4 0]).
Proof.
  apply (reachable_call now 10 5 (after 10 (cache 10 5) [get "d1" 4 0])
           10 "d2" 10 (load 4) (0%Z, 1) (seq 0 4, None) _ (0%Z, 2)).
  - apply (reachable_call now 10 5 (cache 10 5)
             10 "d1" 10 (load 4) (0%Z, 0) (seq 0 4, None) _ (0%Z, 1)).
    + apply reachable_new.
    + by vm_compute.
  - by vm_compute.
Qed.

Lemma Linked_two :
  Linked (after 10 (cache 10 5) [get "d1" 4 0; get "d2" 4 0]) None [1; 0].
Proof.
  destruct (Filled_Inv now 10 5 _ ltac:(lia) ltac:(lia) Filled_two)
    as (l & Hinv & _).
  pose proof (Inv_order _ _ Hinv) as Ho.
  assert (order (after 10 (cache 10 5) [get "d1" 4 0; get "d2" 4 0])
          = [1; 0]) as Ho' by by vm_compute.
  rewrite Ho' in Ho. subst l.
  destruct (inv_linked _ _ Hinv) as [p Hl].
  destruct (chain_seg _ _ _ (linked_chain _ _ _ Hl)) as (_ & Hp & _).
  vm_compute in Hp. by subst p.
Qed.

Lemma GetEntries_keeps_entries_witness :
  let c := after 10 (cache 10 5) [get "d1" 4 0; get "d2" 4 0] in
  let c' := after 10 (cache 10 5) [get "d1" 4 0; get "d2" 4 0; get "d3" 4 0] in
  GetEntries now 10 (Some c) "d3" 10 (load 4) (0%Z, 2)
  = Returned ((seq 0 4, None), Some c', (0%Z, 3))
  ∧ ((∀ x, x < length (heap c) →
        Fscache.id (deref c' x) = Fscache.id (deref c x)
        ∧ entries (deref c' x) = entries (deref c x)
        ∧ expireAfter (deref c' x) = expireAfter (deref c x))
     ∧ length (heap c) ≤ length (heap c') ≤ S (length (heap c))
     ∧ maxDirectories c' = maxDirectories c
     ∧ maxDirectoryEntries c' = maxDirectoryEntries c).
Proof.
  intros c c'.
  assert (GetEntries now 10 (Some c) "d3" 10 (load 4) (0%Z, 2)
          = Returned ((seq 0 4, None), Some c', (0%Z, 3))) as Hg
    by by vm_compute.
  split; [exact Hg|].
  exact (GetEntries_keeps_entries now 10 c "d3" 10 (load 4) (0%Z, 2)
           (seq 0 4, None) c' (0%Z, 3) Hg).
Defined.

Lemma GetEntries_lock_after_call_witness :
  let c := after 10 (cache 10 5) [get "d1" 4 0; get "d2" 4 0] in
  let c' := after 10 (cache 10 5)
              [get "d1" 4 0; get "d2" 4 0; getFailing "d3" 0] in
  let r : reply := ([], Some "boom") in
  GetEntries now 10 (Some c) "d3" 10 (failing "boom") (0%Z, 2)
  = Returned (r, Some c', (0%Z, 3))
  ∧ (locked c = false
     ∧ (locked c' = true ↔ is_Some r.2)
     ∧ ∀ fuel2 id2 exp2 (cb2 : @Loader nat string W) w2,
         GetEntries now fuel2 (Some c') id2 exp2 cb2 w2 = Blocked
         ↔ is_Some r.2).
Proof.
  intros c c' r.
  assert (GetEntries now 10 (Some c) "d3" 10 (failing "boom") (0%Z, 2)
          = Returned (r, Some c', (0%Z, 3))) as Hg
    by by vm_compute.
  split; [exact Hg|].
  exact (GetEntries_lock_after_call now 10 c "d3" 10 (failing "boom")
           (0%Z, 2) r c' (0%Z, 3) Hg).
Defined.

Lemma regular_calls_keep_counters_witness :
  let c := after 10 (cache 10 5) [get "d1" 4 0; get "d2" 4 0] in
  ((0 ≤ 5)%Z ∧ (0 ≤ 10 < 2 ^ 62)%Z ∧ Filled (Err:=string) now 10 5 c)
  ∧ (locked c = false
     ∧ totalDirectoryEntries c = cachedCost c
     ∧ (totalDirectoryEntries c ≤ 10)%Z
     ∧ (Z.of_nat (size (data c)) ≤ 5)%Z
     ∧ size (data c) = length (order c)
     ∧ maxDirectoryEntries c = 10%Z
     ∧ maxDirectories c = 5%Z).
Proof.
  intros c.
  assert ((0 ≤ 5)%Z) as H1 by lia.
  assert ((0 ≤ 10 < 2 ^ 62)%Z) as H2 by lia.
  split; [by split_and!; [..|exact Filled_two]|].
  exact (regular_calls_keep_counters now 10 5 c H1 H2 Filled_two).
Defined.

Lemma regular_calls_keep_identifiers_apart_witness :
  let c := after 10 (cache 10 5) [get "d1" 4 0; get "d2" 4 0] in
  ((0 ≤ 5)%Z ∧ (0 ≤ 10 < 2 ^ 62)%Z ∧ Filled (Err:=string) now 10 5 c)
  ∧ (NoDup (order c)
     ∧ NoDup (ids c (order c))
     ∧ ∀ k a, data c !! k = Some a
              ↔ a ∈ order c ∧ Fscache.id (deref c a) = k).
Proof.
  intros c.
  assert ((0 ≤ 5)%Z) as H1 by lia.
  assert ((0 ≤ 10 < 2 ^ 62)%Z) as H2 by lia.
  split; [by split_and!; [..|exact Filled_two]|].
  exact (regular_calls_keep_identifiers_apart now 10 5 c H1 H2 Filled_two).
Defined.

Lemma reachable_records_carry_their_key_witness :
  let c := after 10 (cache 10 5) [get "d1" 4 0; get "d2" 4 0] in
  (Reachable (Err:=string) now 10 5 c ∧ data c !! "d2" = Some 1)
  ∧ (1 < length (heap c) ∧ Fscache.id (deref c 1) = "d2").
Proof.
  intros c.
  assert (data c !! "d2" = Some 1) as Hd by by vm_compute.
  split; [split; [exact Reachable_two|exact Hd]|].
  exact (reachable_records_carry_their_key now 10 5 c Reachable_two
           "d2" 1 Hd).
Defined.

Lemma lookup_promotes_witness :
  let c := after 10 (cache 10 5) [get "d1" 4 0; get "d2" 4 0] in
  ((0 ≤ 5)%Z ∧ (0 ≤ 10 < 2 ^ 62)%Z ∧ Filled (Err:=string) now 10 5 c
   ∧ hit now c "d1" (1%Z, 2) = Some 0)
  ∧ ∃ c' l1 l2,
      order c = l1 ++ 0 :: l2
      ∧ GetEntries now 10 (Some c) "d1" 10 (load 7) (1%Z, 2)
        = Returned ((entries (deref c 0), None), Some c', (1%Z, 2))
      ∧ order c' = 0 :: l1 ++ l2
      ∧ data c' = data c
      ∧ totalDirectoryEntries c' = totalDirectoryEntries c.
Proof.
  intros c.
  assert ((0 ≤ 5)%Z) as H1 by lia.
  assert ((0 ≤ 10 < 2 ^ 62)%Z) as H2 by lia.
  assert (hit now c "d1" (1%Z, 2) = Some 0) as Hh by by vm_compute.
  split; [by split_and!; [..|exact Filled_two|]|].
  exact (lookup_promotes now 10 5 c 10 "d1" 10 (load 7) (1%Z, 2) 0
           H1 H2 Filled_two Hh).
Defined.

Lemma regular_calls_return_witness :
  let c := after 10 (cache 10 5) [get "d1" 4 0; get "d2" 4 0] in
  ((0 ≤ 5)%Z ∧ (0 ≤ 10 < 2 ^ 62)%Z ∧ Filled (Err:=string) now 10 5 c
   ∧ Regular now c "d3" (0%Z, 2) ∧ length (order c) < 10)
  ∧ ∃ r c' w', GetEntries now 10 (Some c) "d3" 10 (failing "boom") (0%Z, 2)
               = Returned (r, Some c', w').
Proof.
  intros c.
  assert ((0 ≤ 5)%Z) as H1 by lia.
  assert ((0 ≤ 10 < 2 ^ 62)%Z) as H2 by lia.
  assert (Regular now c "d3" (0%Z, 2)) as H3 by by vm_compute.
  assert (length (order c) < 10) as H4 by (vm_compute; lia).
  split; [by split_and!; [..|exact Filled_two| |]|].
  exact (regular_calls_return now 10 5 c 10 "d3" 10 (failing "boom")
           (0%Z, 2) H1 H2 Filled_two H3 H4).
Defined.

Lemma loaded_listing_is_served_witness :
  let c := after 10 (cache 10 5) [get "d1" 4 0; get "d2" 4 0] in
  ((0 < 5)%Z ∧ (0 ≤ 10 < 2 ^ 62)%Z ∧ Filled (Err:=string) now 10 5 c
   ∧ Regular now c "d3" (0%Z, 2) ∧ hit now c "d3" (0%Z, 2) = None
   ∧ "d3" ≠ "" ∧ load 4 (0%Z, 2) = ((seq 0 4, None), (0%Z, 3))
   ∧ (len (seq 0 4) ≤ 10)%Z ∧ length (order c) < 10)
  ∧ ∃ c',
      GetEntries now 10 (Some c) "d3" 10 (load 4) (0%Z, 2)
      = Returned ((seq 0 4, None), Some c', (0%Z, 3))
      ∧ ∀ fuel2 exp2 (cb2 : @Loader nat string W) w2, (now w2 < now (0%Z, 3%nat) + 10)%Z →
          ∃ c'', GetEntries now fuel2 (Some c') "d3" exp2 cb2 w2
                 = Returned ((seq 0 4, None), Some c'', w2).
Proof.
  intros c.
  assert ((0 < 5)%Z) as H1 by lia.
  assert ((0 ≤ 10 < 2 ^ 62)%Z) as H2 by lia.
  assert (Regular now c "d3" (0%Z, 2)) as H3 by by vm_compute.
  assert (hit now c "d3" (0%Z, 2) = None) as H4 by by vm_compute.
  assert ("d3" ≠ "") as H5 by discriminate.
  assert (load 4 (0%Z, 2) = ((seq 0 4, None), (0%Z, 3))) as H6 by done.
  assert ((len (seq 0 4) ≤ 10)%Z) as H7 by (vm_compute; discriminate).
  assert (length (order c) < 10) as H8 by (vm_compute; lia).
  split; [by split_and!; [..|exact Filled_two| | | | | |]|].
  exact (loaded_listing_is_served now 10 5 c 10 "d3" 10 (load 4) (0%Z, 2)
           (seq 0 4) (0%Z, 3) H1 H2 Filled_two H3 H4 H5 H6 H7 H8).
Defined.

Lemma Readdir_serves_for_a_day_witness :
  let c := after 10 (cache 10 5) [get "d1" 4 0; get "d2" 4 0] in
  let d := mkDirectory (Some "d3") (load 4) in
  ((0 < 5)%Z ∧ (0 ≤ 10 < 2 ^ 62)%Z ∧ Filled (Err:=string) now 10 5 c
   ∧ objectID d = Some "d3" ∧ "d3" ≠ ""
   ∧ Regular now c "d3" (0%Z, 2) ∧ hit now c "d3" (0%Z, 2) = None
   ∧ dirReaddir d (0%Z, 2) = ((seq 0 4, None), (0%Z, 3))
   ∧ (len (seq 0 4) ≤ 10)%Z ∧ length (order c) < 10)
  ∧ ∃ c',
      Readdir now 10 (Some c) d (0%Z, 2)
      = Returned ((seq 0 4, None), Some c', (0%Z, 3))
      ∧ ∀ fuel2 (d2 : @Directory nat string W) w2,
          objectID d2 = Some "d3" →
          (now w2 < now (0%Z, 3%nat) + 86400000000000)%Z →
          ∃ c'', Readdir now fuel2 (Some c') d2 w2
                 = Returned ((seq 0 4, None), Some c'', w2).
Proof.
  intros c d.
  assert ((0 < 5)%Z) as H1 by lia.
  assert ((0 ≤ 10 < 2 ^ 62)%Z) as H2 by lia.
  assert (objectID d = Some "d3") as H0 by done.
  assert (Regular now c "d3" (0%Z, 2)) as H3 by by vm_compute.
  assert (hit now c "d3" (0%Z, 2) = None) as H4 by by vm_compute.
  assert ("d3" ≠ "") as H5 by discriminate.
  assert (dirReaddir d (0%Z, 2) = ((seq 0 4, None), (0%Z, 3))) as H6 by done.
  assert ((len (seq 0 4) ≤ 10)%Z) as H7 by (vm_compute; discriminate).
  assert (length (order c) < 10) as H8 by (vm_compute; lia).
  split; [by split_and!; [..|exact Filled_two| | | | | | |]|].
  exact (Readdir_serves_for_a_day now 10 5 c 10 d "d3" (0%Z, 2)
           (seq 0 4) (0%Z, 3) H1 H2 Filled_two H0 H5 H3 H4 H6 H7 H8).
Defined.

Lemma insertion_without_pressure_evicts_nothing_witness :
  let c := after 10 (cache 10 5) [get "d1" 4 0] in
  ((0 ≤ 5)%Z ∧ (0 ≤ 10 < 2 ^ 62)%Z ∧ Filled (Err:=string) now 10 5 c
   ∧ data c !! "d2" = None
   ∧ load 4 (0%Z, 1) = ((seq 0 4, None), (0%Z, 2))
   ∧ (totalDirectoryEntries c + len (seq 0 4) ≤ 10)%Z
   ∧ (Z.of_nat (size (data c)) < 5)%Z ∧ length (order c) < 10)
  ∧ ∃ c',
      GetEntries now 10 (Some c) "d2" 10 (load 4) (0%Z, 1)
      = Returned ((seq 0 4, None), Some c', (0%Z, 2))
      ∧ order c' = length (heap c) :: order c
      ∧ data c' = <["d2" := length (heap c)]> (data c)
      ∧ totalDirectoryEntries c'
        = (totalDirectoryEntries c + len (seq 0 4))%Z.
Proof.
  intros c.
  assert ((0 ≤ 5)%Z) as H1 by lia.
  assert ((0 ≤ 10 < 2 ^ 62)%Z) as H2 by lia.
  assert (data c !! "d2" = None) as H3 by by vm_compute.
  assert (load 4 (0%Z, 1) = ((seq 0 4, None), (0%Z, 2))) as H4 by done.
  assert ((totalDirectoryEntries c + len (seq 0 4) ≤ 10)%Z) as H5
    by (vm_compute; discriminate).
  assert ((Z.of_nat (size (data c)) < 5)%Z) as H6 by by vm_compute.
  assert (length (order c) < 10) as H7 by (vm_compute; lia).
  split; [by split_and!; [..|exact Filled_one| | | | |]|].
  exact (insertion_without_pressure_evicts_nothing now 10 5 c 10 "d2" 10
           (load 4) (0%Z, 1) (seq 0 4) (0%Z, 2)
           H1 H2 Filled_one H3 H4 H5 H6 H7).
Defined.
Lemma Filled_zero :
  Filled (Err:=string) now 10 0 (after 10 (cache 10 0) [get "d1" 4 0]).
Proof.
  apply (filled_call now 10 0 (cache 10 0)
           10 "d1" 10 (load 4) (0%Z, 0) (seq 0 4) _ (0%Z, 1)).
  - apply filled_new.
  - by vm_compute.
  - by vm_compute.
Qed.

Lemma Filled_negative :
  Filled (Err:=string) now (-1) 5 (after 10 (cache (-1) 5) [get "d1" 4 0]).
Proof.
  apply (filled_call now (-1) 5 (cache (-1) 5)
           10 "d1" 10 (load 4) (0%Z, 0) (seq 0 4) _ (0%Z, 1)).
  - apply filled_new.
  - by vm_compute.
  - by vm_compute.
Qed.

Lemma Chain_two :
  Chain (after 10 (cache 10 5) [get "d1" 4 0; get "d2" 4 0]) None
    ([1] ++ 0 :: []).
Proof. apply (linked_chain _ _ _ Linked_two). Qed.

(** The cache above with the entry of [d1] unlinked by [remove]. *)
Lemma Chain_unlinked :
  Chain (default (cache 10 5)
           (remove (Some 0)
              (after 10 (cache 10 5) [get "d1" 4 0; get "d2" 4 0])))
    None [1].
Proof.
  destruct (Chain_remove _ None [1] 0 [] Chain_two) as (c' & Hr & Hc');
    [done|].
  by rewrite Hr.
Qed.

Lemma zero_maxDirectories_retains_nothing_witness :
  let c := after 10 (cache 10 0) [get "d1" 4 0] in
  ((0 ≤ 10 < 2 ^ 62)%Z ∧ Filled (Err:=string) now 10 0 c)
  ∧ (data c = ∅ ∧ head c = None ∧ tail c = None
     ∧ totalDirectoryEntries c = 0%Z
     ∧ ∀ id w, hit now c id w = None).
Proof.
  intros c.
  assert ((0 ≤ 10 < 2 ^ 62)%Z) as H2 by lia.
  split; [split; [exact H2|exact Filled_zero]|].
  exact (zero_maxDirectories_retains_nothing now 10 c H2 Filled_zero).
Defined.

Lemma remove_unlinks_witness :
  let c := after 10 (cache 10 5) [get "d1" 4 0; get "d2" 4 0] in
  (Chain c None ([1] ++ 0 :: []) ∧ ([1] = [] → (None : ptr) = None))
  ∧ ∃ c', remove (Some 0) c = Some c'
      ∧ order c = [1] ++ 0 :: []
      ∧ order c' = [1] ++ []
      ∧ Chain c' None ([1] ++ [])
      ∧ samePayload c c'
      ∧ data c' = data c
      ∧ totalDirectoryEntries c' = totalDirectoryEntries c.
Proof.
  intros c.
  assert ([1] = [] → (None : ptr) = None) as Hp by done.
  split; [split; [exact Chain_two|exact Hp]|].
  exact (remove_unlinks c None [1] 0 [] Chain_two Hp).
Defined.

Lemma addToHead_links_witness :
  let c := default (cache 10 5)
             (remove (Some 0)
                (after 10 (cache 10 5) [get "d1" 4 0; get "d2" 4 0])) in
  (Chain c None [1] ∧ (0 ∉ [1]) ∧ (0 < length (heap c))
   ∧ ([1] = [] → next (deref c 0) = None))
  ∧ ∃ c', addToHead (Some 0) c = Some c'
      ∧ order c' = 0 :: [1]
      ∧ Chain c' (prev (deref c 0)) (0 :: [1])
      ∧ prev (deref c' 0) = prev (deref c 0)
      ∧ samePayload c c'.
Proof.
  intros c.
  assert (0 ∉ [1]) as H1 by (by intros ?%list_elem_of_singleton).
  assert (0 < length (heap c)) as H2 by (vm_compute; lia).
  assert ([1] = [] → next (deref c 0) = None) as H3 by done.
  split; [split_and!; [exact Chain_unlinked|exact H1|exact H2|exact H3]|].
  exact (addToHead_links c None [1] 0 Chain_unlinked H1 H2 H3).
Defined.

Lemma moveToHead_then_remove_keeps_head_witness :
  let c := after 10 (cache 10 5) [get "d1" 4 0; get "d2" 4 0] in
  (Chain c None ([1] ++ 0 :: []) ∧ [1] !! 0 = Some 1 ∧ last [1] = Some 1)
  ∧ ∃ c1 c2, moveToHead (Some 0) c = Some c1
      ∧ order c1 = 0 :: [1] ++ []
      ∧ remove (Some 0) c1 = Some c2
      ∧ head c2 = Some 0
      ∧ next (deref c2 0) = Some 1
      ∧ next (deref c2 1) = Some 1.
Proof.
  intros c.
  split; [split_and!; [exact Chain_two|reflexivity|reflexivity]|].
  exact (moveToHead_then_remove_keeps_head c [1] 0 [] 1 1
           Chain_two eq_refl eq_refl).
Defined.

Lemma NewCache_options_witness :
  let options : list (@CacheOption nat) :=
    [MaxCachedDirectories 5; MaxCachedDirectoryEntries 7] in
  Forall (λ o, ∃ n, o = MaxCachedDirectories n
                    ∨ o = MaxCachedDirectoryEntries n) options
  ∧ (NewCache (Entry:=nat) [] = NewCacheWith 100000 1000
     ∧ NewCache options
       = NewCacheWith (maxDirectoryEntries (NewCache options))
                      (maxDirectories (NewCache options))
     ∧ (∀ n, NewCache (options ++ [MaxCachedDirectories n])
             = NewCacheWith (maxDirectoryEntries (NewCache options)) n)
     ∧ (∀ n, NewCache (options ++ [MaxCachedDirectoryEntries n])
             = NewCacheWith n (maxDirectories (NewCache options)))).
Proof.
  intros options.
  assert (Forall (λ o, ∃ n, o = MaxCachedDirectories n
                            ∨ o = MaxCachedDirectoryEntries n) options) as H.
  { repeat constructor.
    - exists 5%Z. by left.
    - exists 7%Z. by right. }
  split; [exact H|].
  exact (NewCache_options options H).
Defined.

Lemma negative_maxDirectories_insertion_panics_witness :
  ((-1 < 0)%Z ∧ (0 ≤ 10 < 2 ^ 62)%Z
   ∧ load 1 (0%Z, 0) = ((seq 0 1, None), (0%Z, 1))
   ∧ (len (seq 0 1) ≤ 10)%Z ∧ 2 ≤ 10)
  ∧ GetEntries now 10 (Some (NewCacheWith 10 (-1))) "d1" 10 (load 1) (0%Z, 0)
    = Panicked.
Proof.
  assert ((-1 < 0)%Z) as H1 by lia.
  assert ((0 ≤ 10 < 2 ^ 62)%Z) as H2 by lia.
  assert (load 1 (0%Z, 0) = ((seq 0 1, None), (0%Z, 1))) as H3 by done.
  assert ((len (seq 0 1) ≤ 10)%Z) as H4 by (vm_compute; discriminate).
  assert (2 ≤ 10) as H5 by lia.
  split; [by split_and!|].
  exact (negative_maxDirectories_insertion_panics now 10 (-1) 10 "d1" 10
           (load 1) (0%Z, 0) (seq 0 1) (0%Z, 1) H1 H2 H3 H4 H5).
Defined.

Lemma negative_maxDirectoryEntries_retains_nothing_witness :
  let c := after 10 (cache (-1) 5) [get "d1" 4 0] in
  ((-1 < 0)%Z ∧ Filled (Err:=string) now (-1) 5 c)
  ∧ (c = NewCacheWith (-1) 5 ∧ ∀ id w, hit now c id w = None).
Proof.
  intros c.
  assert ((-1 < 0)%Z) as H1 by lia.
  split; [split; [exact H1|exact Filled_negative]|].
  exact (negative_maxDirectoryEntries_retains_nothing now (-1) 5 c
           H1 Filled_negative).
Defined.

Lemma GetEntries_returns_cached_or_loaded_witness :
  let c := after 10 (cache 10 5) [get "d1" 4 0; get "d2" 4 0] in
  let c' := after 10 (cache 10 5) [get "d1" 4 0; get "d2" 4 0; get "d1" 7 1] in
  let r : reply := (seq 0 4, None) in
  GetEntries now 10 (Some c) "d1" 10 (load 7) (1%Z, 2)
  = Returned (r, Some c', (1%Z, 2))
  ∧ match hit now c "d1" (1%Z, 2) with
    | Some v => r = (entries (deref c v), None)
                ∧ (1%Z, 2) = (1%Z, 2) ∧ "d1" ≠ ""
    | None =>
      (1%Z, 2) = (load 7 (1%Z, 2)).2
      ∧ r = match (load 7 (1%Z, 2)).1.2 with
            | None => ((load 7 (1%Z, 2)).1.1, None)
            | Some e => ([], Some e)
            end
    end.
Proof.
  intros c c' r.
  assert (GetEntries now 10 (Some c) "d1" 10 (load 7) (1%Z, 2)
          = Returned (r, Some c', (1%Z, 2))) as Hg
    by by vm_compute.
  split; [exact Hg|].
  exact (GetEntries_returns_cached_or_loaded now 10 c "d1" 10 (load 7)
           (1%Z, 2) r c' (1%Z, 2) Hg).
Defined.

Lemma removeEntryLocked_takes_out_witness :
  let c := after 10 (cache 10 5) [get "d1" 4 0; get "d2" 4 0] in
  (Linked c None ([1] ++ 0 :: []) ∧ ([1] = [] → (None : ptr) = None)
   ∧ (totalDirectoryEntries c < 2 ^ 63)%Z)
  ∧ ∃ c', removeEntryLocked (Some 0) c = Some c'
      ∧ order c' = [1] ++ []
      ∧ data c' = delete (Fscache.id (deref c 0)) (data c)
      ∧ data c' !! Fscache.id (deref c 0) = None
      ∧ totalDirectoryEntries c'
        = (totalDirectoryEntries c - len (entries (deref c 0)))%Z
      ∧ cachedCost c' = totalDirectoryEntries c'
      ∧ Linked c' None ([1] ++ []).
Proof.
  intros c.
  assert ([1] = [] → (None : ptr) = None) as Hp by done.
  assert ((totalDirectoryEntries c < 2 ^ 63)%Z) as Hb by by vm_compute.
  split; [split_and!; [exact Linked_two|exact Hp|exact Hb]|].
  exact (removeEntryLocked_takes_out c None [1] 0 [] Linked_two Hp Hb).
Defined.

Lemma reachable_map_within_bound_witness :
  let c := after 10 (cache 10 5) [get "d1" 4 0; get "d2" 4 0] in
  ((0 ≤ 5)%Z ∧ Reachable (Err:=string) now 10 5 c)
  ∧ ((Z.of_nat (size (data c)) ≤ 5)%Z
     ∧ maxDirectories c = 5%Z
     ∧ maxDirectoryEntries c = 10%Z).
Proof.
  intros c.
  assert ((0 ≤ 5)%Z) as H1 by lia.
  split; [split; [exact H1|exact Reachable_two]|].
  exact (reachable_map_within_bound now 10 5 c H1 Reachable_two).
Defined.
End FscacheFurtherRuns.
